(** * BGG data processor: incremental synchronisation engine

    A shallow embedding of [src/processors/bggDataProcessor.js]
    (class [BGGDataProcessor]) together with the parts of
    [src/utils/database.js] it calls, and the properties of the
    synchronisation run that follow from the code.

    Conventions.
    - A JavaScript number is an IEEE-754 binary64 value: [float].
    - A JavaScript string is kept as the sequence of bytes of its UTF-8
      encoding: [string].
    - A plain JavaScript object (a decoded record, a stored document, an
      update specification) is a finite map from property names to values:
      [gmap string JsVal]; a property that is absent reads as [undefined].
    - The store, the clock and the console are threaded explicitly through a
      state-and-exception monad [M]. *)

From Stdlib Require Import ZArith Floats List Bool Ascii String Lia.
From Stdlib Require Import Sorting.Sorted Sorting.Permutation.
From stdpp Require Import base option list strings gmap pretty.

Set Warnings "-inexact-float".

Local Open Scope string_scope.
Local Open Scope list_scope.
Local Open Scope Z_scope.

(* ===================================================================== *)
(** ** JavaScript values                                                  *)
(* ===================================================================== *)

Module Js.

(** The values that occur in rows, records and stored documents.  [VDate]
    is a [Date] object (milliseconds since the epoch), [VOid] a
    store-assigned [ObjectId]. *)
Inductive JsVal : Type :=
| VUndefined
| VNull
| VBool (b : bool)
| VNum (x : float)
| VStr (s : string)
| VDate (ms : Z)
| VOid (n : nat).

(** [typeof v === 'number'] *)
Definition is_number (v : JsVal) : bool :=
  match v with VNum _ => true | _ => false end.

(** [isNaN(v)] for a value already known to be a number. *)
Definition isNaN (v : JsVal) : bool :=
  match v with VNum x => PrimFloat.is_nan x | _ => false end.

(** [a === b].  Numbers compare as IEEE values ([NaN] differs from itself,
    [+0] equals [-0]).  Objects compare by reference; the two sides of every
    comparison in this program come from different sources (a freshly
    decoded row and a document read from the store), so two objects are
    never the same reference. *)
Definition strict_eq (a b : JsVal) : bool :=
  match a, b with
  | VUndefined, VUndefined => true
  | VNull, VNull => true
  | VBool x, VBool y => Bool.eqb x y
  | VNum x, VNum y => PrimFloat.eqb x y
  | VStr x, VStr y => String.eqb x y
  | _, _ => false
  end.

(** ToBoolean. *)
Definition truthy (v : JsVal) : bool :=
  match v with
  | VUndefined | VNull => false
  | VBool b => b
  | VNum x => negb (PrimFloat.is_zero x || PrimFloat.is_nan x)
  | VStr s => negb (String.eqb s "")
  | VDate _ | VOid _ => true
  end.

(** Property read [o[k]]: an absent property reads as [undefined]. *)
Definition prop (o : gmap string JsVal) (k : string) : JsVal :=
  default VUndefined (o !! k).

(** The number nearest to an integer (round to nearest, ties to even). *)
Definition of_Z (z : Z) : float :=
  SF2Prim (binary_normalize prec emax z 0 false).

(** The number nearest to [m * 10^e], for [0 <= m].  For a negative
    exponent the quotient is computed with 66 guard bits and a sticky bit,
    so that the single final rounding is the correct one. *)
Definition of_decimal (m e : Z) : float :=
  if m =? 0 then PrimFloat.zero
  else if 0 <=? e then of_Z (m * 10 ^ e)
  else
    let d := 10 ^ (- e) in
    let s := 66 + Z.log2 d in
    let n := m * 2 ^ s in
    let sticky := if n mod d =? 0 then 0 else 1 in
    SF2Prim (binary_normalize prec emax (2 * (n / d) + sticky) (- (s + 1)) false).

Definition negate_if (neg : bool) (x : float) : float :=
  if neg then PrimFloat.opp x else x.

(** *** Scanning *)

Definition dec_digit (c : ascii) : option Z :=
  let n := Z.of_N (N_of_ascii c) in
  if (48 <=? n) && (n <=? 57) then Some (n - 48) else None.

Definition hex_digit (c : ascii) : option Z :=
  let n := Z.of_N (N_of_ascii c) in
  if (48 <=? n) && (n <=? 57) then Some (n - 48)
  else if (97 <=? n) && (n <=? 102) then Some (n - 87)
  else if (65 <=? n) && (n <=? 70) then Some (n - 55)
  else None.

(** The longest prefix of digits of [s] in the given radix, read after the
    digits [acc] already seen: its value, the number of digits read, and
    the rest of the string. *)
Fixpoint scan_digits (digit : ascii -> option Z) (radix : Z)
    (s : string) (acc : Z) (count : nat) : Z * nat * string :=
  match s with
  | String c s' =>
      match digit c with
      | Some d => scan_digits digit radix s' (acc * radix + d) (S count)
      | None => (acc, count, s)
      end
  | EmptyString => (acc, count, s)
  end.

Definition byte_is (c : ascii) (n : N) : bool := N.eqb (N_of_ascii c) n.

(** Removes the leading [StrWhiteSpaceChar]s of ECMAScript: TAB, LF, VT,
    FF, CR, SP, and (in UTF-8) U+00A0, U+1680, U+2000..U+200A, U+2028,
    U+2029, U+202F, U+205F, U+3000, U+FEFF. *)
Fixpoint skip_ws (s : string) : string :=
  match s with
  | String c1 r1 =>
      let n1 := N_of_ascii c1 in
      if ((9 <=? n1) && (n1 <=? 13))%N || (n1 =? 32)%N then skip_ws r1
      else
        match r1 with
        | String c2 r2 =>
            let n2 := N_of_ascii c2 in
            if (n1 =? 194)%N && (n2 =? 160)%N then skip_ws r2
            else
              match r2 with
              | String c3 r3 =>
                  let n3 := N_of_ascii c3 in
                  if ((n1 =? 225) && (n2 =? 154) && (n3 =? 128))%N
                     || ((n1 =? 226) && (n2 =? 128)
                           && (((128 <=? n3) && (n3 <=? 138))
                               || (n3 =? 168) || (n3 =? 169) || (n3 =? 175)))%N
                     || ((n1 =? 226) && (n2 =? 129) && (n3 =? 159))%N
                     || ((n1 =? 227) && (n2 =? 128) && (n3 =? 128))%N
                     || ((n1 =? 239) && (n2 =? 187) && (n3 =? 191))%N
                  then skip_ws r3
                  else s
              | EmptyString => s
              end
        | EmptyString => s
        end
  | EmptyString => s
  end.

(** An optional leading sign: whether it is a minus, and the rest. *)
Definition scan_sign (s : string) : bool * string :=
  match s with
  | String c r =>
      if byte_is c 45 then (true, r)
      else if byte_is c 43 then (false, r)
      else (false, s)
  | EmptyString => (false, s)
  end.

(** *** [parseInt(s)] with no radix argument *)
Definition parseInt (s : string) : float :=
  let '(neg, s1) := scan_sign (skip_ws s) in
  let '(digit, radix, s2) :=
    match s1 with
    | String c1 (String c2 r) =>
        if byte_is c1 48 && (byte_is c2 120 || byte_is c2 88)
        then (hex_digit, 16, r) else (dec_digit, 10, s1)
    | _ => (dec_digit, 10, s1)
    end in
  let '(v, count, _) := scan_digits digit radix s2 0 0 in
  match count with
  | O => PrimFloat.nan
  | S _ => if v =? 0 then (if neg then PrimFloat.neg_zero else PrimFloat.zero)
           else negate_if neg (of_Z v)
  end.

(** The exponent part [e[+-]digits] of a decimal literal, when present. *)
Definition scan_exponent (s : string) : Z :=
  match s with
  | String c r =>
      if byte_is c 101 || byte_is c 69 then
        let '(eneg, r1) := scan_sign r in
        let '(ev, ecount, _) := scan_digits dec_digit 10 r1 0 0 in
        match ecount with
        | O => 0
        | S _ => if eneg then - ev else ev
        end
      else 0
  | EmptyString => 0
  end.

(** *** [parseFloat(s)]: the longest prefix that is a [StrDecimalLiteral] *)
Definition parseFloat (s : string) : float :=
  let '(neg, s1) := scan_sign (skip_ws s) in
  if String.prefix "Infinity" s1 then negate_if neg PrimFloat.infinity
  else
    let '(iv, icount, s2) := scan_digits dec_digit 10 s1 0 0 in
    let '(mv, fcount, s3) :=
      match s2 with
      | String c r =>
          if byte_is c 46 then
            let '(v, n, r') := scan_digits dec_digit 10 r iv 0 in (v, n, r')
          else (iv, O, s2)
      | EmptyString => (iv, O, s2)
      end in
    match (icount + fcount)%nat with
    | O => PrimFloat.nan
    | S _ =>
        negate_if neg (of_decimal mv (scan_exponent s3 - Z.of_nat fcount))
    end.

(** *** [String.prototype.includes] *)
Fixpoint includes (s pat : string) : bool :=
  if String.prefix pat s then true
  else match s with
       | String _ s' => includes s' pat
       | EmptyString => false
       end.

(** *** [path.basename] (POSIX): trailing slashes are ignored, and the
    result is what follows the last remaining slash. *)
Definition is_slash (c : ascii) : bool := byte_is c 47.

Fixpoint drop_while {A} (f : A -> bool) (l : list A) : list A :=
  match l with
  | x :: l' => if f x then drop_while f l' else l
  | [] => []
  end.

Fixpoint take_while {A} (f : A -> bool) (l : list A) : list A :=
  match l with
  | x :: l' => if f x then x :: take_while f l' else []
  | [] => []
  end.

Definition basename (p : string) : string :=
  let r := drop_while is_slash (rev (list_ascii_of_string p)) in
  string_of_list_ascii (rev (take_while (fun c => negb (is_slash c)) r)).

End Js.

Export Js.

Abbreviation Doc := (gmap string JsVal) (only parsing).
Abbreviation Row := (gmap string string) (only parsing).

(* ===================================================================== *)
(** ** Row decoder: the ['data'] handler of [processCsvFile]              *)
(* ===================================================================== *)

Module Decoder.

(** [row.k]: csv-parser yields every cell as a string; a column the row
    does not have reads as [undefined]. *)
Definition cell (row : Row) (k : string) : JsVal :=
  from_option VStr VUndefined (row !! k).

(** [parseInt(row.k)] and [parseFloat(row.k)]: the argument is converted
    with ToString first, and [undefined] becomes ["undefined"]. *)
Definition cell_text (row : Row) (k : string) : string :=
  default "undefined" (row !! k).

(** The object literal [gameDoc] built from a row. *)
Definition buildGameDoc (row : Row) : Doc :=
  list_to_map
    [ ("id", VNum (parseInt (cell_text row "id")));
      ("name", cell row "name");
      ("year_published", VNum (parseInt (cell_text row "yearpublished")));
      ("rank", VNum (parseInt (cell_text row "rank")));
      ("bayes_average", VNum (parseFloat (cell_text row "bayesaverage")));
      ("average", VNum (parseFloat (cell_text row "average")));
      ("users_rated", VNum (parseInt (cell_text row "usersrated")));
      ("is_expansion",
        VBool (strict_eq (cell row "is_expansion") (VStr "1")
               || strict_eq (cell row "is_expansion") (VNum 1%float)));
      ("abstracts_rank",
        if truthy (cell row "abstracts_rank")
        then VNum (parseInt (cell_text row "abstracts_rank"))
        else VUndefined) ].

(** The test of the clean-up loop: [undefined], [null], or a number that
    is [NaN]. *)
Definition removable (v : JsVal) : bool :=
  match v with
  | VUndefined | VNull => true
  | _ => is_number v && isNaN v
  end.

(** [Object.keys(gameDoc).forEach(key => { if (...) delete gameDoc[key] })] *)
Definition cleanUp (gameDoc : Doc) : Doc :=
  omap (fun v => if removable v then None else Some v) gameDoc.

(** The record a row yields, if it yields one:
    [if (gameDoc.name && gameDoc.id) allRecords.push(gameDoc)]. *)
Definition decodeRow (row : Row) : option Doc :=
  let gameDoc := cleanUp (buildGameDoc row) in
  if truthy (prop gameDoc "name") && truthy (prop gameDoc "id")
  then Some gameDoc else None.

(** One ['data'] event: the state is [(allRecords, checked)]. *)
Definition onData (st : list Doc * nat) (row : Row) : list Doc * nat :=
  let '(allRecords, checked) := st in
  (match decodeRow row with
   | Some gameDoc => allRecords ++ [gameDoc]
   | None => allRecords
   end, S checked).

(** The whole stream of rows. *)
Definition collect (rows : list Row) : list Doc * nat :=
  fold_left onData rows ([], O).

End Decoder.

(* ===================================================================== *)
(** ** Differ: [analyzeChanges] and [hasGameDataChanged]                  *)
(* ===================================================================== *)

Module Differ.

Definition fieldsToCompare : list string :=
  [ "name"; "year_published"; "rank"; "bayes_average";
    "average"; "users_rated"; "is_expansion"; "abstracts_rank" ].

(** The operand of arithmetic on a value known to be a number. *)
Definition num (v : JsVal) : float :=
  match v with VNum x => x | _ => PrimFloat.nan end.

Definition tolerance : float := 0.001%float.

(** [Math.abs(newValue - existingValue) > 0.001] *)
Definition beyond_tolerance (newValue existingValue : JsVal) : bool :=
  PrimFloat.ltb tolerance
    (PrimFloat.abs (PrimFloat.sub (num newValue) (num existingValue))).

(** One iteration of [for (const field of fieldsToCompare)] on the two
    values of the field: [true] is [return true], [false] is going on to
    the next field. *)
Definition fieldChanged (newValue existingValue : JsVal) : bool :=
  if negb (strict_eq newValue existingValue) then
    if is_number newValue && is_number existingValue then
      if isNaN newValue && isNaN existingValue then false
      else if beyond_tolerance newValue existingValue then true
      else false
    else true
  else false.

(** The loop; falling off its end is [return false]. *)
Fixpoint compareFields (fields : list string)
    (newGame existingGame : Doc) : bool :=
  match fields with
  | [] => false
  | field :: rest =>
      let newValue := prop newGame field in
      let existingValue := prop existingGame field in
      if fieldChanged newValue existingValue then true
      else compareFields rest newGame existingGame
  end.

Definition hasGameDataChanged (newGame existingGame : Doc) : bool :=
  compareFields fieldsToCompare newGame existingGame.

(** *** The snapshot: a JavaScript [Map] from [id] to stored document *)

(** Keys of a [Map] are compared with SameValueZero: as [===], except that
    [NaN] is the same as [NaN]. *)
Definition same_value_zero (a b : JsVal) : bool :=
  strict_eq a b || (is_number a && is_number b && isNaN a && isNaN b).

Definition GamesMap : Type := list (JsVal * Doc).

Fixpoint map_get (m : GamesMap) (k : JsVal) : option Doc :=
  match m with
  | [] => None
  | (k', v) :: m' => if same_value_zero k' k then Some v else map_get m' k
  end.

Definition map_has (m : GamesMap) (k : JsVal) : bool :=
  match map_get m k with Some _ => true | None => false end.

(** [m.set(k, v)]: an existing key keeps its place and takes the new
    value, a new key is added last. *)
Fixpoint map_set (m : GamesMap) (k : JsVal) (v : Doc) : GamesMap :=
  match m with
  | [] => [(k, v)]
  | (k', v') :: m' =>
      if same_value_zero k' k then (k', v) :: m'
      else (k', v') :: map_set m' k v
  end.

(** [existingGames.forEach(game => existingGamesMap.set(game.id, game))] *)
Definition snapshot (existingGames : list Doc) : GamesMap :=
  fold_left (fun m game => map_set m (prop game "id") game) existingGames [].

(** *** [analyzeChanges] *)

Record Analysis : Type := mkAnalysis {
  newGames : list Doc;
  updatedGames : list Doc;
  unchangedCount : nat
}.

(** One iteration of [for (const newGame of newRecords)]. *)
Definition analyzeStep (existingGamesMap : GamesMap)
    (acc : Analysis) (newGame : Doc) : Analysis :=
  match map_get existingGamesMap (prop newGame "id") with
  | None =>
      mkAnalysis (newGames acc ++ [newGame]) (updatedGames acc)
                 (unchangedCount acc)
  | Some existingGame =>
      if hasGameDataChanged newGame existingGame
      then mkAnalysis (newGames acc) (updatedGames acc ++ [newGame])
                      (unchangedCount acc)
      else mkAnalysis (newGames acc) (updatedGames acc)
                      (S (unchangedCount acc))
  end.

Definition analyzeChanges (newRecords : list Doc)
    (existingGamesMap : GamesMap) : Analysis :=
  fold_left (analyzeStep existingGamesMap) newRecords (mkAnalysis [] [] O).

End Differ.

Export Decoder Differ.

(* ===================================================================== *)
(** ** The world of a run: store, connection, clock, files, console       *)
(* ===================================================================== *)

Module Store.

(** A JavaScript exception: an [Error] with its message. *)
Inductive Exn : Type := Error (message : string).

Definition message_of (e : Exn) : string :=
  match e with Error m => m end.

(** A failure of one call to the store: the call throws [fault_message]
    after [fault_applied] of its operations took effect (for a call that
    is not a batch, before it has any effect), and the connection may be
    lost with it. *)
Record Fault : Type := mkFault {
  fault_applied : nat;
  fault_message : string;
  fault_disconnects : bool
}.

(** What a run does to the outside, in order. *)
Inductive Event : Type :=
| EvCreateIndexes
| EvConnect
| EvPing
| EvFind (collection : string)
| EvBulkWrite (collection : string) (operations : nat)
| EvInsertMany (collection : string) (documents : nat)
| EvDeleteMany (collection : string)
| EvDrop (collection : string)
| EvOpenFile (path : string)
| EvConsoleError (text : string).

(** The state a run reads and writes.
    - [collections]: the documents of each collection, in natural order;
    - [next_oid]: the next [_id] the store assigns;
    - [db_open]: [Database.db] is set; [connected]: [isConnected()];
    - [faults]: the outcome of each coming call to the store, in order
      ([None]: the call succeeds; past the end every call succeeds);
    - [clock], [clock_reads]: the time the k-th reading of the clock gives;
    - [files]: the rows csv-parser yields for each readable path;
    - [trace]: the events so far, oldest first. *)
Record World : Type := mkWorld {
  collections : gmap string (list Doc);
  next_oid : nat;
  db_open : bool;
  connected : bool;
  faults : list (option Fault);
  clock : nat -> Z;
  clock_reads : nat;
  files : gmap string (list Row);
  trace : list Event
}.

Definition set_collections (f : gmap string (list Doc) -> gmap string (list Doc))
    (w : World) : World :=
  mkWorld (f (collections w)) (next_oid w) (db_open w) (connected w)
          (faults w) (clock w) (clock_reads w) (files w) (trace w).

Definition set_next_oid (n : nat) (w : World) : World :=
  mkWorld (collections w) n (db_open w) (connected w)
          (faults w) (clock w) (clock_reads w) (files w) (trace w).

Definition set_connection (o c : bool) (w : World) : World :=
  mkWorld (collections w) (next_oid w) o c
          (faults w) (clock w) (clock_reads w) (files w) (trace w).

Definition set_faults (fs : list (option Fault)) (w : World) : World :=
  mkWorld (collections w) (next_oid w) (db_open w) (connected w)
          fs (clock w) (clock_reads w) (files w) (trace w).

Definition set_clock_reads (n : nat) (w : World) : World :=
  mkWorld (collections w) (next_oid w) (db_open w) (connected w)
          (faults w) (clock w) n (files w) (trace w).

Definition add_event (e : Event) (w : World) : World :=
  mkWorld (collections w) (next_oid w) (db_open w) (connected w)
          (faults w) (clock w) (clock_reads w) (files w) (trace w ++ [e]).

(** *** The monad: state passing with exceptions *)

Inductive Res (A : Type) : Type :=
| Ok (a : A)
| Throw (e : Exn).
Arguments Ok {A} a.
Arguments Throw {A} e.

Definition M (A : Type) : Type := World -> Res A * World.

#[export] Instance M_ret : MRet M := fun A a w => (Ok a, w).

#[export] Instance M_bind : MBind M := fun A B k m w =>
  match m w with
  | (Ok a, w') => k a w'
  | (Throw e, w') => (Throw e, w')
  end.

Definition throw {A} (e : Exn) : M A := fun w => (Throw e, w).

(** [try { m } catch (error) { h error }] *)
Definition try_catch {A} (m : M A) (h : Exn -> M A) : M A := fun w =>
  match m w with
  | (Ok a, w') => (Ok a, w')
  | (Throw e, w') => h e w'
  end.

Definition get_world : M World := fun w => (Ok w, w).
Definition modify (f : World -> World) : M unit := fun w => (Ok tt, f w).
Definition emit (e : Event) : M unit := modify (add_event e).

(** [console.error(text)] *)
Definition console_error (text : string) : M unit := emit (EvConsoleError text).

(** [Date.now()] and [new Date()]: one reading of the clock. *)
Definition now : M Z := fun w =>
  (Ok (clock w (clock_reads w)), set_clock_reads (S (clock_reads w)) w).

(** One call reaches the store: the event is recorded and the outcome of
    the call is taken from [faults]. *)
Definition call (e : Event) : M (option Fault) := fun w =>
  let w1 := set_faults (tl (faults w)) (add_event e w) in
  match head (faults w) with
  | Some (Some f) =>
      (Ok (Some f),
       if fault_disconnects f then set_connection (db_open w1) false w1 else w1)
  | _ => (Ok None, w1)
  end.

(** A call with no partial effect: it throws when it fails. *)
Definition simple_call (e : Event) : M unit :=
  f ← call e;
  match f with
  | Some f => throw (Error (fault_message f))
  | None => mret tt
  end.

End Store.
Export Store.

(* ===================================================================== *)
(** ** [Database] (src/utils/database.js) and the driver's collections     *)
(* ===================================================================== *)

Module Database.

(** [isConnected()] *)
Definition isConnected : M bool :=
  w ← get_world; mret (connected w).

(** [connect()]: returns at once when the topology is connected; a failure
    is logged and thrown again. *)
Definition connect : M unit :=
  try_catch
    (c ← isConnected;
     if (c : bool) then mret tt
     else (simple_call EvConnect;; modify (set_connection true true)))
    (fun error =>
       console_error ("Failed to connect to MongoDB: " +:+ message_of error);;
       throw error).

(** [getDb()] *)
Definition getDb : M unit :=
  w ← get_world;
  if db_open (w : World) then mret tt
  else throw (Error "Database not connected. Call connect() first.").

(** [getCollection(collectionName)]: the handle of a collection is its
    name. *)
Definition getCollection (collectionName : string) : M string :=
  getDb;; mret collectionName.

(** [this.db.admin().ping()] *)
Definition ping : M unit :=
  w ← get_world;
  if db_open (w : World) then simple_call EvPing
  else throw (Error "TypeError: Cannot read properties of null (reading 'admin')").

(** [ensureConnection()] *)
Definition ensureConnection : M unit :=
  try_catch
    (c ← isConnected;
     (if negb (c : bool) then connect else mret tt);;
     ping)
    (fun _ => connect).

(** [createIndexes()].  The method is called by [processCsvFile] and is not
    among the sources of [Database]; it is taken as one call to the store
    that changes no document and may throw. *)
Definition createIndexes : M unit := simple_call EvCreateIndexes.

End Database.

Module Mongo.

(** The documents of a collection; a collection that does not exist has
    none. *)
Definition docs_of (w : World) (name : string) : list Doc :=
  default [] (collections w !! name).

(** [collection.find({}).toArray()] *)
Definition find (name : string) : M (list Doc) :=
  simple_call (EvFind name);;
  w ← get_world; mret (docs_of w name).

(** The one shape of write operation the processor issues:
    [{ updateOne: { filter: { id }, update: { $set, $setOnInsert },
       upsert: true } }]. *)
Record UpdateOne : Type := mkUpdateOne {
  filter_id : JsVal;
  op_set : Doc;
  op_setOnInsert : Doc
}.

(** A document matches [{ id: v }] when its [id] equals [v]. *)
Definition matches_id (v : JsVal) (d : Doc) : bool :=
  same_value_zero (prop d "id") v.

(** The update path: [$set] is applied to the first matching document. *)
Fixpoint update_first (v : JsVal) (set : Doc) (docs : list Doc)
    : option (list Doc) :=
  match docs with
  | [] => None
  | d :: ds =>
      if matches_id v d then Some ((set ∪ d) :: ds)
      else (cons d) <$> update_first v set ds
  end.

(** The insert path of an upsert: the new document has the filter's [id],
    the fields of [$set] and of [$setOnInsert], and a fresh [_id]. *)
Definition upserted (oid : nat) (op : UpdateOne) : Doc :=
  <["_id" := VOid oid]>
    (op_setOnInsert op ∪ (op_set op ∪ {[ "id" := filter_id op ]})).

(** One [updateOne] with [upsert: true] on the documents of a collection
    and the next free [_id]. *)
Definition apply_updateOne (st : list Doc * nat) (op : UpdateOne)
    : list Doc * nat :=
  let '(docs, oid) := st in
  match update_first (filter_id op) (op_set op) docs with
  | Some docs' => (docs', oid)
  | None => (docs ++ [upserted oid op], S oid)
  end.

(** One inserted document: the store assigns [_id] when it has none. *)
Definition apply_insert (st : list Doc * nat) (d : Doc) : list Doc * nat :=
  let '(docs, oid) := st in
  match d !! "_id" with
  | Some _ => (docs ++ [d], oid)
  | None => (docs ++ [<["_id" := VOid oid]> d], S oid)
  end.

(** A batch runs in order on one collection; when the call fails only the
    first [fault_applied] operations have taken effect. *)
Definition run_batch {A} (step : list Doc * nat -> A -> list Doc * nat)
    (e : Event) (name : string) (items : list A) : M unit :=
  f ← call e;
  let done := match f with
              | Some f => firstn (fault_applied f) items
              | None => items
              end in
  modify (fun w =>
    let '(docs, oid) := fold_left step done (docs_of w name, next_oid w) in
    set_next_oid oid (set_collections (insert name docs) w));;
  match f with
  | Some f => throw (Error (fault_message f))
  | None => mret tt
  end.

(** [collection.bulkWrite(ops, { ordered: true })] *)
Definition bulkWrite (name : string) (ops : list UpdateOne) : M unit :=
  run_batch apply_updateOne (EvBulkWrite name (length ops)) name ops.

(** [collection.insertMany(docs, { ordered: true })] *)
Definition insertMany (name : string) (docs : list Doc) : M unit :=
  run_batch apply_insert (EvInsertMany name (length docs)) name docs.

(** [collection.deleteMany({})] *)
Definition deleteMany (name : string) : M unit :=
  simple_call (EvDeleteMany name);;
  modify (set_collections (insert name [])).

(** [collection.drop()] *)
Definition drop (name : string) : M unit :=
  simple_call (EvDrop name);;
  modify (set_collections (delete name)).

End Mongo.
Export Mongo.

(* ===================================================================== *)
(** ** [BGGDataProcessor]                                                  *)
(* ===================================================================== *)

Module Processor.
Import Database.

(** What the processor is constructed with, and the collation of the
    platform: [localeCompare a b] is
    [a.localeCompare(b, undefined, { sensitivity: 'base' })]. *)
Record Env : Type := mkEnv {
  connectionString : string;
  games_collection : string;
  search_collection : string;
  localeCompare : string -> string -> Z
}.

(** *** [Array.prototype.sort] with a comparator: a stable sort *)

Section Sort.
Context {A : Type} (compare : A -> A -> Z).

(** [x] is put before the first element it does not come after. *)
Fixpoint insert_sorted (x : A) (l : list A) : list A :=
  match l with
  | [] => [x]
  | y :: l' =>
      if compare x y <=? 0 then x :: l else y :: insert_sorted x l'
  end.

Definition stable_sort (l : list A) : list A :=
  foldr insert_sorted [] l.

End Sort.

(** The name a comparator reads from a document.  [a.name] in
    [processCsvFile] must be a string to have [localeCompare]; in
    [resortCollection] the comparator reads [a.name || ''] first. *)
Definition name_strict (d : Doc) : option string :=
  match prop d "name" with VStr s => Some s | _ => None end.

Definition name_or_empty (d : Doc) : option string :=
  match prop d "name" with
  | VStr s => Some s
  | v => if truthy v then None else Some ""
  end.

(** [docs.sort((a, b) => key(a).localeCompare(key(b), ...))].  A document
    whose key is not a string has no [localeCompare], and the comparator
    throws a TypeError when such a document is its receiver; which
    documents are receivers depends on the engine, and every document of
    an array of two or more is taken to be one. *)
Definition sortByName (env : Env) (key : Doc -> option string)
    (docs : list Doc) : M (list Doc) :=
  if (2 <=? length docs)%nat
     && existsb (fun d => negb (bool_decide (is_Some (key d)))) docs
  then throw (Error "TypeError: localeCompare is not a function")
  else mret (stable_sort
               (fun a b => localeCompare env (default "" (key a))
                                             (default "" (key b))) docs).

(** *** [resortCollection] *)

Definition strip_id (doc : Doc) : Doc := delete "_id" doc.

(** [for (let i = 0; i < docs.length; i += batchSize)]: the slices
    [docs.slice(i, i + batchSize)]. *)
Fixpoint slices (fuel : nat) (batchSize : nat) (docs : list Doc)
    : list (list Doc) :=
  match fuel, docs with
  | _, [] => []
  | O, _ => []
  | S fuel', _ =>
      firstn batchSize docs :: slices fuel' batchSize (skipn batchSize docs)
  end.

Fixpoint insertSlices (collection : string) (batches : list (list Doc))
    : M unit :=
  match batches with
  | [] => mret tt
  | batch :: rest =>
      insertMany collection (strip_id <$> batch);;
      insertSlices collection rest
  end.

Definition insertInBatches (collection : string) (docs : list Doc) : M unit :=
  insertSlices collection (slices (length docs) 1000 docs).

(** The [try] block of [resortCollection]. *)
Definition resortSteps (env : Env) (collection collectionName : string)
    : M unit :=
  allDocs ← find collection;
  if (length (allDocs : list Doc) =? 0)%nat then mret tt
  else
    sorted ← sortByName env name_or_empty allDocs;
    t ← now;
    let tempCollectionName :=
      collectionName +:+ "_temp_" +:+ pretty (t : Z) in
    tempCollection ← getCollection tempCollectionName;
    insertInBatches tempCollection sorted;;
    deleteMany collection;;
    sortedDocs ← find tempCollection;
    insertInBatches collection sortedDocs;;
    getDb;;
    drop tempCollectionName.

(** The text [console.error] prints in the [catch] block. *)
Definition sortFailure (collectionName : string) (error : Exn) : string :=
  "Failed to sort " +:+ collectionName +:+ ": " +:+ message_of error.

Definition resortCollection (env : Env) (collection collectionName : string)
    : M unit :=
  try_catch (resortSteps env collection collectionName)
    (fun error => console_error (sortFailure collectionName error)).

(** *** The batch writer of [processCsvFile] *)

Record Batches : Type := mkBatches {
  gamesBatch : list UpdateOne;
  searchBatch : list UpdateOne;
  totalProcessed : nat
}.

(** The two operations pushed for one record. *)
Definition gameOp (currentTimestamp : JsVal) (gameDoc : Doc) : UpdateOne :=
  let gameDocWithTimestamps := <["date_updated" := currentTimestamp]> gameDoc in
  mkUpdateOne (prop gameDoc "id") gameDocWithTimestamps
              {[ "date_created" := currentTimestamp ]}.

Definition searchOp (currentTimestamp : JsVal) (gameDoc : Doc) : UpdateOne :=
  mkUpdateOne (prop gameDoc "id")
    (list_to_map [ ("id", prop gameDoc "id"); ("name", prop gameDoc "name");
                   ("date_updated", currentTimestamp) ])
    {[ "date_created" := currentTimestamp ]}.

(** One attempt at writing the two batches. *)
Definition writeBatches (gamesCollection searchCollection : string)
    (b : Batches) : M Batches :=
  ensureConnection;;
  bulkWrite gamesCollection (gamesBatch b);;
  bulkWrite searchCollection (searchBatch b);;
  mret (mkBatches [] [] (totalProcessed b + length (gamesBatch b))).

(** The body of [if (gamesBatch.length >= batchSize)]: an attempt, and on
    failure one more; the second failure rejects the run. *)
Definition flushFull (gamesCollection searchCollection : string)
    (b : Batches) : M Batches :=
  try_catch (writeBatches gamesCollection searchCollection b)
    (fun error =>
       console_error ("Batch write failed, retrying... " +:+ message_of error);;
       try_catch (writeBatches gamesCollection searchCollection b)
         (fun retryError =>
            console_error ("Retry failed: " +:+ message_of retryError);;
            throw retryError)).

(** [for (const gameDoc of gamesToProcess)] *)
Fixpoint writeLoop (gamesCollection searchCollection : string)
    (batchSize : nat) (existingGamesMap : GamesMap) (currentTimestamp : JsVal)
    (gamesToProcess : list Doc) (b : Batches) : M Batches :=
  match gamesToProcess with
  | [] => mret b
  | gameDoc :: rest =>
      let isNewGame := negb (map_has existingGamesMap (prop gameDoc "id")) in
      let b1 := mkBatches (gamesBatch b ++ [gameOp currentTimestamp gameDoc])
                          (searchBatch b ++ [searchOp currentTimestamp gameDoc])
                          (totalProcessed b) in
      b2 ← (if (batchSize <=? length (gamesBatch b1))%nat
            then flushFull gamesCollection searchCollection b1
            else mret b1);
      writeLoop gamesCollection searchCollection batchSize existingGamesMap
                currentTimestamp rest b2
  end.

(** [if (gamesBatch.length > 0) { ... }] after the loop: the remaining
    records, written once. *)
Definition flushRest (gamesCollection searchCollection : string)
    (b : Batches) : M nat :=
  if (0 <? length (gamesBatch b))%nat then
    ensureConnection;;
    bulkWrite gamesCollection (gamesBatch b);;
    bulkWrite searchCollection (searchBatch b);;
    mret (totalProcessed b + length (gamesBatch b))%nat
  else mret (totalProcessed b).

(** *** [processCsvFile] *)

(** A count as a JavaScript number. *)
Definition js_nat (n : nat) : JsVal := VNum (of_Z (Z.of_nat n)).

Definition noChangesResult : Doc :=
  list_to_map [ ("totalProcessed", js_nat 0); ("newGamesCount", js_nat 0);
                ("updatedGamesCount", js_nat 0); ("noChanges", VBool true) ].

Definition changesResult (totalProcessed : nat) (a : Analysis) : Doc :=
  list_to_map [ ("totalProcessed", js_nat totalProcessed);
                ("newGamesCount", js_nat (length (newGames a)));
                ("updatedGamesCount", js_nat (length (updatedGames a))) ].

Definition batchSizeOf (env : Env) : nat :=
  let isLocalhost := includes (connectionString env) "localhost"
                     || includes (connectionString env) "127.0.0.1" in
  if isLocalhost then 500%nat else 1000%nat.

(** [[...changesAnalysis.newGames, ...changesAnalysis.updatedGames]] *)
Definition gamesToProcess (a : Analysis) : list Doc :=
  newGames a ++ updatedGames a.

(** The ['end'] handler: everything after the rows are collected.  A
    result is [resolve(result)], an exception is [reject(error)]. *)
Definition onEnd (env : Env) (gamesCollection searchCollection : string)
    (batchSize : nat) (allRecords : list Doc) : M Doc :=
  existingGames ← find gamesCollection;
  let existingGamesMap := snapshot existingGames in
  let changesAnalysis := analyzeChanges allRecords existingGamesMap in
  let hasChanges := (0 <? length (newGames changesAnalysis))%nat
                    || (0 <? length (updatedGames changesAnalysis))%nat in
  if negb hasChanges then mret noChangesResult
  else
    sorted ← sortByName env name_strict (gamesToProcess changesAnalysis);
    t ← now;
    let currentTimestamp := VDate t in
    b ← writeLoop gamesCollection searchCollection batchSize existingGamesMap
                  currentTimestamp sorted (mkBatches [] [] O);
    total ← flushRest gamesCollection searchCollection b;
    resortCollection env gamesCollection "board_games";;
    resortCollection env searchCollection "games_search";;
    mret (changesResult total changesAnalysis).

(** What the promise [processCsvFile] returns comes to.  [Unhandled]: the
    read stream emitted ['error'], which has no listener (the only
    ['error'] listener is on the parser the stream is piped into). *)
Inductive Outcome : Type :=
| Resolved (result : Doc)
| Rejected (error : Exn)
| Unhandled (error : Exn).

(** The part before the promise is built. *)
Definition prepare (env : Env) : M (string * string * nat) :=
  createIndexes;;
  gamesCollection ← getCollection (games_collection env);
  searchCollection ← getCollection (search_collection env);
  mret (gamesCollection, searchCollection, batchSizeOf env).

Definition processCsvFile (env : Env) (csvPath : string) (w : World)
    : Outcome * World :=
  let fileName := basename csvPath in
  if negb (includes fileName "boardgames_ranks")
  then (Rejected (Error "Only boardgames_ranks.csv is supported."), w)
  else
    match prepare env w with
    | (Throw e, w1) => (Rejected e, w1)
    | (Ok (gamesCollection, searchCollection, batchSize), w1) =>
        let w2 := add_event (EvOpenFile csvPath) w1 in
        match files w2 !! csvPath with
        | None => (Unhandled (Error "ENOENT: no such file or directory"), w2)
        | Some rows =>
            let '(allRecords, checked) := collect rows in
            match onEnd env gamesCollection searchCollection batchSize
                        allRecords w2 with
            | (Ok result, w3) => (Resolved result, w3)
            | (Throw e, w3) => (Rejected e, w3)
            end
        end
    end.

End Processor.
Export Processor.

(* ===================================================================== *)
(** ** Concrete runs                                                       *)
(* ===================================================================== *)

Module Sample.

(** A collation for names in ASCII: letters compare without case, byte by
    byte. *)
Definition fold_case (c : ascii) : N :=
  let n := N_of_ascii c in
  if ((65 <=? n) && (n <=? 90))%N then (n + 32)%N else n.

Fixpoint compare_caseless (a b : string) : Z :=
  match a, b with
  | EmptyString, EmptyString => 0
  | EmptyString, String _ _ => -1
  | String _ _, EmptyString => 1
  | String x a', String y b' =>
      if (fold_case x <? fold_case y)%N then -1
      else if (fold_case y <? fold_case x)%N then 1
      else compare_caseless a' b'
  end.

Definition env : Env :=
  mkEnv "mongodb://localhost:27017" "board_games" "games_search"
        compare_caseless.

Definition path : string := "/data/boardgames_ranks.csv".

(** A connected world holding one file and the given documents of the
    record collection and of the search collection. *)
Definition world (rows : list Row) (games search : list Doc)
    (fs : list (option Fault)) : World :=
  mkWorld (<["board_games" := games]> (<["games_search" := search]> ∅))
          100 true true fs (fun k => Z.of_nat k + 1700000000000) 0
          {[ path := rows ]} [].

Definition row (id name rank : string) : Row :=
  list_to_map [ ("id", id); ("name", name); ("rank", rank) ].

(** A stored record, as an earlier run wrote it. *)
Definition stored (oid : nat) (id : float) (name : string) (rank : float)
    : Doc :=
  list_to_map [ ("_id", VOid oid); ("id", VNum id); ("name", VStr name);
                ("rank", VNum rank); ("is_expansion", VBool false);
                ("date_created", VDate 1600000000000);
                ("date_updated", VDate 1600000000000) ].

(** The first [n] calls to the store succeed and the next one fails, with
    none of its operations applied; every later call succeeds. *)
Definition fail_at (n : nat) (message : string) : list (option Fault) :=
  replicate n None ++ [Some (mkFault 0 message false)].

(** As many rows as a full batch on a local store: ids [1] to [500]. *)
Definition full_batch_rows : list Row :=
  (fun k : nat => row (pretty k) "Game" "1") <$> seq 1 500.

End Sample.

(* ===================================================================== *)
(** ** The vocabulary of the specification                                 *)
(* ===================================================================== *)

Module Spec.

(** Two values of a compared field match within the tolerance: they are
    the same value, or they are numbers whose absolute difference is at
    most [0.001]. *)
Definition within_tolerance (newValue existingValue : JsVal) : Prop :=
  strict_eq newValue existingValue = true \/
  (is_number newValue = true /\ is_number existingValue = true /\
   PrimFloat.leb
     (PrimFloat.abs (PrimFloat.sub (num newValue) (num existingValue)))
     tolerance = true).

(** Two values of a compared field differ beyond the tolerance: numbers
    whose absolute difference exceeds [0.001]; for values that are not both
    numbers, any difference. *)
Definition differs_beyond (newValue existingValue : JsVal) : Prop :=
  if is_number newValue && is_number existingValue
  then PrimFloat.ltb tolerance
         (PrimFloat.abs (PrimFloat.sub (num newValue) (num existingValue)))
       = true
  else strict_eq newValue existingValue = false.

(** A field is absent from a record. *)
Definition absent (d : Doc) (field : string) : Prop :=
  prop d field = VUndefined.

(** A field holds the number [NaN]. *)
Definition holds_NaN (d : Doc) (field : string) : Prop :=
  is_number (prop d field) = true /\ isNaN (prop d field) = true.

(** The three classes of the ChangeSet, and the class of one decoded
    record: New when its [id] has no entry in the snapshot, otherwise
    Changed or Unchanged as [hasGameDataChanged] says. *)
Inductive Class : Type := New | Changed | Unchanged.

Definition classify (existingGamesMap : GamesMap) (newGame : Doc) : Class :=
  match map_get existingGamesMap (prop newGame "id") with
  | None => New
  | Some existingGame =>
      if hasGameDataChanged newGame existingGame then Changed else Unchanged
  end.

(** Whether a record is in a class. *)
Definition in_class (existingGamesMap : GamesMap) (c : Class)
    (newGame : Doc) : bool :=
  match classify existingGamesMap newGame, c with
  | New, New | Changed, Changed | Unchanged, Unchanged => true
  | _, _ => false
  end.

End Spec.
Export Spec.

Module RowSpec.

(** A row has a column when the cell exists and is not the empty string. *)
Definition has_column (row : Row) (k : string) : bool :=
  truthy (cell row k).

(** A row has a name: the cell exists and is not empty. *)
Definition has_name (row : Row) : bool := truthy (cell row "name").

(** A row has an id: the cell reads as an integer other than zero. *)
Definition has_id (row : Row) : bool :=
  truthy (VNum (parseInt (cell_text row "id"))).

End RowSpec.
Export RowSpec.


Module RunSpec.

(** The next [n] calls to the store succeed. *)
Definition calls_succeed (n : nat) (w : World) : Prop :=
  Forall (fun f => f = None) (firstn n (faults w)).

(** An event that writes documents, or removes them. *)
Definition is_write (e : Event) : bool :=
  match e with
  | EvBulkWrite _ _ | EvInsertMany _ _ | EvDeleteMany _ | EvDrop _ => true
  | _ => false
  end.


(** The records a file decodes to. *)
Definition decoded (rows : list Row) : list Doc := (collect rows).1.

End RunSpec.
Export RunSpec.


Module SortSpec.

(** A consistent comparator, as [Array.prototype.sort] requires it: the
    sign of [cmp b a] is the opposite of the sign of [cmp a b], and "not
    after" is transitive. *)
Record Consistent {A : Type} (cmp : A -> A -> Z) : Prop := mkConsistent {
  cmp_antisym : forall a b, 0 < cmp a b <-> cmp b a < 0;
  cmp_trans : forall a b c, cmp a b <= 0 -> cmp b c <= 0 -> cmp a c <= 0
}.

(** The comparator [processCsvFile] sorts with. *)
Definition byName (env : Env) (a b : Doc) : Z :=
  localeCompare env (default "" (name_strict a)) (default "" (name_strict b)).

(** [a] is not after [b]. *)
Definition not_after (env : Env) (a b : Doc) : Prop := byName env a b <= 0.

(** [d] has the same rank as [k] in the ordering: a tie. *)
Definition ties_with (env : Env) (k d : Doc) : bool := byName env k d =? 0.

End SortSpec.
Export SortSpec.


Module UpsertSpec.

(** No document of a collection matches an [id]. *)
Definition no_match (v : JsVal) (docs : list Doc) : Prop :=
  Forall (fun d => matches_id v d = false) docs.

(** [d0] is the first document of a collection matching an [id]. *)
Definition first_match (v : JsVal) (docs pre : list Doc) (d0 : Doc)
    (post : list Doc) : Prop :=
  docs = pre ++ d0 :: post /\ no_match v pre /\ matches_id v d0 = true.

(** The operations the batch writer pushes for a record. *)
Definition issued_for (ts : JsVal) (gameDoc : Doc) (op : UpdateOne) : Prop :=
  op = gameOp ts gameDoc \/ op = searchOp ts gameDoc.

End UpsertSpec.
Export UpsertSpec.


Module TraceSpec.

(** From [w] to [w'] the trace only grew, by events that satisfy [P]. *)
Definition trace_grows (P : Event -> Prop) (w w' : World) : Prop :=
  exists evs, trace w' = trace w ++ evs /\ Forall P evs.

(** Every event a computation records satisfies [P], however it ends. *)
Definition emits {A : Type} (P : Event -> Prop) (m : M A) : Prop :=
  forall w r w', m w = (r, w') -> trace_grows P w w'.

(** The bounds on the size of a batch: a [bulkWrite] carries between one
    and [n] operations, an [insertMany] between one and 1000 documents. *)
Definition batch_bounded (n : nat) (e : Event) : Prop :=
  match e with
  | EvBulkWrite _ k => (0 < k <= n)%nat
  | EvInsertMany _ k => (0 < k <= 1000)%nat
  | _ => True
  end.

(** The events of the connection layer. *)
Definition connection_event (e : Event) : Prop :=
  match e with
  | EvConnect | EvPing | EvConsoleError _ => True
  | _ => False
  end.

(** A store that is reachable and does not fail: the database handle is
    set and no failure is scheduled. *)
Definition healthy (w : World) : Prop :=
  db_open w = true /\ faults w = [].

End TraceSpec.
Export TraceSpec.


Module HealthSpec.

(** On a healthy store the computation returns normally and leaves the
    store healthy. *)
Definition succeeds {A : Type} (m : M A) : Prop :=
  forall w, healthy w -> exists a w', m w = (Ok a, w') /\ healthy w'.

End HealthSpec.
Export HealthSpec.



Module RetrySpec.

(** [updateOne] when a document matches: the first match takes [$set];
    without a match the documents are as they were. *)
Definition update_only (docs : list Doc) (op : UpdateOne) : list Doc :=
  default docs (update_first (filter_id op) (op_set op) docs).

(** Some document of the collection matches [{ id: v }]. *)
Definition has_match (v : JsVal) (docs : list Doc) : bool :=
  existsb (matches_id v) docs.

(** An operation whose document, once written, is matched by its own
    filter and is left as it is by its own [$set]: the filter value equals
    itself, [$set] writes no other [id] and no [_id], and [$setOnInsert]
    writes neither [id] nor a property of [$set]. *)
Record settles (op : UpdateOne) : Prop := mkSettles {
  settles_self : same_value_zero (filter_id op) (filter_id op) = true;
  settles_id : forall v, op_set op !! "id" = Some v -> v = filter_id op;
  settles_oid : op_set op !! "_id" = None;
  settles_insert_id : op_setOnInsert op !! "id" = None;
  settles_disjoint :
    forall k, is_Some (op_setOnInsert op !! k) -> op_set op !! k = None
}.

(** The documents and the next [_id] of a store. *)
Definition store_of (w : World) : gmap string (list Doc) * nat :=
  (collections w, next_oid w).

(** What a batch of operations that ran to its end leaves of a store. *)
Definition written (name : string) (ops : list UpdateOne)
    (st : gmap string (list Doc) * nat) : gmap string (list Doc) * nat :=
  let '(docs, oid) :=
    fold_left apply_updateOne ops (default [] (st.1 !! name), st.2) in
  (<[name := docs]> st.1, oid).

End RetrySpec.
Export RetrySpec.


Module ResortSpec.

(** The documents [insertMany] stores for documents stripped of their
    [_id]: each takes the next free [_id], counted from [oid]. *)
Definition reinserted (oid : nat) (docs : list Doc) : list Doc :=
  imap (fun i d => <["_id" := VOid (oid + i)]> (strip_id d)) docs.

(** The comparator [resortCollection] sorts with. *)
Definition byNameOrEmpty (env : Env) (a b : Doc) : Z :=
  localeCompare env (default "" (name_or_empty a))
                    (default "" (name_or_empty b)).

(** The name of the staging collection of a re-sort that starts in [w]. *)
Definition tempName (collectionName : string) (w : World) : string :=
  collectionName +:+ "_temp_" +:+ pretty (clock w (clock_reads w)).

End ResortSpec.
Export ResortSpec.



Module ConvergeSpec.

(** A stored document mirrors a record: it has the [id] of the record and
    reads as the record does on every compared field. *)
Definition mirrors (stored record : Doc) : Prop :=
  prop stored "id" = prop record "id"
  /\ forall field, In field fieldsToCompare ->
       prop stored field = prop record field.

(** Every document mirrors one of the records. *)
Definition from_records (records : list Doc) (stored : Doc) : Prop :=
  exists record, In record records /\ mirrors stored record.

(** A search entry indexes a record: it has its [id] and its [name]. *)
Definition indexes (records : list Doc) (entry : Doc) : Prop :=
  exists record, In record records
    /\ prop entry "id" = prop record "id"
    /\ prop entry "name" = prop record "name".

(** The number of documents that match [{ id: v }]. *)
Definition count_id (v : JsVal) (docs : list Doc) : nat :=
  length (List.filter (matches_id v) docs).

(** No [id] is matched by two documents. *)
Definition one_per_id (docs : list Doc) : Prop :=
  forall v, (count_id v docs <= 1)%nat.

(** No two different records share an [id]. *)
Definition distinct_ids (records : list Doc) : Prop :=
  forall d d', In d records -> In d' records ->
    same_value_zero (prop d "id") (prop d' "id") = true -> d = d'.

(** A database that holds no document. *)
Definition empty_store (w : World) : Prop :=
  forall c, docs_of w c = [].

(** The documents of a collection in a store. *)
Definition docs_in (st : gmap string (list Doc) * nat) (c : string)
    : list Doc :=
  default [] (st.1 !! c).

(** The documents are in the order of their names: none comes after a
    later one, by the comparator of [resortCollection]. *)
Definition in_name_order (env : Env) (docs : list Doc) : Prop :=
  StronglySorted (fun a b => byNameOrEmpty env a b <= 0) docs.

(** A document has a name [resortCollection] can sort by. *)
Definition sortable (d : Doc) : Prop := is_Some (name_or_empty d).

(** The state of the store between the steps of a run on a store that
    does not fail, for the records of one file: the record collection [g]
    holds only documents that mirror records, the search collection [s]
    only entries that index records, neither holds two documents of one
    [id], and no other collection holds a document. *)
Definition settled (g s : string) (records : list Doc)
    (fs : gmap string (list Row)) (w : World) : Prop :=
  healthy w /\ files w = fs
  /\ (forall c, c <> g -> c <> s -> docs_of w c = [])
  /\ Forall (from_records records) (docs_of w g)
  /\ Forall (indexes records) (docs_of w s)
  /\ one_per_id (docs_of w g)
  /\ one_per_id (docs_of w s).

(** From [w] to [w'] no [id] lost its match in the collection [c]. *)
Definition keeps_matches (c : string) (w w' : World) : Prop :=
  forall v, has_match v (docs_of w c) = true ->
            has_match v (docs_of w' c) = true.

(** The [id] of a record has a match in both collections. *)
Definition written_in (g s : string) (w : World) (record : Doc) : Prop :=
  has_match (prop record "id") (docs_of w g) = true
  /\ has_match (prop record "id") (docs_of w s) = true.

(** The two batches hold the operations of the records [pending]. *)
Definition batches_of (ts : JsVal) (pending : list Doc) (b : Batches)
    : Prop :=
  gamesBatch b = gameOp ts <$> pending
  /\ searchBatch b = searchOp ts <$> pending.

End ConvergeSpec.
Export ConvergeSpec.


Module StampSpec.

(** The document [updateOne] reaches with the filter [{ id: v }]: the
    first of the collection that matches. *)
Definition first_of (v : JsVal) (docs : list Doc) : option Doc :=
  List.find (matches_id v) docs.

(** The document of an [id] after a write at the time [ts], against the
    one there was before: there is one, its [date_updated] is [ts], and its
    [date_created] is [ts] when there was none before and is the
    [date_created] of the one there was otherwise. *)
Definition stamped (ts : JsVal) (before after : option Doc) : Prop :=
  exists e', after = Some e'
    /\ prop e' "date_updated" = ts
    /\ prop e' "date_created"
       = match before with
         | Some e => prop e "date_created"
         | None => ts
         end.

(** The document of an [id] is as it was, or was written at [ts]. *)
Definition moved (ts : JsVal) (before after : option Doc) : Prop :=
  before = after \/ stamped ts before after.

(** An operation that writes the time [ts] as the batch writer does:
    [date_updated] in [$set], [date_created] in [$setOnInsert] only. *)
Record stamps (ts : JsVal) (op : UpdateOne) : Prop := mkStamps {
  stamps_settles : settles op;
  stamps_updated : op_set op !! "date_updated" = Some ts;
  stamps_created : op_set op !! "date_created" = None;
  stamps_insert : op_setOnInsert op !! "date_created" = Some ts
}.

(** From [w] to [w'] the document of every [id] in the collection [c] is
    as it was or was written at [ts]. *)
Definition moved_in (ts : JsVal) (c : string) (w w' : World) : Prop :=
  forall v, moved ts (first_of v (docs_of w c)) (first_of v (docs_of w' c)).

(** From [w] to [w'] the document of the [id] of a record in the
    collection [c] was written at [ts]. *)
Definition stamped_in (ts : JsVal) (c : string) (w w' : World)
    (record : Doc) : Prop :=
  stamped ts (first_of (prop record "id") (docs_of w c))
             (first_of (prop record "id") (docs_of w' c)).


(** The computation changes no document and takes no [_id], however it
    ends. *)
Definition keeps_store {A : Type} (m : M A) : Prop :=
  forall w r w', m w = (r, w') -> store_of w' = store_of w.

End StampSpec.
Export StampSpec.


(* ===================================================================== *)
(** ** Facts about binary64 comparisons                                    *)
(* ===================================================================== *)

Module FloatFacts.

Lemma SFcompare_antisym (x y : spec_float) (c : comparison) :
  SFcompare x y = Some c -> SFcompare y x = Some (CompOpp c).
Proof.
  destruct x as [sx|sx| |sx mx ex], y as [sy|sy| |sy my ey]; simpl;
    try discriminate;
    try (intros [= <-]; repeat match goal with b : bool |- _ => destruct b end;
         reflexivity).
  intros [= <-]. f_equal.
  rewrite (Z.compare_antisym ex ey).
  replace (Pos.compare_cont Eq my mx)
    with (CompOpp (Pos.compare_cont Eq mx my))
    by apply (Pos.compare_cont_antisym mx my Eq).
  destruct sx, sy; simpl; try reflexivity;
    destruct (ex ?= ey)%Z; simpl; try reflexivity;
    destruct (Pos.compare_cont Eq mx my); reflexivity.
Qed.


Lemma compare_cont_Eq_eq (p q : positive) :
  Pos.compare_cont Eq p q = Eq -> p = q.
Proof. apply Pos.compare_eq. Qed.



Lemma SFcompare_Eq_trans (x y z : spec_float) :
  SFcompare x y = Some Eq -> SFcompare y z = Some Eq ->
  SFcompare x z = Some Eq.
Proof.
  destruct x as [sx|sx| |sx mx ex], y as [sy|sy| |sy my ey],
           z as [sz|sz| |sz mz ez]; simpl; try discriminate;
    repeat match goal with b : bool |- _ => destruct b end;
    simpl; try discriminate; try reflexivity.
  all: destruct (ex ?= ey)%Z eqn:E1; try discriminate;
       destruct (ey ?= ez)%Z eqn:E2; try discriminate;
       apply Z.compare_eq in E1, E2; subst;
       destruct (Pos.compare_cont Eq mx my) eqn:M1; try discriminate;
       destruct (Pos.compare_cont Eq my mz) eqn:M2; try discriminate;
       apply compare_cont_Eq_eq in M1, M2; subst;
       rewrite Z.compare_refl, Pos.compare_cont_refl; reflexivity.
Qed.

Lemma eqb_trans (x y z : float) :
  PrimFloat.eqb x y = true -> PrimFloat.eqb y z = true ->
  PrimFloat.eqb x z = true.
Proof.
  rewrite !FloatAxioms.eqb_spec. unfold SFeqb.
  destruct (SFcompare (Prim2SF x) (Prim2SF y)) as [[]|] eqn:E1;
    try discriminate.
  destruct (SFcompare (Prim2SF y) (Prim2SF z)) as [[]|] eqn:E2;
    try discriminate.
  rewrite (SFcompare_Eq_trans _ _ _ E1 E2). reflexivity.
Qed.

(** [NaN] is not [===] to anything. *)
Lemma nan_eqb_l (x y : float) :
  PrimFloat.is_nan x = true -> PrimFloat.eqb x y = false.
Proof.
  unfold PrimFloat.is_nan. rewrite negb_true_iff, !FloatAxioms.eqb_spec.
  unfold SFeqb.
  destruct (Prim2SF x) as [sx|sx| |sx mx ex]; simpl.
  - destruct sx; discriminate.
  - destruct sx; discriminate.
  - reflexivity.
  - rewrite Z.compare_refl, Pos.compare_cont_refl. destruct sx; discriminate.
Qed.

Lemma nan_eqb_r (x y : float) :
  PrimFloat.is_nan y = true -> PrimFloat.eqb x y = false.
Proof.
  intros H. pose proof (nan_eqb_l y y H) as Hy. revert Hy.
  rewrite !FloatAxioms.eqb_spec. unfold SFeqb.
  destruct (Prim2SF y) as [sy|sy| |sy my ey]; simpl.
  - destruct sy; discriminate.
  - destruct sy; discriminate.
  - destruct (Prim2SF x); reflexivity.
  - rewrite Z.compare_refl, Pos.compare_cont_refl. destruct sy; discriminate.
Qed.

End FloatFacts.

(* ===================================================================== *)
(** ** The differ                                                          *)
(* ===================================================================== *)

Module DifferFacts.
Import FloatFacts.


Lemma compareFields_existsb (fields : list string) (n e : Doc) :
  compareFields fields n e
  = existsb (fun f => fieldChanged (prop n f) (prop e f)) fields.
Proof.
  induction fields as [|f fs IH]; simpl; [reflexivity|].
  rewrite IH. destruct (fieldChanged (prop n f) (prop e f)); reflexivity.
Qed.



Lemma analyze_fold (m : GamesMap) (l : list Doc) (acc : Analysis) :
  fold_left (analyzeStep m) l acc
  = mkAnalysis
      (newGames acc ++ List.filter (in_class m New) l)
      (updatedGames acc ++ List.filter (in_class m Changed) l)
      (unchangedCount acc + length (List.filter (in_class m Unchanged) l)).
Proof.
  revert acc. induction l as [|r l IH]; intros acc; simpl.
  - rewrite !app_nil_r, Nat.add_0_r. destruct acc; reflexivity.
  - rewrite IH. unfold analyzeStep, in_class, classify.
    destruct (map_get m (prop r "id")) as [e|]; simpl.
    + destruct (hasGameDataChanged r e); simpl;
        rewrite <- ?app_assoc; simpl; f_equal; lia.
    + rewrite <- app_assoc. reflexivity.
Qed.

(** The three classes cover the decoded records, each record in one. *)
Lemma analyzeChanges_partition (newRecords : list Doc) (m : GamesMap) :
  let a := analyzeChanges newRecords m in
  (length (newGames a) + length (updatedGames a) + unchangedCount a
   = length newRecords)%nat.
Proof.
  unfold analyzeChanges. rewrite analyze_fold. simpl.
  induction newRecords as [|r l IH]; simpl; [reflexivity|].
  assert (Hn : in_class m New r
               = match classify m r with New => true | _ => false end)
    by (unfold in_class; destruct (classify m r); reflexivity).
  assert (Hc : in_class m Changed r
               = match classify m r with Changed => true | _ => false end)
    by (unfold in_class; destruct (classify m r); reflexivity).
  assert (Hu : in_class m Unchanged r
               = match classify m r with Unchanged => true | _ => false end)
    by (unfold in_class; destruct (classify m r); reflexivity).
  rewrite Hn, Hc, Hu. destruct (classify m r); simpl; lia.
Qed.


(** The comparisons are those of binary64: a stored [NaN] against a
    number is neither within the tolerance nor beyond it, and the loop
    goes on to the next field. *)
Remark number_against_stored_NaN :
  ~ within_tolerance (VNum 5%float) (VNum PrimFloat.nan)
  /\ ~ differs_beyond (VNum 5%float) (VNum PrimFloat.nan)
  /\ fieldChanged (VNum 5%float) (VNum PrimFloat.nan) = false.
Proof.
  unfold within_tolerance, differs_beyond. simpl.
  repeat split; [|discriminate].
  intros [H | (_ & _ & H)]; revert H; vm_compute; discriminate.
Qed.

(** One field within the tolerance, one beyond it. *)
Example tolerance_examples :
  within_tolerance (VNum 7.5%float) (VNum 7.5005%float)
  /\ fieldChanged (VNum 7.5%float) (VNum 7.5005%float) = false
  /\ differs_beyond (VNum 7.5%float) (VNum 7.502%float)
  /\ fieldChanged (VNum 7.5%float) (VNum 7.502%float) = true
  /\ differs_beyond (VStr "Ant") (VStr "Ants")
  /\ fieldChanged (VStr "Ant") (VStr "Ants") = true.
Proof.
  unfold within_tolerance, differs_beyond. simpl.
  repeat split; try reflexivity. right. repeat split; reflexivity.
Qed.

(** [hasGameDataChanged] is [true] exactly when some compared field makes
    the loop return. *)
Lemma hasGameDataChanged_iff (newGame existingGame : Doc) :
  hasGameDataChanged newGame existingGame = true <->
  exists field, In field fieldsToCompare /\
    fieldChanged (prop newGame field) (prop existingGame field) = true.
Proof.
  unfold hasGameDataChanged. rewrite compareFields_existsb.
  apply existsb_exists.
Qed.

(** C7 as the code has it.  On a compared field, two values that are both
    absent, or that are both the number [NaN], do not make the loop
    return; a value that is absent on one side and present on the other
    (a present [NaN] included) marks the record Changed. *)
Theorem absent_and_NaN_comparison
    (newGame existingGame : Doc) (field : string)
    (Hfield : In field fieldsToCompare) :
  ((absent newGame field /\ absent existingGame field) \/
   (holds_NaN newGame field /\ holds_NaN existingGame field) ->
   fieldChanged (prop newGame field) (prop existingGame field) = false)
  /\ ((absent newGame field /\ ~ absent existingGame field) \/
      (~ absent newGame field /\ absent existingGame field) ->
      hasGameDataChanged newGame existingGame = true).
Proof.
  unfold absent, holds_NaN. split.
  - intros [[-> ->] | [[Hn1 Hn2] [He1 He2]]]; [reflexivity|].
    unfold fieldChanged. rewrite Hn1, Hn2, He1, He2. simpl.
    destruct (negb _); reflexivity.
  - intros H. apply hasGameDataChanged_iff. exists field.
    split; [exact Hfield|].
    destruct H as [[-> He] | [Hn ->]].
    + destruct (prop existingGame field); try reflexivity. contradiction.
    + destruct (prop newGame field); try reflexivity. contradiction.
Qed.

Lemma absent_and_NaN_comparison_witness :
  let newGame : Doc := {[ "name" := VStr "Ant" ]} in
  let existingGame : Doc := {[ "name" := VStr "Ant"; "rank" := VNum 5%float ]} in
  In "rank" fieldsToCompare /\
  ((absent newGame "rank" /\ absent existingGame "rank") \/
   (holds_NaN newGame "rank" /\ holds_NaN existingGame "rank") ->
   fieldChanged (prop newGame "rank") (prop existingGame "rank") = false)
  /\ ((absent newGame "rank" /\ ~ absent existingGame "rank") \/
      (~ absent newGame "rank" /\ absent existingGame "rank") ->
      hasGameDataChanged newGame existingGame = true).
Proof.
  intros newGame existingGame.
  assert (Hin : In "rank" fieldsToCompare) by (simpl; tauto).
  split; [exact Hin|].
  exact (absent_and_NaN_comparison newGame existingGame "rank" Hin).
Defined.

(** C7 fails as stated: an absent field against a stored [NaN] is not
    compared as equal; it marks the record Changed. *)
Lemma absent_against_NaN_is_changed :
  let newGame : Doc := {[ "name" := VStr "Ant" ]} in
  let existingGame : Doc :=
    {[ "name" := VStr "Ant"; "rank" := VNum PrimFloat.nan ]} in
  prop newGame "rank" = VUndefined
  /\ prop existingGame "rank" = VNum PrimFloat.nan
  /\ fieldChanged (prop newGame "rank") (prop existingGame "rank") = true
  /\ hasGameDataChanged newGame existingGame = true.
Proof. vm_compute. auto. Qed.

End DifferFacts.

(* ===================================================================== *)
(** ** The row decoder                                                     *)
(* ===================================================================== *)

Module DecoderFacts.

Lemma cleanUp_lookup (gameDoc : Doc) (k : string) :
  cleanUp gameDoc !! k
  = gameDoc !! k ≫= (fun v => if removable v then None else Some v).
Proof. unfold cleanUp. apply lookup_omap. Qed.

Lemma buildGameDoc_name (row : Row) :
  buildGameDoc row !! "name" = Some (cell row "name").
Proof. reflexivity. Qed.

Lemma buildGameDoc_id (row : Row) :
  buildGameDoc row !! "id" = Some (VNum (parseInt (cell_text row "id"))).
Proof. reflexivity. Qed.

Lemma decoded_name (row : Row) :
  truthy (prop (cleanUp (buildGameDoc row)) "name") = has_name row.
Proof.
  unfold prop, has_name. rewrite cleanUp_lookup, buildGameDoc_name. simpl.
  unfold cell. destruct (row !! "name"); reflexivity.
Qed.

Lemma decoded_id (row : Row) :
  truthy (prop (cleanUp (buildGameDoc row)) "id") = has_id row.
Proof.
  unfold prop, has_id. rewrite cleanUp_lookup, buildGameDoc_id. simpl.
  destruct (PrimFloat.is_nan (parseInt (cell_text row "id"))) eqn:E; simpl.
  - rewrite orb_true_r. reflexivity.
  - rewrite E. reflexivity.
Qed.

Lemma decodeRow_cases (row : Row) :
  decodeRow row
  = if has_name row && has_id row
    then Some (cleanUp (buildGameDoc row)) else None.
Proof. unfold decodeRow. rewrite decoded_name, decoded_id. reflexivity. Qed.

(** A decoded record has a non-empty string for a name. *)
Lemma decoded_name_string (row : Row) (gameDoc : Doc) :
  decodeRow row = Some gameDoc ->
  exists s, gameDoc !! "name" = Some (VStr s) /\ s <> "".
Proof.
  rewrite decodeRow_cases.
  destruct (has_name row) eqn:Hn; [|discriminate].
  destruct (has_id row); [|discriminate]. simpl. intros [= <-].
  rewrite cleanUp_lookup, buildGameDoc_name. unfold has_name, cell in *.
  destruct (row !! "name") as [s|]; [|discriminate]. simpl in *.
  exists s. split; [reflexivity|].
  intros ->. discriminate.
Qed.

(** The properties of a decoded record are among the nine of the object
    literal. *)
Lemma decoded_fields (row : Row) (gameDoc : Doc) (k : string) :
  decodeRow row = Some gameDoc ->
  is_Some (gameDoc !! k) ->
  In k ("id" :: fieldsToCompare).
Proof.
  rewrite decodeRow_cases.
  destruct (has_name row && has_id row); [|discriminate]. intros [= <-].
  rewrite cleanUp_lookup. intros [v Hv].
  apply bind_Some in Hv as (v' & Hv' & _).
  unfold buildGameDoc in Hv'.
  apply elem_of_list_to_map_2 in Hv'.
  apply list_elem_of_In in Hv'. simpl in Hv'. simpl.
  intuition (match goal with H : (_, _) = (_, _) |- _ => inversion H end; auto).
Qed.

(** C2 as the code has it.  A row yields a record exactly when it has a
    name and an id: it is dropped when it lacks either one. *)
Theorem decodeRow_dropped_iff (row : Row) :
  (decodeRow row = None <-> has_name row = false \/ has_id row = false)
  /\ (is_Some (decodeRow row) <-> has_name row = true /\ has_id row = true).
Proof.
  rewrite decodeRow_cases.
  destruct (has_name row), (has_id row); simpl; split; split;
    intros H; try tauto; try discriminate; eauto;
    try (destruct H as [? ?]; discriminate);
    try (destruct H; discriminate);
    try (destruct H as [? H']; discriminate H').
Qed.

(** C2 fails as stated: a row with an id and no name is dropped. *)
Lemma row_with_id_only_is_dropped :
  let row : Row := {[ "id" := "5" ]} in
  has_column row "id" = true /\ has_id row = true /\ decodeRow row = None.
Proof. vm_compute. auto. Qed.

End DecoderFacts.

(* ===================================================================== *)
(** ** The run                                                             *)
(* ===================================================================== *)

Module RunFacts.
Import Database.

Ltac unfold_monad :=
  unfold mbind, M_bind, mret, M_ret, throw, try_catch, get_world, modify,
    emit, console_error in *.

Lemma call_succeeds (e : Event) (w : World) :
  calls_succeed 1 w ->
  call e w = (Ok None, set_faults (tl (faults w)) (add_event e w)).
Proof.
  unfold calls_succeed, call.
  destruct (faults w) as [|[f|] fs]; simpl; try reflexivity.
  intros H. inversion H. discriminate.
Qed.

Lemma simple_call_succeeds (e : Event) (w : World) :
  calls_succeed 1 w ->
  simple_call e w = (Ok tt, set_faults (tl (faults w)) (add_event e w)).
Proof.
  intros H. unfold simple_call. unfold_monad. rewrite (call_succeeds e w H).
  reflexivity.
Qed.

Lemma calls_succeed_S (n : nat) (w w' : World) :
  calls_succeed (S n) w -> faults w' = tl (faults w) -> calls_succeed n w'.
Proof.
  unfold calls_succeed. intros H ->.
  destruct (faults w) as [|f fs]; simpl in *.
  - destruct n; constructor.
  - inversion H; assumption.
Qed.

Lemma calls_succeed_1 (n : nat) (w : World) :
  calls_succeed (S n) w -> calls_succeed 1 w.
Proof.
  unfold calls_succeed. destruct (faults w) as [|f fs]; simpl.
  - constructor.
  - intros H. inversion H. subst. rewrite firstn_O. repeat constructor.
Qed.

(** C10.  A path whose base name does not contain ["boardgames_ranks"]
    makes [processCsvFile] fail at once: the world is left as it was, so
    no file was opened, no call reached the store, and both collections
    are unchanged. *)
Theorem filename_guard (env : Env) (csvPath : string) (w : World) :
  includes (basename csvPath) "boardgames_ranks" = false ->
  processCsvFile env csvPath w
  = (Rejected (Error "Only boardgames_ranks.csv is supported."), w).
Proof.
  intros H. unfold processCsvFile. rewrite H. reflexivity.
Qed.

Lemma filename_guard_witness :
  includes (basename "/data/boardgames_export.csv") "boardgames_ranks" = false
  /\ processCsvFile Sample.env "/data/boardgames_export.csv"
       (Sample.world [] [] [] [])
     = (Rejected (Error "Only boardgames_ranks.csv is supported."),
        Sample.world [] [] [] []).
Proof.
  split; [reflexivity|].
  apply (filename_guard Sample.env "/data/boardgames_export.csv").
  reflexivity.
Defined.

(** C5.  When the differ finds no New and no Changed record, the run
    resolves with the result whose [noChanges] is [true]; the only calls
    that reached the store are [createIndexes] and the [find] that loads
    the snapshot, so no document of any collection was written and no
    collection was reindexed. *)
Theorem no_changes_short_circuit
    (env : Env) (csvPath : string) (w : World) (rows : list Row) :
  includes (basename csvPath) "boardgames_ranks" = true ->
  db_open w = true ->
  calls_succeed 2 w ->
  files w !! csvPath = Some rows ->
  gamesToProcess
    (analyzeChanges (decoded rows)
       (snapshot (docs_of w (games_collection env)))) = [] ->
  exists w',
    processCsvFile env csvPath w = (Resolved noChangesResult, w')
    /\ noChangesResult !! "noChanges" = Some (VBool true)
    /\ collections w' = collections w
    /\ trace w' = trace w ++ [ EvCreateIndexes; EvOpenFile csvPath;
                               EvFind (games_collection env) ]
    /\ existsb is_write (skipn (length (trace w)) (trace w')) = false.
Proof.
  intros Hname Hdb Hcalls Hfile Hnone.
  unfold processCsvFile. rewrite Hname. simpl.
  unfold prepare, createIndexes, getCollection, getDb. unfold_monad.
  rewrite (simple_call_succeeds _ w (calls_succeed_1 _ _ Hcalls)).
  simpl. rewrite Hdb. simpl. rewrite Hdb. simpl. rewrite Hfile.
  unfold decoded in Hnone. destruct (collect rows) as [allRecords checked].
  simpl in Hnone.
  unfold onEnd, find. unfold_monad.
  rewrite simple_call_succeeds.
  2:{ eapply calls_succeed_S; [exact Hcalls|reflexivity]. }
  simpl. unfold docs_of in *. simpl.
  apply app_eq_nil in Hnone as [Hn Hu]. rewrite Hn, Hu. simpl.
  eexists. split; [reflexivity|]. simpl.
  split; [reflexivity|]. split; [reflexivity|].
  split; [rewrite <- !app_assoc; reflexivity|].
  rewrite <- !app_assoc. rewrite skipn_app, Nat.sub_diag.
  rewrite skipn_all. reflexivity.
Qed.

Lemma no_changes_short_circuit_witness :
  let w := Sample.world [Sample.row "1" "Ant" "5"]
             [Sample.stored 1 1 "Ant" 5] [] [] in
  exists w',
    processCsvFile Sample.env Sample.path w = (Resolved noChangesResult, w')
    /\ noChangesResult !! "noChanges" = Some (VBool true)
    /\ collections w' = collections w
    /\ trace w' = trace w ++ [ EvCreateIndexes; EvOpenFile Sample.path;
                               EvFind (games_collection Sample.env) ]
    /\ existsb is_write (skipn (length (trace w)) (trace w')) = false.
Proof.
  intros w.
  apply (no_changes_short_circuit Sample.env Sample.path w
           [Sample.row "1" "Ant" "5"]).
  - reflexivity.
  - reflexivity.
  - constructor.
  - reflexivity.
  - vm_compute. reflexivity.
Defined.

(** *** Reindexing *)

(** The slices of [insertInBatches] cover the documents, in order. *)
Lemma slices_concat (fuel batchSize : nat) (docs : list Doc) :
  (length docs <= fuel)%nat ->
  concat (slices fuel (S batchSize) docs) = docs.
Proof.
  revert docs. induction fuel as [|fuel IH]; intros docs Hlen.
  - destruct docs; [reflexivity|simpl in Hlen; lia].
  - destruct docs as [|d docs]; [reflexivity|].
    change (slices (S fuel) (S batchSize) (d :: docs))
      with (firstn (S batchSize) (d :: docs)
            :: slices fuel (S batchSize) (skipn (S batchSize) (d :: docs))).
    simpl concat. rewrite IH.
    + simpl. f_equal. apply firstn_skipn.
    + simpl in *. rewrite length_skipn. lia.
Qed.

Lemma resortCollection_returns
    (env : Env) (collection collectionName : string) (w : World) :
  exists w', resortCollection env collection collectionName w = (Ok tt, w').
Proof.
  unfold resortCollection. unfold_monad.
  destruct (resortSteps env collection collectionName w) as [[[]|e] w1];
    eexists; reflexivity.
Qed.



(** *** The batch writer *)

(** A full batch is attempted, and attempted once more when the first
    attempt fails; each attempt starts with [ensureConnection]. *)
Lemma flushFull_retries_once
    (gamesCollection searchCollection : string) (b : Batches) (w : World) :
  flushFull gamesCollection searchCollection b w
  = match writeBatches gamesCollection searchCollection b w with
    | (Ok b', w') => (Ok b', w')
    | (Throw error, w1) =>
        let w2 := add_event
                    (EvConsoleError ("Batch write failed, retrying... "
                                     +:+ message_of error)) w1 in
        match writeBatches gamesCollection searchCollection b w2 with
        | (Ok b', w') => (Ok b', w')
        | (Throw retryError, w3) =>
            (Throw retryError,
             add_event (EvConsoleError ("Retry failed: "
                                        +:+ message_of retryError)) w3)
        end
    end.
Proof.
  unfold flushFull. unfold_monad.
  destruct (writeBatches gamesCollection searchCollection b w) as [[b'|e] w1];
    [reflexivity|].
  simpl.
  destruct (writeBatches gamesCollection searchCollection b _) as [[b'|e'] w3];
    reflexivity.
Qed.

(** The remaining records are written once: a failure of their first
    [bulkWrite] is the failure of [flushRest], with no other call made. *)
Lemma flushRest_fails_at_once
    (gamesCollection searchCollection : string) (b : Batches)
    (w w1 w2 : World) (error : Exn) :
  gamesBatch b <> [] ->
  ensureConnection w = (Ok tt, w1) ->
  bulkWrite gamesCollection (gamesBatch b) w1 = (Throw error, w2) ->
  flushRest gamesCollection searchCollection b w = (Throw error, w2).
Proof.
  intros Hne Hc Hw. unfold flushRest.
  destruct (gamesBatch b) as [|op ops]; [congruence|]. simpl.
  unfold_monad. rewrite Hc. simpl. rewrite Hw. reflexivity.
Qed.

(** C4 at its failing input.  One New record, fewer than a batch: the
    write of the remaining records fails once, and the run is rejected
    with that error after a single [bulkWrite]; there is no second
    attempt, although every later call to the store would have
    succeeded. *)
Theorem remainder_batch_is_not_retried :
  let w := Sample.world [Sample.row "1" "Ant" "2"] [] []
             (Sample.fail_at 3 "socket closed") in
  let r := processCsvFile Sample.env Sample.path w in
  r.1 = Rejected (Error "socket closed")
  /\ trace r.2 = [ EvCreateIndexes; EvOpenFile Sample.path;
                   EvFind "board_games"; EvPing; EvBulkWrite "board_games" 1 ]
  /\ faults r.2 = []
  /\ docs_of r.2 "board_games" = [].
Proof. vm_compute. auto. Qed.

(** The same failure on a full batch: the batch is attempted again after
    a connectivity check, and the run resolves. *)
Example full_batch_is_retried :
  let w := Sample.world Sample.full_batch_rows [] []
             (Sample.fail_at 3 "socket closed") in
  let r := processCsvFile Sample.env Sample.path w in
  r.1 = Resolved (list_to_map [ ("totalProcessed", js_nat 500);
                                ("newGamesCount", js_nat 500);
                                ("updatedGamesCount", js_nat 0) ])
  /\ firstn 9 (trace r.2)
     = [ EvCreateIndexes; EvOpenFile Sample.path; EvFind "board_games";
         EvPing; EvBulkWrite "board_games" 500;
         EvConsoleError "Batch write failed, retrying... socket closed";
         EvPing; EvBulkWrite "board_games" 500;
         EvBulkWrite "games_search" 500 ]
  /\ length (docs_of r.2 "board_games") = 500%nat.
Proof. vm_compute. auto. Qed.

(** *** The result of a run *)

Lemma call_frame (e : Event) (w w' : World) (r : Res (option Fault)) :
  call e w = (r, w') ->
  collections w' = collections w /\ files w' = files w
  /\ db_open w' = db_open w.
Proof.
  unfold call. destruct (head (faults w)) as [[f|]|]; intros [= <- <-];
    try (simpl; tauto).
  destruct (fault_disconnects f); simpl; tauto.
Qed.

Lemma simple_call_frame (e : Event) (w w' : World) (r : Res unit) :
  simple_call e w = (r, w') ->
  collections w' = collections w /\ files w' = files w
  /\ db_open w' = db_open w.
Proof.
  unfold simple_call. unfold_monad.
  destruct (call e w) as [[[f|]|x] w1] eqn:E; intros [= <- <-];
    exact (call_frame _ _ _ _ E).
Qed.

Lemma find_result (name : string) (w w' : World) (docs : list Doc) :
  find name w = (Ok docs, w') ->
  docs = docs_of w name /\ collections w' = collections w.
Proof.
  unfold find. unfold_monad.
  destruct (simple_call (EvFind name) w) as [[[]|x] w1] eqn:E;
    intros [= <- <-].
  destruct (simple_call_frame _ _ _ _ E) as (Hc & _ & _).
  unfold docs_of. rewrite Hc. auto.
Qed.

Lemma prepare_frame (env : Env) (w w1 : World) (g s : string) (n : nat) :
  prepare env w = (Ok (g, s, n), w1) ->
  g = games_collection env /\ collections w1 = collections w
  /\ files w1 = files w.
Proof.
  unfold prepare, createIndexes, getCollection, getDb. unfold_monad.
  destruct (simple_call EvCreateIndexes w) as [[[]|x] w0] eqn:E;
    [|discriminate].
  destruct (simple_call_frame _ _ _ _ E) as (Hc & Hf & _).
  destruct (db_open w0) eqn:Hd; simpl; [|discriminate].
  rewrite Hd. simpl. intros H. inversion H. subst. auto.
Qed.

Lemma insert_sorted_length {A} (cmp : A -> A -> Z) (x : A) (l : list A) :
  length (insert_sorted cmp x l) = S (length l).
Proof.
  induction l as [|y l IH]; simpl; [reflexivity|].
  destruct (cmp x y <=? 0); simpl; [reflexivity|]. rewrite IH. reflexivity.
Qed.

Lemma stable_sort_length {A} (cmp : A -> A -> Z) (l : list A) :
  length (stable_sort cmp l) = length l.
Proof.
  induction l as [|x l IH]; simpl; [reflexivity|].
  rewrite insert_sorted_length, IH. reflexivity.
Qed.

Lemma sortByName_length (env : Env) (key : Doc -> option string)
    (docs sorted : list Doc) (w w' : World) :
  sortByName env key docs w = (Ok sorted, w') ->
  length sorted = length docs /\ w' = w.
Proof.
  unfold sortByName. destruct (_ && _); unfold_monad; [discriminate|].
  intros [= <- <-]. split; [apply stable_sort_length|reflexivity].
Qed.

Lemma writeBatches_count (g s : string) (b b' : Batches) (w w' : World) :
  writeBatches g s b w = (Ok b', w') ->
  gamesBatch b' = []
  /\ totalProcessed b' = (totalProcessed b + length (gamesBatch b))%nat.
Proof.
  unfold writeBatches. unfold_monad.
  destruct (ensureConnection w) as [[[]|x] w1]; simpl; [|discriminate].
  destruct (bulkWrite g (gamesBatch b) w1) as [[[]|x] w2]; simpl;
    [|discriminate].
  destruct (bulkWrite s (searchBatch b) w2) as [[[]|x] w3]; simpl;
    [|discriminate].
  intros [= <- <-]. simpl. auto.
Qed.

Lemma flushFull_count (g s : string) (b b' : Batches) (w w' : World) :
  flushFull g s b w = (Ok b', w') ->
  (totalProcessed b' + length (gamesBatch b')
   = totalProcessed b + length (gamesBatch b))%nat.
Proof.
  rewrite flushFull_retries_once.
  destruct (writeBatches g s b w) as [[b1|e] w1] eqn:E1.
  - intros [= <- <-]. destruct (writeBatches_count _ _ _ _ _ _ E1) as [-> ->].
    simpl. lia.
  - simpl.
    match goal with |- context [writeBatches g s b ?w2] =>
      destruct (writeBatches g s b w2) as [[b2|e2] w3] eqn:E2; simpl;
        [|discriminate]
    end.
    intros [= <- <-]. destruct (writeBatches_count _ _ _ _ _ _ E2) as [-> ->].
    simpl. lia.
Qed.

Lemma writeLoop_count (g s : string) (n : nat) (m : GamesMap) (ts : JsVal)
    (l : list Doc) (b b' : Batches) (w w' : World) :
  writeLoop g s n m ts l b w = (Ok b', w') ->
  (totalProcessed b' + length (gamesBatch b')
   = totalProcessed b + length (gamesBatch b) + length l)%nat.
Proof.
  revert b w. induction l as [|d l IH]; intros b w; simpl.
  - unfold_monad. intros [= <- <-]. lia.
  - unfold_monad.
    destruct (n <=? length (gamesBatch b ++ [gameOp ts d]))%nat.
    + destruct (flushFull g s _ w) as [[b2|e] w2] eqn:E; [|discriminate].
      intros H. apply IH in H. apply flushFull_count in E. simpl in E.
      rewrite length_app in E. simpl in E. lia.
    + intros H. apply IH in H. simpl in H.
      rewrite length_app in H. simpl in H. lia.
Qed.

Lemma flushRest_count (g s : string) (b : Batches) (total : nat)
    (w w' : World) :
  flushRest g s b w = (Ok total, w') ->
  total = (totalProcessed b + length (gamesBatch b))%nat.
Proof.
  unfold flushRest. destruct (gamesBatch b) as [|op ops] eqn:Eb; simpl.
  - unfold_monad. intros [= <- <-]. lia.
  - unfold_monad.
    destruct (ensureConnection w) as [[[]|x] w1]; simpl; [|discriminate].
    destruct (bulkWrite g (op :: ops) w1) as [[[]|x] w2]; simpl;
      [|discriminate].
    destruct (bulkWrite s (searchBatch b) w2) as [[[]|x] w3]; simpl;
      [|discriminate].
    intros [= <- <-]. reflexivity.
Qed.

(** The result [onEnd] resolves with. *)
Lemma onEnd_result (env : Env) (g s : string) (n : nat)
    (allRecords : list Doc) (w w' : World) (r : Doc) :
  onEnd env g s n allRecords w = (Ok r, w') ->
  let a := analyzeChanges allRecords (snapshot (docs_of w g)) in
  (gamesToProcess a = [] /\ r = noChangesResult)
  \/ (gamesToProcess a <> [] /\
      r = changesResult (length (newGames a) + length (updatedGames a)) a).
Proof.
  cbv zeta. unfold onEnd. unfold_monad.
  destruct (find g w) as [[existing|x] w1] eqn:Ef; [|discriminate].
  destruct (find_result _ _ _ _ Ef) as [-> _].
  set (a := analyzeChanges allRecords (snapshot (docs_of w g))).
  unfold gamesToProcess.
  destruct (newGames a) as [|x xs] eqn:En; simpl.
  - destruct (updatedGames a) as [|y ys] eqn:Eu; simpl.
    + intros [= <- <-]. left. auto.
    + intros H. right. split; [discriminate|]. revert H.
      destruct (sortByName env name_strict (y :: ys) w1)
        as [[sorted|e] w2] eqn:Es; simpl; [|discriminate].
      apply sortByName_length in Es as [Hlen ->].
      match goal with |- context [writeLoop g s n ?m ?t sorted ?b0 ?w3] =>
        destruct (writeLoop g s n m t sorted b0 w3)
          as [[b|e] w4] eqn:El; simpl; [|discriminate]
      end.
      apply writeLoop_count in El. simpl in El.
      destruct (flushRest g s b w4) as [[total|e] w5] eqn:Er; simpl;
        [|discriminate].
      apply flushRest_count in Er.
      destruct (resortCollection_returns env g "board_games" w5)
        as (w6 & ->); simpl.
      destruct (resortCollection_returns env s "games_search" w6)
        as (w7 & ->); simpl.
      intros [= <- <-]. f_equal. simpl in *. lia.
  - intros H. right. split; [discriminate|]. revert H.
    destruct (sortByName env name_strict _ w1)
      as [[sorted|e] w2] eqn:Es; simpl; [|discriminate].
    apply sortByName_length in Es as [Hlen ->].
    match goal with |- context [writeLoop g s n ?m ?t sorted ?b0 ?w3] =>
      destruct (writeLoop g s n m t sorted b0 w3)
        as [[b|e] w4] eqn:El; simpl; [|discriminate]
    end.
    apply writeLoop_count in El. simpl in El.
    destruct (flushRest g s b w4) as [[total|e] w5] eqn:Er; simpl;
        [|discriminate].
    apply flushRest_count in Er.
    destruct (resortCollection_returns env g "board_games" w5)
      as (w6 & ->); simpl.
    destruct (resortCollection_returns env s "games_search" w6)
      as (w7 & ->); simpl.
    intros [= <- <-]. f_equal. simpl in *. rewrite length_app in Hlen.
    simpl in Hlen. lia.
Qed.

(** C9 as the code has it.  A run that resolves returns one of two
    objects.  When nothing changed: [totalProcessed], [newGamesCount] and
    [updatedGamesCount], all zero, and [noChanges: true].  Otherwise:
    [totalProcessed], the number of records written (the New and the
    Changed ones), [newGamesCount] and [updatedGamesCount], and no
    [noChanges] property.  Neither object has a count of the rows scanned
    or of the unchanged records. *)
Theorem run_result
    (env : Env) (csvPath : string) (w w' : World) (r : Doc) :
  processCsvFile env csvPath w = (Resolved r, w') ->
  exists rows, files w !! csvPath = Some rows /\
    let a := analyzeChanges (decoded rows)
               (snapshot (docs_of w (games_collection env))) in
    ((gamesToProcess a = [] /\ r = noChangesResult) \/
     (gamesToProcess a <> [] /\
      r = changesResult (length (newGames a) + length (updatedGames a)) a /\
      r !! "noChanges" = None))
    /\ r !! "unchangedCount" = None.
Proof.
  unfold processCsvFile.
  destruct (negb (includes (basename csvPath) "boardgames_ranks"));
    [discriminate|].
  destruct (prepare env w) as [[[[g s] n]|e] w1] eqn:Ep; [|discriminate].
  destruct (prepare_frame _ _ _ _ _ _ Ep) as (-> & Hc & Hf).
  simpl. rewrite Hf.
  destruct (files w !! csvPath) as [rows|]; [|discriminate].
  unfold decoded. destruct (collect rows) as [allRecords checked] eqn:Ec.
  simpl.
  destruct (onEnd env (games_collection env) s n allRecords
              (add_event (EvOpenFile csvPath) w1)) as [[r'|e] w3] eqn:Eo;
    [|discriminate].
  intros [= <- <-]. exists rows. split; [reflexivity|]. rewrite Ec. simpl.
  apply onEnd_result in Eo. cbv zeta in Eo.
  unfold docs_of in *. simpl in Eo. rewrite Hc in Eo.
  destruct Eo as [[H1 ->] | [H1 ->]].
  - split; [left; auto|reflexivity].
  - split; [right; auto|reflexivity].
Qed.

Lemma run_result_witness :
  let w := Sample.world [Sample.row "1" "Ant" "3"; Sample.row "7" "Bee" "9"]
             [Sample.stored 1 1 "Ant" 5; Sample.stored 2 7 "Bee" 9] [] [] in
  let out := processCsvFile Sample.env Sample.path w in
  let r : Doc := list_to_map [ ("totalProcessed", js_nat 1);
                               ("newGamesCount", js_nat 0);
                               ("updatedGamesCount", js_nat 1) ] in
  out = (Resolved r, out.2) /\
  exists rows, files w !! Sample.path = Some rows /\
    let a := analyzeChanges (decoded rows)
               (snapshot (docs_of w (games_collection Sample.env))) in
    ((gamesToProcess a = [] /\ r = noChangesResult) \/
     (gamesToProcess a <> [] /\
      r = changesResult (length (newGames a) + length (updatedGames a)) a /\
      r !! "noChanges" = None))
    /\ r !! "unchangedCount" = None.
Proof.
  intros w out r.
  assert (H : out = (Resolved r, out.2)).
  { rewrite (surjective_pairing out) at 1. f_equal. }
  split; [exact H|].
  exact (run_result Sample.env Sample.path w out.2 r H).
Defined.

(** C9 fails as stated: two rows are scanned, one of them unchanged, and
    the result of the run has neither a count of the rows scanned, nor a
    count of the unchanged records, nor a [noChanges] flag. *)
Lemma result_lacks_counts_and_flag :
  let rows := [Sample.row "1" "Ant" "3"; Sample.row "7" "Bee" "9"] in
  let games := [Sample.stored 1 1 "Ant" 5; Sample.stored 2 7 "Bee" 9] in
  let r : Doc := list_to_map [ ("totalProcessed", js_nat 1);
                               ("newGamesCount", js_nat 0);
                               ("updatedGamesCount", js_nat 1) ] in
  (processCsvFile Sample.env Sample.path (Sample.world rows games [] [])).1
  = Resolved r
  /\ length rows = 2%nat
  /\ unchangedCount (analyzeChanges (decoded rows) (snapshot games)) = 1%nat
  /\ r !! "noChanges" = None
  /\ r !! "unchangedCount" = None
  /\ r !! "totalScanned" = None.
Proof. vm_compute. auto 10. Qed.

End RunFacts.

(* ===================================================================== *)
(** ** The order of the records handed to the batch writer                 *)
(* ===================================================================== *)

Module SortFacts.

Section StableSort.
Context {A : Type} (cmp : A -> A -> Z) (Hcmp : Consistent cmp).

Lemma tie_not_after (k x : A) : cmp k x = 0 -> cmp x k <= 0.
Proof.
  intros H. destruct (Z_lt_le_dec 0 (cmp x k)) as [Hlt|Hle]; [|exact Hle].
  apply (cmp_antisym cmp Hcmp) in Hlt. lia.
Qed.

Lemma insert_sorted_perm (x : A) (l : list A) :
  Permutation (insert_sorted cmp x l) (x :: l).
Proof.
  induction l as [|y l IH]; simpl; [reflexivity|].
  destruct (cmp x y <=? 0); [reflexivity|].
  rewrite IH. apply perm_swap.
Qed.

Lemma stable_sort_perm (l : list A) : Permutation (stable_sort cmp l) l.
Proof.
  induction l as [|x l IH]; simpl; [reflexivity|].
  rewrite insert_sorted_perm. constructor. exact IH.
Qed.

Lemma insert_sorted_sorted (x : A) (l : list A) :
  StronglySorted (fun a b => cmp a b <= 0) l ->
  StronglySorted (fun a b => cmp a b <= 0) (insert_sorted cmp x l).
Proof.
  induction l as [|y l IH]; intros Hs; simpl.
  - repeat constructor.
  - inversion Hs as [|? ? Hs' Hall]; subst.
    destruct (cmp x y <=? 0) eqn:E.
    + apply Z.leb_le in E. constructor; [exact Hs|].
      constructor; [exact E|].
      eapply Forall_impl; [exact Hall|]. simpl. intros z Hz.
      exact (cmp_trans cmp Hcmp _ _ _ E Hz).
    + apply Z.leb_gt in E. constructor; [apply IH, Hs'|].
      apply (Permutation_Forall (Permutation_sym (insert_sorted_perm x l))).
      constructor; [|exact Hall].
      apply (cmp_antisym cmp Hcmp) in E. lia.
Qed.

Lemma stable_sort_sorted (l : list A) :
  StronglySorted (fun a b => cmp a b <= 0) (stable_sort cmp l).
Proof.
  induction l as [|x l IH]; simpl; [constructor|].
  apply insert_sorted_sorted, IH.
Qed.

(** Inserting does not change the order among the elements that tie with
    a given one. *)
Lemma insert_sorted_ties (k x : A) (l : list A) :
  List.filter (fun d => cmp k d =? 0) (insert_sorted cmp x l)
  = List.filter (fun d => cmp k d =? 0) (x :: l).
Proof.
  induction l as [|y l IH]; [reflexivity|].
  simpl insert_sorted. destruct (cmp x y <=? 0) eqn:E; [reflexivity|].
  apply Z.leb_gt in E. simpl.
  destruct (cmp k y =? 0) eqn:Ey; rewrite IH; simpl;
    destruct (cmp k x =? 0) eqn:Ex; try reflexivity.
  exfalso. apply Z.eqb_eq in Ex, Ey.
  pose proof (cmp_trans cmp Hcmp x k y (tie_not_after k x Ex)) as Ht.
  lia.
Qed.

Lemma stable_sort_ties (k : A) (l : list A) :
  List.filter (fun d => cmp k d =? 0) (stable_sort cmp l)
  = List.filter (fun d => cmp k d =? 0) l.
Proof.
  induction l as [|x l IH]; [reflexivity|].
  simpl stable_sort. rewrite insert_sorted_ties. simpl. rewrite IH.
  reflexivity.
Qed.

End StableSort.

Lemma byName_consistent (env : Env) :
  Consistent (localeCompare env) -> Consistent (byName env).
Proof.
  intros [Ha Ht]. unfold byName. split.
  - intros a b. apply Ha.
  - intros a b c. apply Ht.
Qed.

(** The records a file decodes to are the records its rows yield, in the
    order of the rows. *)
Lemma collect_fold (rows : list Row) (acc : list Doc) (n : nat) :
  fold_left onData rows (acc, n)
  = (acc ++ omap decodeRow rows, (n + length rows)%nat).
Proof.
  revert acc n. induction rows as [|row rows IH]; intros acc n; simpl.
  - rewrite app_nil_r, Nat.add_0_r. reflexivity.
  - rewrite IH. destruct (decodeRow row); simpl;
      rewrite <- ?app_assoc; simpl; f_equal; lia.
Qed.

Lemma decoded_rows (rows : list Row) :
  decoded rows = omap decodeRow rows.
Proof. unfold decoded, collect. rewrite collect_fold. reflexivity. Qed.

Lemma decoded_has_name (rows : list Row) (d : Doc) :
  In d (decoded rows) -> is_Some (name_strict d).
Proof.
  rewrite decoded_rows. intros H. apply list_elem_of_In in H.
  apply list_elem_of_omap in H as (row & _ & Hrow).
  destruct (DecoderFacts.decoded_name_string _ _ Hrow) as (s & Hs & _).
  unfold name_strict, prop. rewrite Hs. simpl. eauto.
Qed.

Lemma gamesToProcess_In (newRecords : list Doc) (m : GamesMap) (d : Doc) :
  In d (gamesToProcess (analyzeChanges newRecords m)) -> In d newRecords.
Proof.
  unfold gamesToProcess, analyzeChanges.
  rewrite DifferFacts.analyze_fold. simpl. rewrite in_app_iff.
  intros [H|H]; apply filter_In in H; tauto.
Qed.

Lemma sortByName_decoded (env : Env) (docs : list Doc) (w : World) :
  Forall (fun d => is_Some (name_strict d)) docs ->
  sortByName env name_strict docs w = (Ok (stable_sort (byName env) docs), w).
Proof.
  intros Hall. unfold sortByName.
  replace (existsb _ docs) with false; [rewrite andb_false_r; reflexivity|].
  symmetry. apply not_true_is_false. intros Hex.
  apply existsb_exists in Hex as (d & Hin & Hd).
  rewrite Forall_forall in Hall. apply list_elem_of_In in Hin.
  specialize (Hall d Hin).
  apply negb_true_iff in Hd. apply bool_decide_eq_false in Hd. contradiction.
Qed.

(** The sample collation is a consistent comparator. *)
Lemma compare_caseless_antisym (a b : string) :
  0 < Sample.compare_caseless a b <-> Sample.compare_caseless b a < 0.
Proof.
  revert b. induction a as [|x a IH]; intros [|y b]; simpl; try lia.
  destruct (N.ltb_spec (Sample.fold_case x) (Sample.fold_case y)),
           (N.ltb_spec (Sample.fold_case y) (Sample.fold_case x));
    try lia. apply IH.
Qed.

Lemma compare_caseless_trans (a b c : string) :
  Sample.compare_caseless a b <= 0 -> Sample.compare_caseless b c <= 0 ->
  Sample.compare_caseless a c <= 0.
Proof.
  revert b c. induction a as [|x a IH]; intros [|y b] [|z c]; simpl; try lia.
  destruct (N.ltb_spec (Sample.fold_case x) (Sample.fold_case y)),
           (N.ltb_spec (Sample.fold_case y) (Sample.fold_case x)),
           (N.ltb_spec (Sample.fold_case y) (Sample.fold_case z)),
           (N.ltb_spec (Sample.fold_case z) (Sample.fold_case y)),
           (N.ltb_spec (Sample.fold_case x) (Sample.fold_case z)),
           (N.ltb_spec (Sample.fold_case z) (Sample.fold_case x));
    try lia.
  apply IH.
Qed.

Lemma compare_caseless_consistent : Consistent Sample.compare_caseless.
Proof.
  split; [apply compare_caseless_antisym|apply compare_caseless_trans].
Qed.

(** C8 as the code has it.  The records handed to the batch writer are the
    New records followed by the Changed records (each group in the order
    of the file), sorted by name with the platform's comparator: the
    result is a permutation of them, no record comes after a later one,
    and records whose names tie keep the order they had in that
    concatenation, New before Changed. *)
Theorem records_sorted_for_writing
    (env : Env) (rows : list Row) (existingGamesMap : GamesMap) (w : World) :
  Consistent (localeCompare env) ->
  let a := analyzeChanges (decoded rows) existingGamesMap in
  newGames a = List.filter (in_class existingGamesMap New) (decoded rows)
  /\ updatedGames a
     = List.filter (in_class existingGamesMap Changed) (decoded rows)
  /\ exists sorted,
       sortByName env name_strict (gamesToProcess a) w = (Ok sorted, w)
       /\ Permutation sorted (newGames a ++ updatedGames a)
       /\ StronglySorted (not_after env) sorted
       /\ forall k : Doc,
            List.filter (ties_with env k) sorted
            = List.filter (ties_with env k) (newGames a ++ updatedGames a).
Proof.
  intros Hcons a.
  assert (Ha : a = mkAnalysis
            (List.filter (in_class existingGamesMap New) (decoded rows))
            (List.filter (in_class existingGamesMap Changed) (decoded rows))
            (length (List.filter (in_class existingGamesMap Unchanged)
                       (decoded rows)))).
  { subst a. unfold analyzeChanges. rewrite DifferFacts.analyze_fold.
    reflexivity. }
  split; [rewrite Ha; reflexivity|]. split; [rewrite Ha; reflexivity|].
  exists (stable_sort (byName env) (gamesToProcess a)).
  pose proof (byName_consistent env Hcons) as Hby.
  split; [|split; [|split]].
  - apply sortByName_decoded. apply Forall_forall. intros d Hd.
    apply list_elem_of_In in Hd.
    apply (decoded_has_name rows), (gamesToProcess_In _ existingGamesMap), Hd.
  - apply stable_sort_perm.
  - apply (stable_sort_sorted (byName env) Hby).
  - intros k. apply (stable_sort_ties (byName env) Hby).
Qed.

Lemma records_sorted_for_writing_witness :
  let rows := [Sample.row "2" "Zed" "1"; Sample.row "1" "ant" "2";
               Sample.row "3" "Ant" "7"] in
  let m := snapshot [Sample.stored 1 3 "Ant" 5] in
  let w := Sample.world rows [Sample.stored 1 3 "Ant" 5] [] [] in
  let a := analyzeChanges (decoded rows) m in
  Consistent (localeCompare Sample.env)
  /\ newGames a = List.filter (in_class m New) (decoded rows)
  /\ updatedGames a = List.filter (in_class m Changed) (decoded rows)
  /\ exists sorted,
       sortByName Sample.env name_strict (gamesToProcess a) w = (Ok sorted, w)
       /\ Permutation sorted (newGames a ++ updatedGames a)
       /\ StronglySorted (not_after Sample.env) sorted
       /\ forall k : Doc,
            List.filter (ties_with Sample.env k) sorted
            = List.filter (ties_with Sample.env k)
                (newGames a ++ updatedGames a).
Proof.
  intros rows m w a.
  split; [exact compare_caseless_consistent|].
  exact (records_sorted_for_writing Sample.env rows m w
           compare_caseless_consistent).
Defined.

(** C8 fails as stated: two records have the same name; the first row of
    the file is a Changed record and the second a New one, and the New
    one is handed to the batch writer first. *)
Lemma tie_is_not_broken_by_file_order :
  let rows := [Sample.row "1" "Ant" "3"; Sample.row "2" "Ant" "8"] in
  let games := [Sample.stored 1 1 "Ant" 5] in
  let first := default ∅ (decodeRow (Sample.row "1" "Ant" "3")) in
  let second := default ∅ (decodeRow (Sample.row "2" "Ant" "8")) in
  decoded rows = [first; second]
  /\ byName Sample.env first second = 0
  /\ (sortByName Sample.env name_strict
        (gamesToProcess (analyzeChanges (decoded rows) (snapshot games)))
        (Sample.world rows games [] [])).1
     = Ok [second; first].
Proof. vm_compute. auto. Qed.

End SortFacts.

(* ===================================================================== *)
(** ** Upserts and their timestamps                                        *)
(* ===================================================================== *)

Module UpsertFacts.
Import FloatFacts.

Lemma same_value_zero_trans (a b c : JsVal) :
  same_value_zero a b = true -> same_value_zero b c = true ->
  same_value_zero a c = true.
Proof.
  unfold same_value_zero.
  destruct a as [| |x|x|x|x|x], b as [| |y|y|y|y|y]; simpl; try discriminate;
    destruct c as [| |z|z|z|z|z]; simpl; try discriminate; try reflexivity.
  - rewrite !orb_false_r. destruct x, y, z; simpl; congruence.
  - intros H1 H2.
    apply orb_true_iff in H1 as [H1|H1], H2 as [H2|H2].
    + rewrite (eqb_trans _ _ _ H1 H2). reflexivity.
    + apply andb_prop in H2 as [Hy _].
      rewrite (nan_eqb_r x y Hy) in H1. discriminate.
    + apply andb_prop in H1 as [_ Hy].
      rewrite (nan_eqb_l y z Hy) in H2. discriminate.
    + apply andb_prop in H1 as [Hx _], H2 as [_ Hz].
      rewrite Hx, Hz. apply orb_true_r.
  - rewrite !orb_false_r. intros H1 H2.
    apply String.eqb_eq in H1, H2. subst. apply String.eqb_refl.
Qed.

Lemma map_get_set_None (m : GamesMap) (k' k : JsVal) (v : Doc) :
  map_get (map_set m k' v) k = None
  <-> map_get m k = None /\ same_value_zero k' k = false.
Proof.
  induction m as [|[k0 v0] m IH]; simpl.
  - destruct (same_value_zero k' k); split; intros H;
      try discriminate; try tauto. destruct H; discriminate.
  - destruct (same_value_zero k0 k') eqn:E0; simpl.
    + destruct (same_value_zero k0 k) eqn:E1.
      * split; [discriminate|]. intros [H _]. discriminate.
      * split; [|tauto]. intros H. split; [exact H|].
        apply not_true_is_false. intros E2.
        rewrite (same_value_zero_trans _ _ _ E0 E2) in E1. discriminate.
    + destruct (same_value_zero k0 k) eqn:E1.
      * split; [discriminate|]. intros [H _]. discriminate.
      * exact IH.
Qed.

Lemma snapshot_fold_None (docs : list Doc) (m : GamesMap) (k : JsVal) :
  map_get (fold_left (fun m game => map_set m (prop game "id") game) docs m) k
  = None
  <-> map_get m k = None /\ no_match k docs.
Proof.
  unfold no_match. revert m. induction docs as [|d docs IH]; intros m; simpl.
  - split; [intros H; split; [exact H|constructor]|tauto].
  - rewrite IH, map_get_set_None, Forall_cons. unfold matches_id. tauto.
Qed.

(** An [id] has no entry in the snapshot exactly when no stored document
    has it. *)
Lemma snapshot_None (docs : list Doc) (k : JsVal) :
  map_get (snapshot docs) k = None <-> no_match k docs.
Proof.
  unfold snapshot. rewrite snapshot_fold_None. simpl. tauto.
Qed.

Lemma first_match_exists (k : JsVal) (docs : list Doc) :
  ~ no_match k docs ->
  exists pre d0 post, first_match k docs pre d0 post.
Proof.
  unfold first_match, no_match. induction docs as [|d docs IH]; intros H.
  - exfalso. apply H. constructor.
  - destruct (matches_id k d) eqn:E.
    + exists [], d, docs. repeat split; [constructor|exact E].
    + destruct IH as (pre & d0 & post & -> & Hpre & Hd0).
      { intros Hall. apply H. constructor; assumption. }
      exists (d :: pre), d0, post. repeat split; [|exact Hd0].
      constructor; assumption.
Qed.

Lemma update_first_None (k : JsVal) (set : Doc) (docs : list Doc) :
  no_match k docs -> update_first k set docs = None.
Proof.
  unfold no_match. induction 1 as [|d docs Hd _ IH]; simpl; [reflexivity|].
  rewrite Hd, IH. reflexivity.
Qed.

Lemma update_first_Some (k : JsVal) (set : Doc) (docs pre post : list Doc)
    (d0 : Doc) :
  first_match k docs pre d0 post ->
  update_first k set docs = Some (pre ++ (set ∪ d0) :: post).
Proof.
  intros (-> & Hpre & Hd0). unfold no_match in Hpre.
  induction Hpre as [|d pre Hd _ IH]; simpl.
  - rewrite Hd0. reflexivity.
  - rewrite Hd, IH. reflexivity.
Qed.

(** The shape of the two operations pushed for a decoded record. *)
Lemma issued_shape (ts : JsVal) (row : Row) (gameDoc : Doc) (op : UpdateOne) :
  decodeRow row = Some gameDoc ->
  issued_for ts gameDoc op ->
  filter_id op = prop gameDoc "id"
  /\ op_set op !! "date_updated" = Some ts
  /\ op_set op !! "date_created" = None
  /\ op_setOnInsert op = {[ "date_created" := ts ]}.
Proof.
  intros Hrow [-> | ->]; simpl.
  - split; [reflexivity|]. split; [apply lookup_insert_eq|].
    split; [|reflexivity].
    rewrite lookup_insert_ne by discriminate.
    destruct (gameDoc !! "date_created") as [v|] eqn:E; [|reflexivity].
    exfalso.
    pose proof (DecoderFacts.decoded_fields row gameDoc "date_created" Hrow
                  (ex_intro _ v E)) as Hin.
    simpl in Hin. intuition discriminate.
  - repeat split; reflexivity.
Qed.

Lemma issued_id (ts : JsVal) (gameDoc : Doc) (op : UpdateOne) :
  issued_for ts gameDoc op ->
  prop (op_set op ∪ {[ "id" := filter_id op ]}) "id" = prop gameDoc "id".
Proof.
  intros [-> | ->]; unfold prop; simpl.
  - destruct (gameDoc !! "id") as [v|] eqn:E.
    + erewrite lookup_union_Some_l; [reflexivity|].
      rewrite lookup_insert_ne by discriminate. rewrite E. reflexivity.
    + rewrite lookup_union_r.
      * rewrite lookup_singleton_eq. simpl. unfold prop. rewrite E.
        reflexivity.
      * rewrite lookup_insert_ne by discriminate. exact E.
  - erewrite lookup_union_Some_l; reflexivity.
Qed.

(** The two upserts pushed for a decoded record, each applied alone (what
    the batch writer stores with them is in [StampFacts]).  Each sets
    [date_updated] to the timestamp of the run in [$set], leaves
    [date_created] out of [$set], and sets [date_created] to the same
    timestamp in [$setOnInsert].  Applied to a collection where no
    document has the record's [id] (which is the case of the record
    collection for a New record), the upsert adds one document whose
    [date_created] and [date_updated] are both that timestamp.  Applied to
    a collection where a document has the [id] (the case of the record
    collection for a Changed record), it updates the first such document:
    [date_updated] becomes the timestamp and [date_created] keeps the
    value it had. *)
Lemma upsert_timestamps
    (ts : JsVal) (row : Row) (gameDoc : Doc) (op : UpdateOne)
    (docs : list Doc) (oid : nat) :
  decodeRow row = Some gameDoc ->
  issued_for ts gameDoc op ->
  (op_set op !! "date_updated" = Some ts
   /\ op_set op !! "date_created" = None
   /\ op_setOnInsert op = {[ "date_created" := ts ]})
  /\ (no_match (prop gameDoc "id") docs ->
      exists d,
        apply_updateOne (docs, oid) op = (docs ++ [d], S oid)
        /\ prop d "id" = prop gameDoc "id"
        /\ d !! "date_created" = Some ts
        /\ d !! "date_updated" = Some ts)
  /\ (forall pre d0 post,
        first_match (prop gameDoc "id") docs pre d0 post ->
        exists d1,
          apply_updateOne (docs, oid) op = (pre ++ d1 :: post, oid)
          /\ d1 !! "date_updated" = Some ts
          /\ d1 !! "date_created" = d0 !! "date_created")
  /\ (classify (snapshot docs) gameDoc = New ->
      no_match (prop gameDoc "id") docs)
  /\ (classify (snapshot docs) gameDoc = Changed ->
      exists pre d0 post, first_match (prop gameDoc "id") docs pre d0 post).
Proof.
  intros Hrow Hop.
  destruct (issued_shape ts row gameDoc op Hrow Hop)
    as (Hid & Hupd & Hcre & Hins).
  split; [auto|]. split; [|split; [|split]].
  - intros Hno. exists (upserted oid op). unfold apply_updateOne.
    rewrite Hid, (update_first_None _ _ _ Hno).
    split; [reflexivity|]. unfold upserted. split; [|split].
    + unfold prop at 1. rewrite lookup_insert_ne by discriminate.
      rewrite lookup_union_r by (rewrite Hins; reflexivity).
      apply (issued_id ts gameDoc op Hop).
    + rewrite lookup_insert_ne by discriminate.
      apply lookup_union_Some_l. rewrite Hins. reflexivity.
    + rewrite lookup_insert_ne by discriminate.
      rewrite lookup_union_r by (rewrite Hins; reflexivity).
      apply lookup_union_Some_l. exact Hupd.
  - intros pre d0 post Hfirst. exists (op_set op ∪ d0).
    unfold apply_updateOne.
    rewrite Hid, (update_first_Some _ (op_set op) _ _ _ _ Hfirst).
    split; [reflexivity|]. split.
    + apply lookup_union_Some_l. exact Hupd.
    + apply lookup_union_r. exact Hcre.
  - unfold classify. intros Hnew. apply snapshot_None.
    destruct (map_get (snapshot docs) (prop gameDoc "id")) as [e|];
      [|reflexivity].
    destruct (hasGameDataChanged gameDoc e); discriminate.
  - unfold classify. intros Hch. apply first_match_exists.
    rewrite <- snapshot_None.
    destruct (map_get (snapshot docs) (prop gameDoc "id")) as [e|];
      [discriminate|discriminate].
Qed.

Example upsert_timestamps_sample :
  let ts := VDate 1700000000000 in
  let row := Sample.row "1" "Ant" "3" in
  let gameDoc : Doc := default ∅ (decodeRow row) in
  let op := gameOp ts gameDoc in
  let docs := [Sample.stored 1 1 "Ant" 5] in
  let oid := 100%nat in
  decodeRow row = Some gameDoc
  /\ issued_for ts gameDoc op
  /\ (op_set op !! "date_updated" = Some ts
      /\ op_set op !! "date_created" = None
      /\ op_setOnInsert op = {[ "date_created" := ts ]})
  /\ (no_match (prop gameDoc "id") docs ->
      exists d,
        apply_updateOne (docs, oid) op = (docs ++ [d], S oid)
        /\ prop d "id" = prop gameDoc "id"
        /\ d !! "date_created" = Some ts
        /\ d !! "date_updated" = Some ts)
  /\ (forall pre d0 post,
        first_match (prop gameDoc "id") docs pre d0 post ->
        exists d1,
          apply_updateOne (docs, oid) op = (pre ++ d1 :: post, oid)
          /\ d1 !! "date_updated" = Some ts
          /\ d1 !! "date_created" = d0 !! "date_created")
  /\ (classify (snapshot docs) gameDoc = New ->
      no_match (prop gameDoc "id") docs)
  /\ (classify (snapshot docs) gameDoc = Changed ->
      exists pre d0 post, first_match (prop gameDoc "id") docs pre d0 post).
Proof.
  intros ts row gameDoc op docs oid.
  assert (Hrow : decodeRow row = Some gameDoc) by reflexivity.
  assert (Hop : issued_for ts gameDoc op) by (left; reflexivity).
  split; [exact Hrow|]. split; [exact Hop|].
  exact (upsert_timestamps ts row gameDoc op docs oid Hrow Hop).
Defined.

(** The two scenarios, through the ['end'] handler.  A New record: the
    stored document and its search entry have [date_created] equal to
    [date_updated]. *)
Example new_record_run :
  let rows := [Sample.row "1" "Ant" "2"] in
  let w := Sample.world rows [] [] [] in
  let w' := (onEnd Sample.env "board_games" "games_search" 500
               (decoded rows) w).2 in
  (fun d : Doc => (d !! "id", d !! "date_created", d !! "date_updated"))
    <$> docs_of w' "board_games"
  = [ (Some (VNum 1%float), Some (VDate 1700000000000),
       Some (VDate 1700000000000)) ]
  /\ (fun d : Doc => (d !! "id", d !! "date_created", d !! "date_updated"))
       <$> docs_of w' "games_search"
     = [ (Some (VNum 1%float), Some (VDate 1700000000000),
          Some (VDate 1700000000000)) ].
Proof. vm_compute. auto. Qed.

(** A Changed record: [rank] and [date_updated] take the new values and
    [date_created] keeps the stored one. *)
Example changed_record_run :
  let rows := [Sample.row "1" "Ant" "3"] in
  let w := Sample.world rows [Sample.stored 1 1 "Ant" 5] [] [] in
  let w' := (onEnd Sample.env "board_games" "games_search" 500
               (decoded rows) w).2 in
  (fun d : Doc => (d !! "rank", d !! "date_created", d !! "date_updated"))
    <$> docs_of w' "board_games"
  = [ (Some (VNum 3%float), Some (VDate 1600000000000),
       Some (VDate 1700000000000)) ].
Proof. vm_compute. auto. Qed.

End UpsertFacts.

(* ===================================================================== *)
(** ** More on the row decoder                                             *)
(* ===================================================================== *)

Module DecoderMore.
Import DecoderFacts.

(** What the object literal holds under each of its keys. *)
Lemma buildGameDoc_shape (row : Row) (k : string) (v : JsVal) :
  buildGameDoc row !! k = Some v ->
  removable v = false ->
  (exists x, v = VNum x /\ PrimFloat.is_nan x = false)
  \/ (exists s, v = VStr s) \/ (exists b, v = VBool b).
Proof.
  intros Hk Hr. unfold buildGameDoc in Hk.
  apply elem_of_list_to_map_2, list_elem_of_In in Hk. simpl in Hk.
  assert (Hnum : forall x, v = VNum x ->
            (exists x, v = VNum x /\ PrimFloat.is_nan x = false)
            \/ (exists s, v = VStr s) \/ (exists b, v = VBool b)).
  { intros x ->. left. exists x. split; [reflexivity|]. exact Hr. }
  repeat (destruct Hk as [Hk|Hk];
          [inversion Hk; subst; clear Hk|]); try contradiction;
    try (eapply Hnum; reflexivity).
  - unfold cell in *. destruct (row !! "name"); [eauto|discriminate].
  - eauto.
  - destruct (truthy (cell row "abstracts_rank"));
      [eapply Hnum; reflexivity|discriminate].
Qed.

(** X1.  A record the decoder yields is well formed: every property it
    has is a number that is not [NaN], a string or a boolean (never
    [undefined] or [null]); its [id] is a number other than zero, its
    [name] a non-empty string, [is_expansion] is always there, and it has
    no property besides [id] and the eight compared fields. *)
Theorem decoded_record_well_formed (row : Row) (gameDoc : Doc) :
  decodeRow row = Some gameDoc ->
  (forall k v, gameDoc !! k = Some v ->
     (exists x, v = VNum x /\ PrimFloat.is_nan x = false)
     \/ (exists s, v = VStr s) \/ (exists b, v = VBool b))
  /\ (exists x, gameDoc !! "id" = Some (VNum x)
               /\ PrimFloat.is_nan x = false /\ PrimFloat.is_zero x = false)
  /\ (exists s, gameDoc !! "name" = Some (VStr s) /\ s <> "")
  /\ (exists b, gameDoc !! "is_expansion" = Some (VBool b))
  /\ (forall k, is_Some (gameDoc !! k) -> In k ("id" :: fieldsToCompare)).
Proof.
  intros Hrow. split; [|split; [|split; [|split]]].
  - pose proof Hrow as H. rewrite decodeRow_cases in H.
    destruct (has_name row && has_id row); [|discriminate].
    injection H as <-. intros k v. rewrite cleanUp_lookup. intros Hv.
    apply bind_Some in Hv as (v' & Hv' & Hkeep).
    destruct (removable v') eqn:Hr; [discriminate|]. injection Hkeep as <-.
    exact (buildGameDoc_shape row k v' Hv' Hr).
  - pose proof Hrow as H. rewrite decodeRow_cases in H.
    destruct (has_name row) eqn:Hn; [|discriminate].
    destruct (has_id row) eqn:Hi; [|discriminate]. simpl in H.
    injection H as <-. rewrite cleanUp_lookup, buildGameDoc_id. simpl.
    unfold has_id in Hi. simpl in Hi.
    apply negb_true_iff, orb_false_iff in Hi as [Hz Hnan].
    exists (parseInt (cell_text row "id")). rewrite Hnan. auto.
  - exact (decoded_name_string row gameDoc Hrow).
  - pose proof Hrow as H. rewrite decodeRow_cases in H.
    destruct (has_name row && has_id row); [|discriminate].
    injection H as <-. rewrite cleanUp_lookup. eexists. reflexivity.
  - intros k. exact (decoded_fields row gameDoc k Hrow).
Qed.

Lemma decoded_record_well_formed_witness :
  let row := Sample.row "7" "Bee" "x" in
  let gameDoc : Doc := default ∅ (decodeRow row) in
  decodeRow row = Some gameDoc
  /\ (forall k v, gameDoc !! k = Some v ->
       (exists x, v = VNum x /\ PrimFloat.is_nan x = false)
       \/ (exists s, v = VStr s) \/ (exists b, v = VBool b))
  /\ (exists x, gameDoc !! "id" = Some (VNum x)
               /\ PrimFloat.is_nan x = false /\ PrimFloat.is_zero x = false)
  /\ (exists s, gameDoc !! "name" = Some (VStr s) /\ s <> "")
  /\ (exists b, gameDoc !! "is_expansion" = Some (VBool b))
  /\ (forall k, is_Some (gameDoc !! k) -> In k ("id" :: fieldsToCompare)).
Proof.
  intros row gameDoc.
  assert (Hrow : decodeRow row = Some gameDoc) by reflexivity.
  split; [exact Hrow|].
  exact (decoded_record_well_formed row gameDoc Hrow).
Defined.

(** X2.  The ['data'] handler over a whole file: [allRecords] is the
    records the rows yield, in the order of the rows, and [checked] counts
    every row, the dropped ones included. *)
Theorem collect_in_file_order (rows : list Row) :
  collect rows = (omap decodeRow rows, length rows)
  /\ (length (omap decodeRow rows) <= length rows)%nat.
Proof.
  split.
  - unfold collect. rewrite SortFacts.collect_fold. reflexivity.
  - induction rows as [|row rows IH]; simpl; [lia|].
    change (list_omap _ _ decodeRow rows) with (omap decodeRow rows).
    destruct (decodeRow row); simpl; lia.
Qed.

End DecoderMore.

(* ===================================================================== *)
(** ** More on the differ and the snapshot                                 *)
(* ===================================================================== *)

Module DifferMore.
Import FloatFacts DifferFacts UpsertFacts.

(** A number, a string or a boolean does not differ from itself; this
    holds for [NaN] too, through the test on two [NaN]s. *)
Lemma fieldChanged_same (v : JsVal) :
  (exists x, v = VNum x) \/ (exists s, v = VStr s) \/ (exists b, v = VBool b)
  \/ v = VUndefined ->
  fieldChanged v v = false.
Proof.
  intros [[x ->] | [[s ->] | [[b ->] | ->]]]; unfold fieldChanged; simpl.
  - destruct (PrimFloat.eqb x x) eqn:E; simpl; [reflexivity|].
    unfold PrimFloat.is_nan. rewrite E. reflexivity.
  - rewrite String.eqb_refl. reflexivity.
  - destruct b; reflexivity.
  - reflexivity.
Qed.

Lemma decoded_prop_shape (row : Row) (gameDoc : Doc) (k : string) :
  decodeRow row = Some gameDoc ->
  (exists x, prop gameDoc k = VNum x) \/ (exists s, prop gameDoc k = VStr s)
  \/ (exists b, prop gameDoc k = VBool b) \/ prop gameDoc k = VUndefined.
Proof.
  intros Hrow. unfold prop.
  destruct (gameDoc !! k) as [v|] eqn:E; simpl; [|auto].
  destruct (DecoderMore.buildGameDoc_shape row k v) as [(x & -> & _)|[[s ->]|[b ->]]];
    eauto 6.
  - rewrite DecoderFacts.decodeRow_cases in Hrow.
    destruct (has_name row && has_id row); [|discriminate].
    injection Hrow as <-. rewrite DecoderFacts.cleanUp_lookup in E.
    apply bind_Some in E as (v' & Hv' & Hkeep).
    destruct (removable v'); [discriminate|]. injection Hkeep as <-.
    exact Hv'.
  - rewrite DecoderFacts.decodeRow_cases in Hrow.
    destruct (has_name row && has_id row); [|discriminate].
    injection Hrow as <-. rewrite DecoderFacts.cleanUp_lookup in E.
    apply bind_Some in E as (v' & Hv' & Hkeep).
    destruct (removable v') eqn:Hr; [discriminate|]. injection Hkeep as <-.
    exact Hr.
Qed.

Lemma unchanged_when_fields_agree (row : Row) (gameDoc existingGame : Doc) :
  decodeRow row = Some gameDoc ->
  (forall field, In field fieldsToCompare ->
     prop existingGame field = prop gameDoc field) ->
  hasGameDataChanged gameDoc existingGame = false.
Proof.
  intros Hrow Hsame. apply not_true_is_false. intros H.
  apply hasGameDataChanged_iff in H as (f & Hin & Hf).
  rewrite (Hsame f Hin) in Hf.
  rewrite fieldChanged_same in Hf; [discriminate|].
  exact (decoded_prop_shape row gameDoc f Hrow).
Qed.

(** X3.  A decoded record is Unchanged against any stored document that
    agrees with it on the eight compared fields, whatever else the stored
    document holds ([_id], [id], the two timestamps): in particular
    against itself. *)
Theorem unchanged_against_equal_fields
    (row : Row) (gameDoc existingGame : Doc) :
  decodeRow row = Some gameDoc ->
  (forall field, In field fieldsToCompare ->
     prop existingGame field = prop gameDoc field) ->
  hasGameDataChanged gameDoc existingGame = false.
Proof. exact (unchanged_when_fields_agree row gameDoc existingGame). Qed.

Lemma unchanged_against_equal_fields_witness :
  let row := Sample.row "1" "Ant" "5" in
  let gameDoc : Doc := default ∅ (decodeRow row) in
  let existingGame := Sample.stored 1 1 "Ant" 5 in
  decodeRow row = Some gameDoc
  /\ (forall field, In field fieldsToCompare ->
        prop existingGame field = prop gameDoc field)
  /\ hasGameDataChanged gameDoc existingGame = false.
Proof.
  intros row gameDoc existingGame.
  assert (Hrow : decodeRow row = Some gameDoc) by reflexivity.
  assert (Hsame : forall field, In field fieldsToCompare ->
            prop existingGame field = prop gameDoc field).
  { intros field Hin. simpl in Hin.
    repeat (destruct Hin as [<-|Hin]; [reflexivity|]). contradiction. }
  split; [exact Hrow|]. split; [exact Hsame|].
  exact (unchanged_against_equal_fields row gameDoc existingGame Hrow Hsame).
Defined.

(** *** The snapshot keeps the last document of each [id] *)

Lemma eqb_sym (x y : float) : PrimFloat.eqb x y = PrimFloat.eqb y x.
Proof.
  rewrite !FloatAxioms.eqb_spec. unfold SFeqb.
  destruct (SFcompare (Prim2SF x) (Prim2SF y)) as [c|] eqn:E.
  - rewrite (SFcompare_antisym _ _ _ E). destruct c; reflexivity.
  - destruct (SFcompare (Prim2SF y) (Prim2SF x)) as [c'|] eqn:E';
      [|reflexivity].
    rewrite (SFcompare_antisym _ _ _ E') in E. discriminate.
Qed.

Lemma same_value_zero_sym (a b : JsVal) :
  same_value_zero a b = same_value_zero b a.
Proof.
  unfold same_value_zero.
  destruct a as [| |x|x|x|x|x], b as [| |y|y|y|y|y]; simpl; try reflexivity.
  - destruct x, y; reflexivity.
  - rewrite (eqb_sym x y), (andb_comm (PrimFloat.is_nan x)). reflexivity.
  - rewrite String.eqb_sym. reflexivity.
Qed.

Lemma map_get_set (m : GamesMap) (k' k : JsVal) (v : Doc) :
  map_get (map_set m k' v) k
  = if same_value_zero k' k then Some v else map_get m k.
Proof.
  induction m as [|[k0 v0] m IH]; simpl.
  - reflexivity.
  - destruct (same_value_zero k0 k') eqn:E0; simpl.
    + destruct (same_value_zero k0 k) eqn:E1.
      * rewrite same_value_zero_sym in E0.
        rewrite (same_value_zero_trans _ _ _ E0 E1). reflexivity.
      * destruct (same_value_zero k' k) eqn:E2; [|reflexivity].
        rewrite (same_value_zero_trans _ _ _ E0 E2) in E1. discriminate.
    + destruct (same_value_zero k0 k) eqn:E1.
      * destruct (same_value_zero k' k) eqn:E2; [|reflexivity].
        rewrite same_value_zero_sym in E2.
        rewrite (same_value_zero_trans _ _ _ E1 E2) in E0. discriminate.
      * exact IH.
Qed.

Lemma find_app_first {A} (f : A -> bool) (l1 l2 : list A) :
  List.find f (l1 ++ l2)
  = match List.find f l1 with Some x => Some x | None => List.find f l2 end.
Proof.
  induction l1 as [|x l1 IH]; simpl; [reflexivity|].
  destruct (f x); [reflexivity|exact IH].
Qed.

Lemma snapshot_fold_get (docs : list Doc) (m : GamesMap) (k : JsVal) :
  map_get (fold_left (fun m game => map_set m (prop game "id") game) docs m) k
  = match List.find (matches_id k) (rev docs) with
    | Some d => Some d
    | None => map_get m k
    end.
Proof.
  revert m. induction docs as [|d docs IH]; intros m; simpl; [reflexivity|].
  rewrite IH, find_app_first. destruct (List.find (matches_id k) (rev docs));
    [reflexivity|]. simpl. rewrite map_get_set. unfold matches_id.
  destruct (same_value_zero (prop d "id") k); reflexivity.
Qed.

(** X4.  The entry of an [id] in the snapshot is the last stored document
    with that [id] (each [set] replaces the one before), while [updateOne]
    updates the first: when two stored documents share an [id], the differ
    compares a record with one document and the upsert changes another. *)
Theorem snapshot_takes_last (docs : list Doc) (k : JsVal) (set : Doc) :
  map_get (snapshot docs) k = List.find (matches_id k) (rev docs)
  /\ update_first k set docs
     = match List.find (matches_id k) docs with
       | Some d0 =>
           Some (take_while (fun d => negb (matches_id k d)) docs
                 ++ (set ∪ d0)
                 :: List.tl (drop_while (fun d => negb (matches_id k d)) docs))
       | None => None
       end.
Proof.
  split.
  - unfold snapshot. rewrite snapshot_fold_get.
    destruct (List.find _ _); reflexivity.
  - induction docs as [|d docs IH]; simpl; [reflexivity|].
    destruct (matches_id k d) eqn:E; simpl; [reflexivity|].
    rewrite IH. destruct (List.find (matches_id k) docs); reflexivity.
Qed.

(** Two stored documents with the same [id]: the record is compared with
    the second and the upsert rewrites the first. *)
Example duplicate_ids_in_store :
  let docs := [Sample.stored 1 1 "Ant" 5; Sample.stored 2 1 "Ant" 3] in
  let gameDoc : Doc := default ∅ (decodeRow (Sample.row "1" "Ant" "5")) in
  classify (snapshot docs) gameDoc = Changed
  /\ (fun d : Doc => (d !! "_id", d !! "rank"))
       <$> (apply_updateOne (docs, 100%nat)
              (gameOp (VDate 1700000000000) gameDoc)).1
     = [ (Some (VOid 1), Some (VNum 5%float));
         (Some (VOid 2), Some (VNum 3%float)) ].
Proof. vm_compute. auto. Qed.

End DifferMore.

(* ===================================================================== *)
(** ** A record against the document its own upsert leaves                 *)
(* ===================================================================== *)

Module UpsertMore.
Import DifferFacts DifferMore UpsertFacts.

Lemma compared_field_is_data (f : string) :
  In f fieldsToCompare ->
  f <> "_id" /\ f <> "id" /\ f <> "date_created" /\ f <> "date_updated".
Proof.
  simpl. intros H.
  repeat (destruct H as [<-|H]; [repeat split; discriminate|]).
  contradiction.
Qed.

Lemma upserted_game_field (oid : nat) (ts : JsVal) (gameDoc : Doc)
    (f : string) :
  In f fieldsToCompare ->
  upserted oid (gameOp ts gameDoc) !! f = gameDoc !! f.
Proof.
  intros Hin. destruct (compared_field_is_data f Hin) as (H1 & H2 & H3 & H4).
  unfold upserted, gameOp. simpl.
  rewrite lookup_insert_ne by congruence.
  rewrite lookup_union_r by (apply lookup_singleton_ne; congruence).
  destruct (gameDoc !! f) as [v|] eqn:E.
  - apply lookup_union_Some_l. rewrite lookup_insert_ne by congruence.
    exact E.
  - rewrite lookup_union_r by (rewrite lookup_insert_ne by congruence; exact E).
    apply lookup_singleton_ne. congruence.
Qed.

Lemma updated_game_field (ts : JsVal) (gameDoc d0 : Doc) (f : string) :
  In f fieldsToCompare ->
  prop (op_set (gameOp ts gameDoc) ∪ d0) f
  = match gameDoc !! f with Some v => v | None => prop d0 f end.
Proof.
  intros Hin. destruct (compared_field_is_data f Hin) as (H1 & H2 & H3 & H4).
  unfold prop, gameOp. simpl.
  destruct (gameDoc !! f) as [v|] eqn:E.
  - erewrite lookup_union_Some_l; [reflexivity|].
    rewrite lookup_insert_ne by congruence. exact E.
  - rewrite lookup_union_r; [reflexivity|].
    rewrite lookup_insert_ne by congruence. exact E.
Qed.

Lemma fieldChanged_absent (v : JsVal) :
  fieldChanged VUndefined v = true <-> v <> VUndefined.
Proof.
  destruct v; unfold fieldChanged; simpl; split; intros H;
    try reflexivity; try discriminate; try congruence.
Qed.

(** X5.  Writing a record and comparing it again.  After the upsert of a
    New record, the record is Unchanged against the document the upsert
    inserted.  After the upsert of a record whose [id] is stored, the
    record is still Changed against the updated document exactly when some
    compared field is absent from the record and present in the stored
    document: [$set] never removes a field, so such a record is written
    again on every run. *)
Theorem record_against_its_upsert
    (ts : JsVal) (row : Row) (gameDoc : Doc) (docs : list Doc) (oid : nat) :
  decodeRow row = Some gameDoc ->
  (no_match (prop gameDoc "id") docs ->
   exists d,
     apply_updateOne (docs, oid) (gameOp ts gameDoc) = (docs ++ [d], S oid)
     /\ hasGameDataChanged gameDoc d = false)
  /\ (forall pre d0 post,
        first_match (prop gameDoc "id") docs pre d0 post ->
        exists d1,
          apply_updateOne (docs, oid) (gameOp ts gameDoc)
          = (pre ++ d1 :: post, oid)
          /\ (hasGameDataChanged gameDoc d1 = true <->
              exists field, In field fieldsToCompare
                /\ gameDoc !! field = None
                /\ prop d0 field <> VUndefined)).
Proof.
  intros Hrow. split.
  - intros Hno. exists (upserted oid (gameOp ts gameDoc)).
    unfold apply_updateOne. simpl filter_id. simpl op_set.
    rewrite (update_first_None _ _ _ Hno). split; [reflexivity|].
    apply (unchanged_when_fields_agree row _ _ Hrow).
    intros f Hin. unfold prop at 1 2.
    rewrite (upserted_game_field oid ts gameDoc f Hin). reflexivity.
  - intros pre d0 post Hfirst.
    exists (op_set (gameOp ts gameDoc) ∪ d0).
    unfold apply_updateOne. simpl filter_id.
    rewrite (update_first_Some _ (op_set (gameOp ts gameDoc)) _ _ _ _ Hfirst).
    split; [reflexivity|].
    rewrite hasGameDataChanged_iff. split.
    + intros (f & Hin & Hf). exists f. split; [exact Hin|].
      rewrite (updated_game_field ts gameDoc d0 f Hin) in Hf.
      destruct (gameDoc !! f) as [v|] eqn:E.
      * exfalso. unfold prop in Hf at 1. rewrite E in Hf. simpl in Hf.
        rewrite fieldChanged_same in Hf; [discriminate|].
        pose proof (decoded_prop_shape row gameDoc f Hrow) as Hs.
        unfold prop in Hs. rewrite E in Hs. exact Hs.
      * split; [reflexivity|]. unfold prop in Hf at 1. rewrite E in Hf.
        simpl in Hf. apply fieldChanged_absent. exact Hf.
    + intros (f & Hin & Hnone & Hd0). exists f. split; [exact Hin|].
      rewrite (updated_game_field ts gameDoc d0 f Hin), Hnone.
      unfold prop at 1. rewrite Hnone. simpl.
      apply fieldChanged_absent. exact Hd0.
Qed.

Lemma record_against_its_upsert_witness :
  let ts := VDate 1700000000000 in
  let row := Sample.row "1" "Ant" "" in
  let gameDoc : Doc := default ∅ (decodeRow row) in
  let docs := [Sample.stored 1 1 "Ant" 5] in
  let oid := 100%nat in
  decodeRow row = Some gameDoc
  /\ (no_match (prop gameDoc "id") docs ->
      exists d,
        apply_updateOne (docs, oid) (gameOp ts gameDoc) = (docs ++ [d], S oid)
        /\ hasGameDataChanged gameDoc d = false)
  /\ (forall pre d0 post,
        first_match (prop gameDoc "id") docs pre d0 post ->
        exists d1,
          apply_updateOne (docs, oid) (gameOp ts gameDoc)
          = (pre ++ d1 :: post, oid)
          /\ (hasGameDataChanged gameDoc d1 = true <->
              exists field, In field fieldsToCompare
                /\ gameDoc !! field = None
                /\ prop d0 field <> VUndefined)).
Proof.
  intros ts row gameDoc docs oid.
  assert (Hrow : decodeRow row = Some gameDoc) by reflexivity.
  split; [exact Hrow|].
  exact (record_against_its_upsert ts row gameDoc docs oid Hrow).
Defined.

(** A rank that disappears from the file: the stored rank stays, and the
    record is Changed again on the next run, and on every run after. *)
Example vanished_rank_never_settles :
  let w := Sample.world [Sample.row "1" "Ant" ""]
             [Sample.stored 1 1 "Ant" 5] [] [] in
  let r1 := processCsvFile Sample.env Sample.path w in
  let r2 := processCsvFile Sample.env Sample.path r1.2 in
  r1.1 = Resolved (list_to_map [ ("totalProcessed", js_nat 1);
                                 ("newGamesCount", js_nat 0);
                                 ("updatedGamesCount", js_nat 1) ])
  /\ r2.1 = r1.1
  /\ (fun d : Doc => d !! "rank") <$> docs_of r2.2 "board_games"
     = [ Some (VNum 5%float) ].
Proof. vm_compute. auto. Qed.

End UpsertMore.

(* ===================================================================== *)
(** ** What a run records: a small logic of traces                         *)
(* ===================================================================== *)

Module TraceFacts.
Import Database RunFacts.

Lemma trace_grows_refl (P : Event -> Prop) (w : World) : trace_grows P w w.
Proof. exists []. rewrite app_nil_r. split; [reflexivity|constructor]. Qed.

Lemma trace_grows_trans (P : Event -> Prop) (w1 w2 w3 : World) :
  trace_grows P w1 w2 -> trace_grows P w2 w3 -> trace_grows P w1 w3.
Proof.
  intros (e1 & H1 & F1) (e2 & H2 & F2). exists (e1 ++ e2).
  rewrite H2, H1, app_assoc. split; [reflexivity|].
  apply Forall_app. split; assumption.
Qed.

Lemma trace_grows_same (P : Event -> Prop) (w w' : World) :
  trace w' = trace w -> trace_grows P w w'.
Proof.
  intros H. exists []. rewrite app_nil_r. split; [exact H|constructor].
Qed.

Lemma trace_grows_event (P : Event -> Prop) (e : Event) (w w' : World) :
  P e -> trace w' = trace w ++ [e] -> trace_grows P w w'.
Proof. intros He H. exists [e]. split; [exact H|repeat constructor; exact He]. Qed.

Lemma emits_impl {A} (P Q : Event -> Prop) (m : M A) :
  (forall e, P e -> Q e) -> emits P m -> emits Q m.
Proof.
  intros HPQ Hm w r w' E. destruct (Hm w r w' E) as (evs & H & F).
  exists evs. split; [exact H|]. eapply Forall_impl; [exact F|exact HPQ].
Qed.

Lemma emits_ret {A} (P : Event -> Prop) (a : A) : emits P (mret a).
Proof. intros w r w' [= <- <-]. apply trace_grows_refl. Qed.

Lemma emits_throw {A} (P : Event -> Prop) (e : Exn) : emits P (@throw A e).
Proof. intros w r w' [= <- <-]. apply trace_grows_refl. Qed.

Lemma emits_bind {A B} (P : Event -> Prop) (m : M A) (k : A -> M B) :
  emits P m -> (forall a, emits P (k a)) -> emits P (m ≫= k).
Proof.
  intros Hm Hk w r w' E. unfold mbind, M_bind in E.
  destruct (m w) as [[a|e] w1] eqn:Em.
  - eapply trace_grows_trans; [exact (Hm _ _ _ Em)|exact (Hk a _ _ _ E)].
  - injection E as <- <-. exact (Hm _ _ _ Em).
Qed.

Lemma emits_try_catch {A} (P : Event -> Prop) (m : M A) (h : Exn -> M A) :
  emits P m -> (forall e, emits P (h e)) -> emits P (try_catch m h).
Proof.
  intros Hm Hh w r w' E. unfold try_catch in E.
  destruct (m w) as [[a|e] w1] eqn:Em.
  - injection E as <- <-. exact (Hm _ _ _ Em).
  - eapply trace_grows_trans; [exact (Hm _ _ _ Em)|exact (Hh e _ _ _ E)].
Qed.

Lemma emits_get_world (P : Event -> Prop) : emits P get_world.
Proof. intros w r w' [= <- <-]. apply trace_grows_refl. Qed.

Lemma emits_modify (P : Event -> Prop) (f : World -> World) :
  (forall w, trace (f w) = trace w) -> emits P (modify f).
Proof. intros Hf w r w' [= <- <-]. apply trace_grows_same, Hf. Qed.

Lemma emits_now (P : Event -> Prop) : emits P now.
Proof. intros w r w' [= <- <-]. apply trace_grows_same. reflexivity. Qed.

Lemma emits_emit (P : Event -> Prop) (e : Event) : P e -> emits P (emit e).
Proof.
  intros He w r w' [= <- <-]. apply (trace_grows_event P e); [exact He|].
  reflexivity.
Qed.

Lemma emits_call (P : Event -> Prop) (e : Event) : P e -> emits P (call e).
Proof.
  intros He w r w' E. apply (trace_grows_event P e); [exact He|].
  unfold call in E. destruct (head (faults w)) as [[f|]|];
    injection E as <- <-; try reflexivity.
  destruct (fault_disconnects f); reflexivity.
Qed.

Lemma emits_simple_call (P : Event -> Prop) (e : Event) :
  P e -> emits P (simple_call e).
Proof.
  intros He. unfold simple_call. apply emits_bind; [apply emits_call, He|].
  intros [f|]; [apply emits_throw|apply emits_ret].
Qed.

Lemma emits_console_error (P : Event -> Prop) (text : string) :
  P (EvConsoleError text) -> emits P (console_error text).
Proof. apply emits_emit. Qed.

(** *** The connection layer *)

Lemma emits_isConnected (P : Event -> Prop) : emits P isConnected.
Proof.
  unfold isConnected. apply emits_bind; [apply emits_get_world|].
  intros w. apply emits_ret.
Qed.

Lemma emits_connect : emits connection_event connect.
Proof.
  unfold connect. apply emits_try_catch.
  - apply emits_bind; [apply emits_isConnected|]. intros [|].
    + apply emits_ret.
    + apply emits_bind; [apply emits_simple_call; exact I|].
      intros _. apply emits_modify. reflexivity.
  - intros e. apply emits_bind; [apply emits_console_error; exact I|].
    intros _. apply emits_throw.
Qed.

Lemma emits_getDb (P : Event -> Prop) : emits P getDb.
Proof.
  unfold getDb. apply emits_bind; [apply emits_get_world|].
  intros w. destruct (db_open w); [apply emits_ret|apply emits_throw].
Qed.

Lemma emits_getCollection (P : Event -> Prop) (name : string) :
  emits P (getCollection name).
Proof.
  unfold getCollection. apply emits_bind; [apply emits_getDb|].
  intros _. apply emits_ret.
Qed.

Lemma emits_ping : emits connection_event ping.
Proof.
  unfold ping. apply emits_bind; [apply emits_get_world|].
  intros w. destruct (db_open w);
    [apply emits_simple_call; exact I|apply emits_throw].
Qed.

Lemma emits_ensureConnection : emits connection_event ensureConnection.
Proof.
  unfold ensureConnection. apply emits_try_catch.
  - apply emits_bind; [apply emits_isConnected|]. intros c.
    apply emits_bind; [|intros _; apply emits_ping].
    destruct (negb c); [apply emits_connect|apply emits_ret].
  - intros _. apply emits_connect.
Qed.

(** *** The calls on collections *)

Lemma emits_run_batch {A} (P : Event -> Prop)
    (step : list Doc * nat -> A -> list Doc * nat)
    (e : Event) (name : string) (items : list A) :
  P e -> emits P (run_batch step e name items).
Proof.
  intros He. unfold run_batch. apply emits_bind; [apply emits_call, He|].
  intros f. apply emits_bind.
  - apply emits_modify. intros w.
    destruct (fold_left step _ _) as [docs oid]. reflexivity.
  - intros _. destruct f; [apply emits_throw|apply emits_ret].
Qed.

Lemma emits_find (P : Event -> Prop) (name : string) :
  P (EvFind name) -> emits P (find name).
Proof.
  intros He. unfold find. apply emits_bind; [apply emits_simple_call, He|].
  intros _. apply emits_bind; [apply emits_get_world|].
  intros w. apply emits_ret.
Qed.

Lemma emits_deleteMany (P : Event -> Prop) (name : string) :
  P (EvDeleteMany name) -> emits P (deleteMany name).
Proof.
  intros He. unfold deleteMany.
  apply emits_bind; [apply emits_simple_call, He|].
  intros _. apply emits_modify. reflexivity.
Qed.

Lemma emits_drop (P : Event -> Prop) (name : string) :
  P (EvDrop name) -> emits P (drop name).
Proof.
  intros He. unfold drop.
  apply emits_bind; [apply emits_simple_call, He|].
  intros _. apply emits_modify. reflexivity.
Qed.

Lemma emits_sortByName (P : Event -> Prop) (env : Env)
    (key : Doc -> option string) (docs : list Doc) :
  emits P (sortByName env key docs).
Proof.
  unfold sortByName. destruct (_ && _); [apply emits_throw|apply emits_ret].
Qed.

Lemma connection_event_bounded (n : nat) (e : Event) :
  connection_event e -> batch_bounded n e.
Proof. destruct e; simpl; tauto. Qed.

(** *** The slices of the reindexer *)

Lemma slices_bounded (fuel batchSize : nat) (docs : list Doc) :
  Forall (fun batch => (0 < length batch <= S batchSize)%nat)
         (slices fuel (S batchSize) docs).
Proof.
  revert docs. induction fuel as [|fuel IH]; intros [|d docs].
  - constructor.
  - constructor.
  - constructor.
  - change (slices (S fuel) (S batchSize) (d :: docs))
      with (firstn (S batchSize) (d :: docs)
            :: slices fuel (S batchSize) (skipn (S batchSize) (d :: docs))).
    constructor; [|apply IH].
    rewrite length_firstn. simpl. lia.
Qed.

Lemma emits_insertSlices (n : nat) (collection : string)
    (batches : list (list Doc)) :
  Forall (fun batch => (0 < length batch <= 1000)%nat) batches ->
  emits (batch_bounded n) (insertSlices collection batches).
Proof.
  induction 1 as [|batch batches Hb _ IH]; simpl.
  - apply emits_ret.
  - apply emits_bind; [|intros _; exact IH].
    apply emits_run_batch. simpl. rewrite length_fmap. exact Hb.
Qed.

Lemma emits_insertInBatches (n : nat) (collection : string)
    (docs : list Doc) :
  emits (batch_bounded n) (insertInBatches collection docs).
Proof.
  unfold insertInBatches. apply emits_insertSlices.
  apply (slices_bounded (length docs) 999 docs).
Qed.

Lemma emits_resortCollection (n : nat) (env : Env)
    (collection collectionName : string) :
  emits (batch_bounded n) (resortCollection env collection collectionName).
Proof.
  unfold resortCollection. apply emits_try_catch.
  - unfold resortSteps. apply emits_bind; [apply emits_find; exact I|].
    intros allDocs. destruct (length allDocs =? 0)%nat; [apply emits_ret|].
    apply emits_bind; [apply emits_sortByName|]. intros sorted.
    apply emits_bind; [apply emits_now|]. intros t.
    apply emits_bind; [apply emits_getCollection|]. intros temp.
    apply emits_bind; [apply emits_insertInBatches|]. intros _.
    apply emits_bind; [apply emits_deleteMany; exact I|]. intros _.
    apply emits_bind; [apply emits_find; exact I|]. intros sortedDocs.
    apply emits_bind; [apply emits_insertInBatches|]. intros _.
    apply emits_bind; [apply emits_getDb|]. intros _.
    apply emits_drop. exact I.
  - intros e. apply emits_console_error. exact I.
Qed.

(** *** The batch writer *)

Lemma emits_bulkWrite (n : nat) (name : string) (ops : list UpdateOne) :
  (0 < length ops <= n)%nat ->
  emits (batch_bounded n) (bulkWrite name ops).
Proof. intros H. apply emits_run_batch. exact H. Qed.

Lemma emits_writeBatches (n : nat) (g s : string) (b : Batches) :
  (0 < length (gamesBatch b) <= n)%nat ->
  length (searchBatch b) = length (gamesBatch b) ->
  emits (batch_bounded n) (writeBatches g s b).
Proof.
  intros Hg Hs. unfold writeBatches.
  apply emits_bind.
  { eapply emits_impl; [apply connection_event_bounded|].
    apply emits_ensureConnection. }
  intros _. apply emits_bind; [apply emits_bulkWrite, Hg|].
  intros _. apply emits_bind; [apply emits_bulkWrite; rewrite Hs; exact Hg|].
  intros _. apply emits_ret.
Qed.

Lemma emits_flushFull (n : nat) (g s : string) (b : Batches) :
  (0 < length (gamesBatch b) <= n)%nat ->
  length (searchBatch b) = length (gamesBatch b) ->
  emits (batch_bounded n) (flushFull g s b).
Proof.
  intros Hg Hs. unfold flushFull.
  apply emits_try_catch; [apply emits_writeBatches; assumption|].
  intros e. apply emits_bind; [apply emits_console_error; exact I|].
  intros _. apply emits_try_catch; [apply emits_writeBatches; assumption|].
  intros e'. apply emits_bind; [apply emits_console_error; exact I|].
  intros _. apply emits_throw.
Qed.

Lemma writeBatches_empties (g s : string) (b b' : Batches) (w w' : World) :
  writeBatches g s b w = (Ok b', w') ->
  gamesBatch b' = [] /\ searchBatch b' = [].
Proof.
  unfold writeBatches. unfold_monad.
  destruct (ensureConnection w) as [[[]|x] w1]; simpl; [|discriminate].
  destruct (bulkWrite g (gamesBatch b) w1) as [[[]|x] w2]; simpl;
    [|discriminate].
  destruct (bulkWrite s (searchBatch b) w2) as [[[]|x] w3]; simpl;
    [|discriminate].
  intros [= <- <-]. simpl. auto.
Qed.

Lemma flushFull_empties (g s : string) (b b' : Batches) (w w' : World) :
  flushFull g s b w = (Ok b', w') ->
  gamesBatch b' = [] /\ searchBatch b' = [].
Proof.
  rewrite flushFull_retries_once.
  destruct (writeBatches g s b w) as [[b1|e] w1] eqn:E1.
  - intros [= <- <-]. exact (writeBatches_empties _ _ _ _ _ _ E1).
  - simpl.
    match goal with |- context [writeBatches g s b ?w2] =>
      destruct (writeBatches g s b w2) as [[b2|e2] w3] eqn:E2; simpl;
        [|discriminate]
    end.
    intros [= <- <-]. exact (writeBatches_empties _ _ _ _ _ _ E2).
Qed.

Lemma writeLoop_bounded (g s : string) (n : nat) (m : GamesMap) (ts : JsVal)
    (l : list Doc) (b : Batches) (w w' : World) (r : Res Batches) :
  length (searchBatch b) = length (gamesBatch b) ->
  (length (gamesBatch b) < n)%nat ->
  writeLoop g s n m ts l b w = (r, w') ->
  trace_grows (batch_bounded n) w w'
  /\ forall b', r = Ok b' ->
       length (searchBatch b') = length (gamesBatch b')
       /\ (length (gamesBatch b') < n)%nat.
Proof.
  revert b w. induction l as [|d l IH]; intros b w Hs Hg; simpl.
  - unfold_monad. intros [= <- <-]. split; [apply trace_grows_refl|].
    intros b' [= <-]. auto.
  - unfold_monad.
    set (b1 := mkBatches (gamesBatch b ++ [gameOp ts d])
                         (searchBatch b ++ [searchOp ts d])
                         (totalProcessed b)).
    assert (Hs1 : length (searchBatch b1) = length (gamesBatch b1))
      by (simpl; rewrite !length_app, Hs; reflexivity).
    assert (Hg1 : (0 < length (gamesBatch b1) <= n)%nat)
      by (simpl; rewrite length_app; simpl; lia).
    destruct (n <=? length (gamesBatch b ++ [gameOp ts d]))%nat eqn:Efull;
      change (gamesBatch b ++ [gameOp ts d]) with (gamesBatch b1) in Efull.
    + destruct (flushFull g s b1 w) as [[b2|e] w2] eqn:Ef.
      * destruct (flushFull_empties _ _ _ _ _ _ Ef) as [Hg2 Hs2].
        intros H. apply IH in H; [|rewrite Hg2, Hs2; reflexivity
                                   |rewrite Hg2; simpl; lia].
        destruct H as [Ht Hb]. split; [|exact Hb].
        eapply trace_grows_trans; [|exact Ht].
        exact (emits_flushFull n g s b1 Hg1 Hs1 _ _ _ Ef).
      * intros [= <- <-]. split; [|intros b' Hb'; discriminate].
        exact (emits_flushFull n g s b1 Hg1 Hs1 _ _ _ Ef).
    + apply Nat.leb_gt in Efull. intros H.
      apply IH in H; [exact H|exact Hs1|exact Efull].
Qed.

Lemma emits_flushRest (n : nat) (g s : string) (b : Batches) :
  length (searchBatch b) = length (gamesBatch b) ->
  (length (gamesBatch b) < n)%nat ->
  emits (batch_bounded n) (flushRest g s b).
Proof.
  intros Hs Hg. unfold flushRest.
  destruct (0 <? length (gamesBatch b))%nat eqn:E; [|apply emits_ret].
  apply Nat.ltb_lt in E.
  apply emits_bind.
  { eapply emits_impl; [apply connection_event_bounded|].
    apply emits_ensureConnection. }
  intros _. apply emits_bind; [apply emits_bulkWrite; lia|].
  intros _. apply emits_bind; [apply emits_bulkWrite; lia|].
  intros _. apply emits_ret.
Qed.

Lemma batchSizeOf_values (env : Env) :
  batchSizeOf env = 500%nat \/ batchSizeOf env = 1000%nat.
Proof. unfold batchSizeOf. destruct (_ || _); auto. Qed.

Lemma emits_onEnd (env : Env) (g s : string) (n : nat)
    (allRecords : list Doc) :
  (0 < n)%nat -> emits (batch_bounded n) (onEnd env g s n allRecords).
Proof.
  intros Hn w r w' E. unfold onEnd in E. unfold mbind, M_bind in E.
  destruct (find g w) as [[existing|e] w1] eqn:Ef.
  2:{ injection E as <- <-. exact (emits_find _ g I _ _ _ Ef). }
  pose proof (emits_find (batch_bounded n) g I _ _ _ Ef) as T1.
  eapply trace_grows_trans; [exact T1|]. clear T1 Ef.
  destruct (negb _).
  { injection E as <- <-. apply trace_grows_refl. }
  destruct (sortByName env name_strict _ w1) as [[sorted|e] w2] eqn:Es.
  2:{ injection E as <- <-. exact (emits_sortByName _ _ _ _ _ _ _ Es). }
  eapply trace_grows_trans; [exact (emits_sortByName _ _ _ _ _ _ _ Es)|].
  clear Es.
  destruct (now w2) as [[t|e] w3] eqn:En.
  2:{ injection E as <- <-. exact (emits_now _ _ _ _ En). }
  eapply trace_grows_trans; [exact (emits_now _ _ _ _ En)|]. clear En.
  destruct (writeLoop g s n _ (VDate t) sorted (mkBatches [] [] 0) w3)
    as [[b|e] w4] eqn:El.
  2:{ injection E as <- <-.
      exact (proj1 (writeLoop_bounded g s n _ _ _ (mkBatches [] [] 0) _ _ _
                      eq_refl Hn El)). }
  destruct (writeLoop_bounded g s n _ _ _ (mkBatches [] [] 0) _ _ _
              eq_refl Hn El) as [T4 Hb]. destruct (Hb b eq_refl) as [Hs Hg].
  eapply trace_grows_trans; [exact T4|]. clear T4 El Hb.
  destruct (flushRest g s b w4) as [[total|e] w5] eqn:Er.
  2:{ injection E as <- <-. exact (emits_flushRest n g s b Hs Hg _ _ _ Er). }
  eapply trace_grows_trans; [exact (emits_flushRest n g s b Hs Hg _ _ _ Er)|].
  clear Er.
  destruct (resortCollection env g "board_games" w5) as [[[]|e] w6] eqn:E1.
  2:{ injection E as <- <-. exact (emits_resortCollection n _ _ _ _ _ _ E1). }
  eapply trace_grows_trans; [exact (emits_resortCollection n _ _ _ _ _ _ E1)|].
  destruct (resortCollection env s "games_search" w6) as [[[]|e] w7] eqn:E2.
  2:{ injection E as <- <-. exact (emits_resortCollection n _ _ _ _ _ _ E2). }
  injection E as <- <-. exact (emits_resortCollection n _ _ _ _ _ _ E2).
Qed.

Lemma emits_prepare (P : Event -> Prop) (env : Env) :
  P EvCreateIndexes -> emits P (prepare env).
Proof.
  intros HP. unfold prepare, createIndexes.
  apply emits_bind; [apply emits_simple_call, HP|]. intros _.
  apply emits_bind; [apply emits_getCollection|]. intros g.
  apply emits_bind; [apply emits_getCollection|]. intros s.
  apply emits_ret.
Qed.

(** X6.  Whatever the store does, every [bulkWrite] of a run carries at
    least one and at most [batchSize] operations (500 on a local store,
    1000 otherwise), and every [insertMany] of the reindexer at least one
    and at most 1000 documents: no empty batch is ever sent. *)
Theorem run_batches_bounded (env : Env) (csvPath : string) (w : World) :
  (batchSizeOf env = 500%nat \/ batchSizeOf env = 1000%nat)
  /\ trace_grows (batch_bounded (batchSizeOf env)) w
       (processCsvFile env csvPath w).2.
Proof.
  split; [apply batchSizeOf_values|].
  assert (Hn : (0 < batchSizeOf env)%nat)
    by (destruct (batchSizeOf_values env) as [-> | ->]; lia).
  unfold processCsvFile.
  destruct (negb _); [apply trace_grows_refl|].
  destruct (prepare env w) as [[[[g s] n]|e] w1] eqn:Ep.
  2:{ exact (emits_prepare _ env I _ _ _ Ep). }
  assert (n = batchSizeOf env) as ->.
  { revert Ep. unfold prepare, createIndexes, getCollection, getDb.
    unfold_monad.
    destruct (simple_call EvCreateIndexes w) as [[[]|x] w0]; [|discriminate].
    destruct (db_open w0) eqn:Hd; simpl; [|discriminate].
    rewrite Hd. simpl. intros H. inversion H. reflexivity. }
  eapply trace_grows_trans; [exact (emits_prepare _ env I _ _ _ Ep)|].
  eapply trace_grows_trans.
  { apply (trace_grows_event _ (EvOpenFile csvPath) w1
             (add_event (EvOpenFile csvPath) w1)); [exact I|reflexivity]. }
  simpl. destruct (files w1 !! csvPath) as [rows|]; [|apply trace_grows_refl].
  destruct (collect rows) as [allRecords checked].
  destruct (onEnd env g s (batchSizeOf env) allRecords _)
    as [[r|e] w3] eqn:Eo; simpl;
    exact (emits_onEnd env g s _ allRecords Hn _ _ _ Eo).
Qed.

End TraceFacts.

(* ===================================================================== *)
(** ** The connection check, and runs on a healthy store                   *)
(* ===================================================================== *)

Module HealthFacts.
Import Database RunFacts TraceFacts.

Lemma connect_throws (w w' : World) (e : Exn) :
  connect w = (Throw e, w') ->
  connected w' = false
  /\ trace w' = trace w ++ [ EvConnect;
                            EvConsoleError ("Failed to connect to MongoDB: "
                                            +:+ message_of e) ].
Proof.
  unfold connect, isConnected, simple_call, call. unfold_monad.
  destruct (connected w) eqn:Hc; simpl; [discriminate|].
  destruct (head (faults w)) as [[f|]|]; simpl; try discriminate.
  intros [= <- <-].
  destruct (fault_disconnects f); simpl; rewrite <- app_assoc; auto.
Qed.

(** X7.  [ensureConnection] fails only when a reconnection fails: if it
    throws, the last call to the store was a [connect] that failed, its
    error is the one thrown, and the store is left disconnected.  A
    failure of the ping alone is never thrown. *)
Theorem ensureConnection_throws_only_on_reconnect
    (w w' : World) (e : Exn) :
  ensureConnection w = (Throw e, w') ->
  connected w' = false
  /\ exists t,
       trace w' = t ++ [ EvConnect;
                         EvConsoleError ("Failed to connect to MongoDB: "
                                         +:+ message_of e) ].
Proof.
  unfold ensureConnection, try_catch.
  destruct ((c ← isConnected; (if negb c then connect else mret ());; ping) w)
    as [[[]|e0] w1]; [discriminate|].
  intros H. apply connect_throws in H as [Hc Ht].
  split; [exact Hc|]. exists (trace w1). exact Ht.
Qed.

Lemma ensureConnection_throws_only_on_reconnect_witness :
  let w := set_connection true false
             (Sample.world [] [] []
                [ Some (mkFault 0 "refused" true);
                  Some (mkFault 0 "refused again" true) ]) in
  let w' := (ensureConnection w).2 in
  ensureConnection w = (Throw (Error "refused again"), w')
  /\ connected w' = false
  /\ exists t,
       trace w' = t ++ [ EvConnect;
                         EvConsoleError ("Failed to connect to MongoDB: "
                                         +:+ "refused again") ].
Proof.
  intros w w'.
  assert (H : ensureConnection w = (Throw (Error "refused again"), w')).
  { rewrite (surjective_pairing (ensureConnection w)). reflexivity. }
  split; [exact H|].
  exact (ensureConnection_throws_only_on_reconnect w w' _ H).
Defined.

(** X8.  A failed ping goes unnoticed when the driver still reports the
    topology connected: the [catch] block calls [connect], which returns
    at once, and [ensureConnection] returns normally after the single
    failed ping, with no reconnection. *)
Theorem failed_ping_is_swallowed (w : World) (f : Fault) :
  connected w = true ->
  db_open w = true ->
  head (faults w) = Some (Some f) ->
  fault_disconnects f = false ->
  exists w',
    ensureConnection w = (Ok tt, w')
    /\ trace w' = trace w ++ [EvPing]
    /\ faults w' = tl (faults w)
    /\ collections w' = collections w.
Proof.
  intros Hc Hd Hf Hk.
  unfold ensureConnection, connect, ping, isConnected, simple_call, call.
  unfold_monad. rewrite Hc. simpl. rewrite Hd, Hf. simpl. rewrite Hk.
  simpl. rewrite Hc. simpl. eexists. split; [reflexivity|]. simpl. auto.
Qed.

Lemma failed_ping_is_swallowed_witness :
  let f := mkFault 0 "ping timed out" false in
  let w := Sample.world [] [] [] [Some f] in
  connected w = true /\ db_open w = true
  /\ head (faults w) = Some (Some f) /\ fault_disconnects f = false
  /\ exists w',
       ensureConnection w = (Ok tt, w')
       /\ trace w' = trace w ++ [EvPing]
       /\ faults w' = tl (faults w)
       /\ collections w' = collections w.
Proof.
  intros f w. repeat (split; [reflexivity|]).
  apply (failed_ping_is_swallowed w f); reflexivity.
Defined.

(** *** A healthy store *)

Lemma healthy_call (e : Event) (w : World) :
  healthy w -> call e w = (Ok None, add_event e w).
Proof.
  intros [Hd Hf]. unfold call. rewrite Hf. simpl.
  unfold set_faults, add_event. simpl. rewrite Hf. reflexivity.
Qed.

Lemma healthy_add_event (e : Event) (w : World) :
  healthy w -> healthy (add_event e w).
Proof. intros [Hd Hf]. split; assumption. Qed.

Lemma succeeds_ret {A} (a : A) : succeeds (mret a).
Proof. intros w Hw. exists a, w. split; [reflexivity|exact Hw]. Qed.

Lemma succeeds_bind {A B} (m : M A) (k : A -> M B) :
  succeeds m -> (forall a, succeeds (k a)) -> succeeds (m ≫= k).
Proof.
  intros Hm Hk w Hw. destruct (Hm w Hw) as (a & w1 & E1 & H1).
  destruct (Hk a w1 H1) as (b & w2 & E2 & H2).
  exists b, w2. unfold mbind, M_bind. rewrite E1. auto.
Qed.

Lemma succeeds_try_catch {A} (m : M A) (h : Exn -> M A) :
  succeeds m -> succeeds (try_catch m h).
Proof.
  intros Hm w Hw. destruct (Hm w Hw) as (a & w1 & E1 & H1).
  exists a, w1. unfold try_catch. rewrite E1. auto.
Qed.

Lemma succeeds_get_world_then {A} (k : World -> M A) :
  (forall w, healthy w -> exists a w', k w w = (Ok a, w') /\ healthy w') ->
  succeeds (get_world ≫= k).
Proof. intros Hk w Hw. unfold mbind, M_bind, get_world. apply Hk, Hw. Qed.

Lemma succeeds_modify (f : World -> World) :
  (forall w, healthy w -> healthy (f w)) -> succeeds (modify f).
Proof. intros Hf w Hw. exists tt, (f w). split; [reflexivity|apply Hf, Hw]. Qed.

Lemma succeeds_simple_call (e : Event) : succeeds (simple_call e).
Proof.
  intros w Hw. exists tt, (add_event e w). unfold simple_call. unfold_monad.
  rewrite (healthy_call e w Hw). split; [reflexivity|].
  apply healthy_add_event, Hw.
Qed.

Lemma succeeds_now : succeeds now.
Proof.
  intros w Hw. eexists _, _. split; [reflexivity|]. destruct Hw. split; auto.
Qed.

Lemma succeeds_getDb : succeeds getDb.
Proof.
  unfold getDb. apply succeeds_get_world_then. intros w Hw.
  destruct Hw as [Hd Hf]. rewrite Hd. exists tt, w. repeat split; auto.
Qed.

Lemma succeeds_getCollection (name : string) : succeeds (getCollection name).
Proof.
  unfold getCollection. apply succeeds_bind; [apply succeeds_getDb|].
  intros _. apply succeeds_ret.
Qed.

Lemma succeeds_isConnected : succeeds isConnected.
Proof.
  unfold isConnected. apply succeeds_get_world_then. intros w Hw. eauto.
Qed.

Lemma succeeds_connect : succeeds connect.
Proof.
  unfold connect. apply succeeds_try_catch.
  apply succeeds_bind; [apply succeeds_isConnected|]. intros [|].
  - apply succeeds_ret.
  - apply succeeds_bind; [apply succeeds_simple_call|]. intros _.
    apply succeeds_modify. intros w [Hd Hf]. split; [reflexivity|exact Hf].
Qed.

Lemma succeeds_ping : succeeds ping.
Proof.
  unfold ping. apply succeeds_get_world_then. intros w Hw.
  pose proof Hw as [Hd Hf]. rewrite Hd. apply succeeds_simple_call, Hw.
Qed.

Lemma succeeds_ensureConnection : succeeds ensureConnection.
Proof.
  unfold ensureConnection. apply succeeds_try_catch.
  apply succeeds_bind; [apply succeeds_isConnected|]. intros c.
  apply succeeds_bind; [|intros _; apply succeeds_ping].
  destruct (negb c); [apply succeeds_connect|apply succeeds_ret].
Qed.

Lemma succeeds_run_batch {A} (step : list Doc * nat -> A -> list Doc * nat)
    (e : Event) (name : string) (items : list A) :
  succeeds (run_batch step e name items).
Proof.
  intros w Hw. unfold run_batch. unfold_monad.
  rewrite (healthy_call e w Hw). simpl.
  eexists _, _. split; [reflexivity|].
  destruct (fold_left step items _) as [docs oid]. destruct Hw. split; auto.
Qed.

Lemma succeeds_find (name : string) : succeeds (find name).
Proof.
  unfold find. apply succeeds_bind; [apply succeeds_simple_call|].
  intros _. apply succeeds_get_world_then. intros w Hw. eauto.
Qed.

Lemma succeeds_writeBatches (g s : string) (b : Batches) :
  succeeds (writeBatches g s b).
Proof.
  unfold writeBatches.
  apply succeeds_bind; [apply succeeds_ensureConnection|]. intros _.
  apply succeeds_bind; [apply succeeds_run_batch|]. intros _.
  apply succeeds_bind; [apply succeeds_run_batch|]. intros _.
  apply succeeds_ret.
Qed.

Lemma succeeds_writeLoop (g s : string) (n : nat) (m : GamesMap) (ts : JsVal)
    (l : list Doc) (b : Batches) :
  succeeds (writeLoop g s n m ts l b).
Proof.
  revert b. induction l as [|d l IH]; intros b; simpl.
  - apply succeeds_ret.
  - apply succeeds_bind; [|intros b2; apply IH].
    destruct (n <=? _)%nat; [|apply succeeds_ret].
    unfold flushFull. apply succeeds_try_catch, succeeds_writeBatches.
Qed.

Lemma succeeds_flushRest (g s : string) (b : Batches) :
  succeeds (flushRest g s b).
Proof.
  unfold flushRest. destruct (0 <? _)%nat; [|apply succeeds_ret].
  apply succeeds_bind; [apply succeeds_ensureConnection|]. intros _.
  apply succeeds_bind; [apply succeeds_run_batch|]. intros _.
  apply succeeds_bind; [apply succeeds_run_batch|]. intros _.
  apply succeeds_ret.
Qed.

Lemma onEnd_resolves (env : Env) (g s : string) (n : nat)
    (rows : list Row) (w : World) :
  healthy w ->
  exists r w', onEnd env g s n (decoded rows) w = (Ok r, w').
Proof.
  intros Hw. unfold onEnd. unfold mbind, M_bind.
  destruct (succeeds_find g w Hw) as (existing & w1 & -> & H1).
  cbv beta iota zeta.
  destruct (negb _); [eexists _, _; reflexivity|].
  rewrite SortFacts.sortByName_decoded.
  2:{ apply Forall_forall. intros d Hd. apply list_elem_of_In in Hd.
      apply (SortFacts.decoded_has_name rows).
      apply (SortFacts.gamesToProcess_In _ (snapshot existing)), Hd. }
  cbv beta iota zeta.
  destruct (succeeds_now w1 H1) as (t & w2 & -> & H2). cbv beta iota zeta.
  destruct (succeeds_writeLoop g s n (snapshot existing) (VDate t)
              (stable_sort (byName env)
                 (gamesToProcess
                    (analyzeChanges (decoded rows) (snapshot existing))))
              (mkBatches [] [] 0) w2 H2) as (b & w3 & -> & H3).
  cbv beta iota zeta.
  destruct (succeeds_flushRest g s b w3 H3) as (total & w4 & -> & H4).
  cbv beta iota zeta.
  destruct (resortCollection_returns env g "board_games" w4) as (w5 & ->).
  cbv beta iota zeta.
  destruct (resortCollection_returns env s "games_search" w5) as (w6 & ->).
  cbv beta iota zeta. eexists _, _. reflexivity.
Qed.

(** X9.  The ['end'] handler of [processCsvFile] (lines 68 to 239) on a
    store that does not fail.  If the database handle is set and no call
    fails, the handler resolves, whatever rows the file gave, whatever
    the two collections are and hold, and whatever the batch size:
    nothing in the rows and nothing stored can make it reject.  The
    steps before the handler (lines 25 to 27) are not part of it. *)
Theorem healthy_handler_resolves
    (env : Env) (g s : string) (n : nat) (rows : list Row) (w : World) :
  healthy w ->
  exists r w', onEnd env g s n (decoded rows) w = (Ok r, w').
Proof. intros Hw. exact (onEnd_resolves env g s n rows w Hw). Qed.

Lemma healthy_handler_resolves_witness :
  let rows := [Sample.row "2" "Zed" "1"; Sample.row "x" "" ""] in
  let w := Sample.world rows [Sample.stored 1 2 "Zed" 4] [] [] in
  healthy w
  /\ exists r w',
       onEnd Sample.env "board_games" "games_search" 500 (decoded rows) w
       = (Ok r, w').
Proof.
  intros rows w.
  assert (Hw : healthy w) by (split; reflexivity).
  split; [exact Hw|].
  exact (healthy_handler_resolves Sample.env "board_games" "games_search"
           500 rows w Hw).
Defined.

End HealthFacts.

(* ===================================================================== *)
(** ** The retry of a full batch                                           *)
(* ===================================================================== *)

Module RetryFacts.
Import Database FloatFacts DecoderFacts RunFacts UpsertFacts DifferMore.

Lemma update_only_cons (d : Doc) (ds : list Doc) (x : UpdateOne) :
  update_only (d :: ds) x
  = if matches_id (filter_id x) d then (op_set x ∪ d) :: ds
    else d :: update_only ds x.
Proof.
  unfold update_only. simpl. destruct (matches_id _ d); [reflexivity|].
  destruct (update_first _ _ ds); reflexivity.
Qed.

Lemma same_value_zero_congr (a b c : JsVal) :
  same_value_zero a b = true -> same_value_zero a c = same_value_zero b c.
Proof.
  intros Hab.
  destruct (same_value_zero a c) eqn:Hac, (same_value_zero b c) eqn:Hbc;
    try reflexivity.
  - rewrite same_value_zero_sym in Hab.
    rewrite (same_value_zero_trans _ _ _ Hab Hac) in Hbc. discriminate.
  - rewrite (same_value_zero_trans _ _ _ Hab Hbc) in Hac. discriminate.
Qed.

(** [$set] leaves the matched document matching what it matched. *)
Lemma matches_after_set (x : UpdateOne) (v : JsVal) (d : Doc) :
  settles x -> matches_id (filter_id x) d = true ->
  matches_id v (op_set x ∪ d) = matches_id v d.
Proof.
  intros Hx Hd. unfold matches_id, prop in *.
  destruct (op_set x !! "id") as [u|] eqn:Hu.
  - rewrite (lookup_union_Some_l _ d _ _ Hu), (settles_id x Hx u Hu). simpl.
    symmetry. apply same_value_zero_congr. exact Hd.
  - rewrite (lookup_union_r _ d _ Hu). reflexivity.
Qed.

Lemma has_match_update_only (x : UpdateOne) (v : JsVal) (l : list Doc) :
  settles x -> has_match v (update_only l x) = has_match v l.
Proof.
  intros Hx. induction l as [|d ds IH]; [reflexivity|].
  rewrite update_only_cons. unfold has_match in *.
  destruct (matches_id (filter_id x) d) eqn:Hd; simpl.
  - rewrite (matches_after_set x v d Hx Hd). reflexivity.
  - rewrite IH. reflexivity.
Qed.

Lemma apply_updateOne_cases (l : list Doc) (o : nat) (x : UpdateOne) :
  apply_updateOne (l, o) x
  = if has_match (filter_id x) l then (update_only l x, o)
    else (l ++ [upserted o x], S o).
Proof.
  unfold apply_updateOne, update_only.
  assert (H : forall l,
            match update_first (filter_id x) (op_set x) l with
            | Some _ => has_match (filter_id x) l = true
            | None => has_match (filter_id x) l = false
            end).
  { clear l. induction l as [|d ds IH]; simpl; [reflexivity|].
    destruct (matches_id (filter_id x) d); simpl; [reflexivity|].
    destruct (update_first _ _ ds); simpl; exact IH. }
  specialize (H l).
  destruct (update_first (filter_id x) (op_set x) l); rewrite H; reflexivity.
Qed.

Lemma union_absorb (a b d : Doc) : a ∪ (b ∪ (a ∪ d)) = a ∪ (b ∪ d).
Proof.
  apply map_eq. intros k. rewrite !lookup_union.
  destruct (a !! k), (b !! k), (d !! k); reflexivity.
Qed.

Lemma union_twice (a d : Doc) : a ∪ (a ∪ d) = a ∪ d.
Proof.
  apply map_eq. intros k. rewrite !lookup_union.
  destruct (a !! k), (d !! k); reflexivity.
Qed.

Lemma update_only_idemp (x : UpdateOne) (l : list Doc) :
  settles x -> update_only (update_only l x) x = update_only l x.
Proof.
  intros Hx. induction l as [|d ds IH]; [reflexivity|].
  rewrite update_only_cons.
  destruct (matches_id (filter_id x) d) eqn:Hd; rewrite update_only_cons.
  - rewrite (matches_after_set x _ d Hx Hd), Hd, union_twice. reflexivity.
  - rewrite Hd, IH. reflexivity.
Qed.

(** Writing [x], then [y], then [x] again leaves what [y] then [x]
    leaves. *)
Lemma update_only_again (x y : UpdateOne) (l : list Doc) :
  settles x -> settles y ->
  update_only (update_only (update_only l x) y) x
  = update_only (update_only l y) x.
Proof.
  intros Hx Hy. induction l as [|d ds IH]; [reflexivity|].
  rewrite (update_only_cons d ds x), (update_only_cons d ds y).
  destruct (matches_id (filter_id x) d) eqn:Hxd,
           (matches_id (filter_id y) d) eqn:Hyd;
    rewrite !update_only_cons;
    rewrite ?(matches_after_set x _ d Hx Hxd),
            ?(matches_after_set y _ d Hy Hyd), ?Hxd, ?Hyd;
    rewrite ?update_only_cons;
    rewrite ?(matches_after_set y _ _ Hy
                (eq_trans (matches_after_set x _ d Hx Hxd) Hyd)),
            ?(matches_after_set x _ d Hx Hxd),
            ?(matches_after_set y _ d Hy Hyd), ?Hxd, ?Hyd.
  - rewrite union_absorb. reflexivity.
  - rewrite union_twice. reflexivity.
  - rewrite update_only_idemp by exact Hx. reflexivity.
  - rewrite IH. reflexivity.
Qed.

Lemma update_only_again_fold (x : UpdateOne) (P : list UpdateOne)
    (l : list Doc) :
  settles x -> Forall settles P ->
  update_only (fold_left update_only P (update_only l x)) x
  = update_only (fold_left update_only P l) x.
Proof.
  intros Hx HP. revert l.
  induction HP as [|y P Hy _ IH]; intros l; simpl.
  - apply update_only_idemp, Hx.
  - rewrite <- (IH (update_only (update_only l x) y)).
    rewrite (update_only_again x y l Hx Hy). apply IH.
Qed.

Lemma update_only_app_l (x : UpdateOne) (l l' : list Doc) :
  has_match (filter_id x) l = true ->
  update_only (l ++ l') x = update_only l x ++ l'.
Proof.
  induction l as [|d ds IH]; simpl; [discriminate|].
  rewrite !update_only_cons. unfold has_match in *. simpl.
  destruct (matches_id (filter_id x) d); simpl; [reflexivity|].
  intros H. rewrite (IH H). reflexivity.
Qed.

Lemma update_only_app_r (x : UpdateOne) (l l' : list Doc) :
  has_match (filter_id x) l = false ->
  update_only (l ++ l') x = l ++ update_only l' x.
Proof.
  induction l as [|d ds IH]; simpl; [reflexivity|].
  rewrite !update_only_cons. unfold has_match in *. simpl.
  destruct (matches_id (filter_id x) d); simpl; [discriminate|].
  intros H. rewrite (IH H). reflexivity.
Qed.

Lemma fold_update_only_app (P : list UpdateOne) (l l' : list Doc) :
  Forall settles P ->
  Forall (fun x => has_match (filter_id x) l = true) P ->
  fold_left update_only P (l ++ l') = fold_left update_only P l ++ l'.
Proof.
  intros HP. revert l.
  induction HP as [|x P Hx _ IH]; intros l Hl; simpl; [reflexivity|].
  inversion Hl as [|? ? Hxl HPl]; subst.
  rewrite (update_only_app_l x l l' Hxl). apply IH.
  eapply Forall_impl; [exact HPl|]. intros y Hy. simpl in *.
  rewrite (has_match_update_only x _ l Hx). exact Hy.
Qed.

Lemma upserted_id (o : nat) (x : UpdateOne) :
  settles x -> prop (upserted o x) "id" = filter_id x.
Proof.
  intros Hx. unfold prop, upserted.
  rewrite lookup_insert_ne by discriminate.
  rewrite lookup_union, (settles_insert_id x Hx), (left_id None _).
  rewrite lookup_union.
  destruct (op_set x !! "id") as [u|] eqn:Hu.
  - rewrite (settles_id x Hx u Hu), lookup_singleton. reflexivity.
  - rewrite lookup_singleton. reflexivity.
Qed.

(** The document an operation inserted is left as it is by the
    operation. *)
Lemma update_only_upserted (o : nat) (x : UpdateOne) :
  settles x -> update_only [upserted o x] x = [upserted o x].
Proof.
  intros Hx. rewrite update_only_cons. unfold matches_id.
  rewrite (upserted_id o x Hx), (settles_self x Hx). f_equal.
  apply map_eq. intros k. rewrite lookup_union.
  destruct (op_set x !! k) as [v|] eqn:Hv;
    [|rewrite (left_id None _); reflexivity].
  assert (Hk : upserted o x !! k = Some v).
  { unfold upserted.
    rewrite lookup_insert_ne
      by (intros <-; rewrite (settles_oid x Hx) in Hv; discriminate).
    rewrite lookup_union.
    destruct (op_setOnInsert x !! k) as [u|] eqn:Hu.
    - rewrite (settles_disjoint x Hx k (ex_intro _ u Hu)) in Hv.
      discriminate.
    - rewrite (left_id None _), lookup_union, Hv.
      destruct ({[ "id" := filter_id x ]} !! k); reflexivity. }
  rewrite Hk. reflexivity.
Qed.

Lemma has_match_apply_self (l : list Doc) (o : nat) (x : UpdateOne) :
  settles x -> has_match (filter_id x) (apply_updateOne (l, o) x).1 = true.
Proof.
  intros Hx. rewrite apply_updateOne_cases.
  destruct (has_match (filter_id x) l) eqn:H; simpl.
  - rewrite has_match_update_only by exact Hx. exact H.
  - unfold has_match. rewrite existsb_app. simpl. unfold matches_id.
    rewrite (upserted_id o x Hx), (settles_self x Hx).
    apply orb_true_iff. right. reflexivity.
Qed.

Lemma has_match_apply_mono (v : JsVal) (l : list Doc) (o : nat)
    (x : UpdateOne) :
  settles x -> has_match v l = true ->
  has_match v (apply_updateOne (l, o) x).1 = true.
Proof.
  intros Hx Hv. rewrite apply_updateOne_cases.
  destruct (has_match (filter_id x) l); simpl.
  - rewrite has_match_update_only by exact Hx. exact Hv.
  - unfold has_match in *. rewrite existsb_app, Hv. reflexivity.
Qed.

Lemma has_match_fold_mono (v : JsVal) (P : list UpdateOne)
    (st : list Doc * nat) :
  Forall settles P -> has_match v st.1 = true ->
  has_match v (fold_left apply_updateOne P st).1 = true.
Proof.
  intros HP. revert st.
  induction HP as [|x P Hx _ IH]; intros [l o] Hv; simpl; [exact Hv|].
  apply IH. apply has_match_apply_mono; assumption.
Qed.

(** After a batch every one of its operations has a match. *)
Lemma matches_after_batch (P : list UpdateOne) (st : list Doc * nat) :
  Forall settles P ->
  Forall (fun x => has_match (filter_id x)
                     (fold_left apply_updateOne P st).1 = true) P.
Proof.
  intros HP. revert st.
  induction HP as [|x P Hx HP IH]; intros [l o]; simpl; constructor.
  - apply has_match_fold_mono; [exact HP|].
    apply has_match_apply_self, Hx.
  - apply IH.
Qed.

(** A batch whose operations all have a match only updates. *)
Lemma batch_of_updates (P : list UpdateOne) (l : list Doc) (o : nat) :
  Forall settles P ->
  Forall (fun x => has_match (filter_id x) l = true) P ->
  fold_left apply_updateOne P (l, o) = (fold_left update_only P l, o).
Proof.
  intros HP. revert l.
  induction HP as [|x P Hx _ IH]; intros l Hl; cbn [fold_left];
    [reflexivity|].
  inversion Hl as [|? ? Hxl HPl]; subst.
  rewrite apply_updateOne_cases, Hxl. apply IH.
  eapply Forall_impl; [exact HPl|]. intros y Hy. simpl in *.
  rewrite (has_match_update_only x _ l Hx). exact Hy.
Qed.

(** What a batch leaves is left as it is by the updates of the batch. *)
Lemma batch_settled (P : list UpdateOne) (st : list Doc * nat) :
  Forall settles P ->
  fold_left update_only P (fold_left apply_updateOne P st).1
  = (fold_left apply_updateOne P st).1.
Proof.
  induction P as [|x P IH] using rev_ind; intros HP; [reflexivity|].
  apply Forall_app in HP as [HP Hx]. inversion Hx as [|? ? Hx' _]; subst.
  specialize (IH HP). rewrite !fold_left_app. cbn [fold_left].
  pose proof (matches_after_batch P st HP) as Hm.
  destruct (fold_left apply_updateOne P st) as [l1 o1]. cbn [fst] in *.
  rewrite apply_updateOne_cases.
  destruct (has_match (filter_id x) l1) eqn:H1; simpl.
  - rewrite (update_only_again_fold x P l1 Hx' HP), IH. reflexivity.
  - rewrite (fold_update_only_app P l1 _ HP Hm), IH.
    rewrite (update_only_app_r x l1 _ H1).
    rewrite (update_only_upserted o1 x Hx'). reflexivity.
Qed.

(** A batch run again on what it left, whatever the next [_id] is by
    then, changes nothing. *)
Lemma batch_again (P : list UpdateOne) (st : list Doc * nat) (o : nat) :
  Forall settles P ->
  fold_left apply_updateOne P ((fold_left apply_updateOne P st).1, o)
  = ((fold_left apply_updateOne P st).1, o).
Proof.
  intros HP.
  rewrite (batch_of_updates P _ o HP (matches_after_batch P st HP)).
  rewrite (batch_settled P st HP). reflexivity.
Qed.

(** A batch run after any number of its first operations took effect
    leaves what the batch alone leaves. *)
Lemma batch_after_prefix (P : list UpdateOne) (k : nat)
    (st : list Doc * nat) :
  Forall settles P ->
  fold_left apply_updateOne P (fold_left apply_updateOne (firstn k P) st)
  = fold_left apply_updateOne P st.
Proof.
  intros HP.
  assert (HQ : Forall settles (firstn k P)).
  { rewrite <- (firstn_skipn k P) in HP. apply Forall_app in HP. tauto. }
  rewrite <- (firstn_skipn k P) at 1 3. rewrite !fold_left_app.
  f_equal.
  pose proof (batch_again (firstn k P) st
                (fold_left apply_updateOne (firstn k P) st).2 HQ) as H.
  rewrite <- surjective_pairing in H. exact H.
Qed.

(** *** The operations of the batch writer settle *)

Lemma decoded_id_number (row : Row) (gameDoc : Doc) :
  decodeRow row = Some gameDoc ->
  exists x, gameDoc !! "id" = Some (VNum x).
Proof.
  rewrite decodeRow_cases.
  destruct (has_name row) eqn:Hn; [|discriminate].
  destruct (has_id row) eqn:Hi; [|discriminate]. simpl. intros [= <-].
  rewrite cleanUp_lookup, buildGameDoc_id. simpl.
  unfold has_id in Hi. simpl in Hi.
  apply negb_true_iff, orb_false_iff in Hi as [_ Hnan].
  rewrite Hnan. eauto.
Qed.

Lemma same_value_zero_number (x : float) :
  same_value_zero (VNum x) (VNum x) = true.
Proof.
  unfold same_value_zero. simpl. unfold PrimFloat.is_nan.
  destruct (PrimFloat.eqb x x); reflexivity.
Qed.

Lemma gameOp_settles (ts : JsVal) (row : Row) (gameDoc : Doc) :
  decodeRow row = Some gameDoc -> settles (gameOp ts gameDoc).
Proof.
  intros Hrow. destruct (decoded_id_number row gameDoc Hrow) as (x & Hx).
  assert (Hno : forall k, ~ In k ("id" :: fieldsToCompare) ->
                  gameDoc !! k = None).
  { intros k Hk. destruct (gameDoc !! k) eqn:E; [|reflexivity].
    exfalso. apply Hk. apply (decoded_fields row gameDoc k Hrow). eauto. }
  assert (Hoid : gameDoc !! "_id" = None).
  { apply Hno. simpl. intuition discriminate. }
  assert (Hcreated : gameDoc !! "date_created" = None).
  { apply Hno. simpl. intuition discriminate. }
  unfold gameOp. split; simpl.
  - unfold prop. rewrite Hx. apply same_value_zero_number.
  - intros v. rewrite lookup_insert_ne by discriminate.
    unfold prop. intros ->. reflexivity.
  - rewrite lookup_insert_ne by discriminate. exact Hoid.
  - reflexivity.
  - intros k [v Hv]. apply lookup_singleton_Some in Hv as [<- _].
    rewrite lookup_insert_ne by discriminate. exact Hcreated.
Qed.

Lemma searchOp_settles (ts : JsVal) (row : Row) (gameDoc : Doc) :
  decodeRow row = Some gameDoc -> settles (searchOp ts gameDoc).
Proof.
  intros Hrow. destruct (decoded_id_number row gameDoc Hrow) as (x & Hx).
  unfold searchOp. split; simpl.
  - unfold prop. rewrite Hx. apply same_value_zero_number.
  - intros v Hv. vm_compute in Hv. injection Hv as <-. reflexivity.
  - reflexivity.
  - reflexivity.
  - intros k [v Hv]. apply lookup_singleton_Some in Hv as [<- _].
    reflexivity.
Qed.

(** *** What the store holds after a batch *)

Lemma written_after_prefix (c : string) (P : list UpdateOne) (k : nat)
    (st : gmap string (list Doc) * nat) :
  Forall settles P ->
  written c P (written c (firstn k P) st) = written c P st.
Proof.
  intros HP. destruct st as [cols oid]. unfold written. simpl.
  destruct (fold_left apply_updateOne (firstn k P) _) as [l1 o1] eqn:E1.
  simpl. rewrite lookup_insert_eq. simpl.
  rewrite <- E1, (batch_after_prefix P k _ HP).
  destruct (fold_left apply_updateOne P _) as [l' o'].
  rewrite insert_insert_eq. reflexivity.
Qed.

Lemma written_again (g s : string) (P Q : list UpdateOne)
    (st : gmap string (list Doc) * nat) :
  g <> s -> Forall settles P ->
  written g P (written s Q (written g P st))
  = written s Q (written g P st).
Proof.
  intros Hgs HP. destruct st as [cols oid]. unfold written. simpl.
  pose proof (batch_again P (default [] (cols !! g), oid)) as Hagain.
  destruct (fold_left apply_updateOne P _) as [l' o']. simpl in *.
  destruct (fold_left apply_updateOne Q _) as [m o2]. simpl.
  rewrite lookup_insert_ne by congruence. rewrite lookup_insert_eq. simpl.
  rewrite (Hagain o2 HP).
  rewrite insert_id; [reflexivity|].
  rewrite lookup_insert_ne by congruence. apply lookup_insert_eq.
Qed.

(** *** One attempt, by what the next call to the store does *)

Lemma bulkWrite_passes (c : string) (ops : list UpdateOne) (w : World) :
  default None (head (faults w)) = None ->
  exists w',
    bulkWrite c ops w = (Ok tt, w')
    /\ store_of w' = written c ops (store_of w)
    /\ faults w' = tl (faults w)
    /\ db_open w' = db_open w /\ connected w' = connected w.
Proof.
  intros Hf. unfold bulkWrite, run_batch, call. unfold_monad.
  assert (E : head (faults w) = None \/ head (faults w) = Some None).
  { destruct (head (faults w)) as [[f|]|]; auto; discriminate. }
  destruct E as [E|E]; rewrite E; simpl; unfold written, store_of, docs_of;
    simpl; destruct (fold_left apply_updateOne ops _) as [docs oid];
    eexists; (split; [reflexivity|]); simpl; auto.
Qed.

Lemma bulkWrite_fails (c : string) (ops : list UpdateOne) (w : World)
    (f : Fault) :
  head (faults w) = Some (Some f) ->
  exists w',
    bulkWrite c ops w = (Throw (Error (fault_message f)), w')
    /\ store_of w' = written c (firstn (fault_applied f) ops) (store_of w)
    /\ faults w' = tl (faults w)
    /\ db_open w' = db_open w.
Proof.
  intros Hf. unfold bulkWrite, run_batch, call. unfold_monad.
  rewrite Hf. simpl. unfold written, store_of, docs_of.
  destruct (fault_disconnects f); simpl;
    destruct (fold_left apply_updateOne _ _) as [docs oid];
    eexists; (split; [reflexivity|]); simpl; auto.
Qed.

Lemma ensureConnection_passes (w : World) :
  db_open w = true -> connected w = true ->
  default None (head (faults w)) = None ->
  exists w',
    ensureConnection w = (Ok tt, w')
    /\ store_of w' = store_of w
    /\ faults w' = tl (faults w)
    /\ db_open w' = true /\ connected w' = true.
Proof.
  intros Hd Hc Hf.
  unfold ensureConnection, connect, ping, isConnected, simple_call, call.
  unfold_monad. rewrite Hc. simpl. rewrite Hd.
  assert (E : head (faults w) = None \/ head (faults w) = Some None).
  { destruct (head (faults w)) as [[f|]|]; auto; discriminate. }
  destruct E as [E|E]; rewrite E; simpl;
    eexists; (split; [reflexivity|]); simpl; auto.
Qed.

(** With one failure left to come, [ensureConnection] returns normally
    whatever the state of the connection, and no failure is left. *)
Lemma ensureConnection_last_failure (w : World) (fs : list (option Fault)) :
  db_open w = true ->
  faults w = fs -> (length fs <= 1)%nat ->
  exists w',
    ensureConnection w = (Ok tt, w')
    /\ store_of w' = store_of w
    /\ faults w' = []
    /\ db_open w' = true.
Proof.
  intros Hd Hf Hlen.
  destruct w as [cols oid dbo conn fs' clk reads fls tr]. simpl in *.
  subst dbo fs'.
  unfold ensureConnection, connect, ping, isConnected, simple_call, call.
  unfold_monad.
  destruct fs as [|[[k msg [|]]|] [|? ?]]; simpl in Hlen; try lia;
    destruct conn; simpl; eexists; (split; [reflexivity|]); simpl; auto.
Qed.

Lemma writeBatches_quiet (g s : string) (b : Batches) (w : World) :
  db_open w = true -> faults w = [] ->
  exists w',
    writeBatches g s b w
    = (Ok (mkBatches [] [] (totalProcessed b + length (gamesBatch b))), w')
    /\ store_of w'
       = written s (searchBatch b) (written g (gamesBatch b) (store_of w)).
Proof.
  intros Hd Hf. unfold writeBatches. unfold mbind, M_bind.
  destruct (ensureConnection_last_failure w [] Hd Hf)
    as (w1 & -> & S1 & F1 & D1); [simpl; lia|].
  destruct (bulkWrite_passes g (gamesBatch b) w1)
    as (w2 & -> & S2 & F2 & D2 & _); [rewrite F1; reflexivity|].
  destruct (bulkWrite_passes s (searchBatch b) w2)
    as (w3 & -> & S3 & F3 & D3 & _); [rewrite F2, F1; reflexivity|].
  eexists. split; [reflexivity|]. rewrite S3, S2, S1. reflexivity.
Qed.

Lemma writeBatches_steps (g s : string) (b : Batches) (w : World) :
  writeBatches g s b w
  = match ensureConnection w with
    | (Ok _, w1) =>
        match bulkWrite g (gamesBatch b) w1 with
        | (Ok _, w2) =>
            match bulkWrite s (searchBatch b) w2 with
            | (Ok _, w3) =>
                (Ok (mkBatches [] []
                       (totalProcessed b + length (gamesBatch b))), w3)
            | (Throw e, w3) => (Throw e, w3)
            end
        | (Throw e, w2) => (Throw e, w2)
        end
    | (Throw e, w1) => (Throw e, w1)
    end.
Proof.
  unfold writeBatches. unfold mbind, M_bind, mret, M_ret.
  destruct (ensureConnection w) as [[[]|e] w1]; [|reflexivity].
  destruct (bulkWrite g (gamesBatch b) w1) as [[[]|e] w2]; [|reflexivity].
  destruct (bulkWrite s (searchBatch b) w2) as [[[]|e] w3]; reflexivity.
Qed.

Lemma issued_settle (ts : JsVal) (ds : list Doc) :
  Forall (fun d => exists row, decodeRow row = Some d) ds ->
  Forall settles (gameOp ts <$> ds) /\ Forall settles (searchOp ts <$> ds).
Proof.
  intros Hds. split; apply Forall_fmap; eapply Forall_impl; try exact Hds;
    intros d [row Hrow]; simpl.
  - exact (gameOp_settles ts row d Hrow).
  - exact (searchOp_settles ts row d Hrow).
Qed.

(** One failure among the calls of a full batch, whichever call it hits
    and however many operations of the failed [bulkWrite] took effect:
    the batch is written, and the store holds what it holds when no call
    fails. *)
Lemma flushFull_one_failure (g s : string) (b : Batches) (j : nat)
    (f : Fault) (w : World) :
  Forall settles (gamesBatch b) -> Forall settles (searchBatch b) ->
  g <> s -> db_open w = true -> connected w = true ->
  faults w = replicate j None ++ [Some f] ->
  exists w',
    flushFull g s b w
    = (Ok (mkBatches [] [] (totalProcessed b + length (gamesBatch b))), w')
    /\ store_of w'
       = written s (searchBatch b) (written g (gamesBatch b) (store_of w)).
Proof.
  intros HG HS Hgs Hd Hc Hf.
  rewrite flushFull_retries_once, writeBatches_steps.
  destruct j as [|[|[|j]]]; simpl in Hf.
  - destruct (ensureConnection_last_failure w [Some f] Hd Hf)
      as (w1 & -> & S1 & F1 & D1); [simpl; lia|].
    destruct (bulkWrite_passes g (gamesBatch b) w1)
      as (w2 & -> & S2 & F2 & D2 & _); [rewrite F1; reflexivity|].
    destruct (bulkWrite_passes s (searchBatch b) w2)
      as (w3 & -> & S3 & F3 & D3 & _); [rewrite F2, F1; reflexivity|].
    eexists. split; [reflexivity|]. rewrite S3, S2, S1. reflexivity.
  - destruct (ensureConnection_passes w Hd Hc)
      as (w1 & -> & S1 & F1 & D1 & C1); [rewrite Hf; reflexivity|].
    rewrite Hf in F1. simpl in F1.
    destruct (bulkWrite_fails g (gamesBatch b) w1 f)
      as (w2 & -> & S2 & F2 & D2); [rewrite F1; reflexivity|].
    rewrite F1 in F2. simpl in F2. cbv beta iota zeta.
    destruct (writeBatches_quiet g s b
                (add_event (EvConsoleError
                   ("Batch write failed, retrying... "
                    +:+ message_of (Error (fault_message f)))) w2))
      as (w3 & -> & S3); [rewrite <- D1, <- D2; reflexivity|exact F2|].
    eexists. split; [reflexivity|]. rewrite S3.
    change (store_of (add_event _ w2)) with (store_of w2).
    rewrite S2, S1, (written_after_prefix g _ _ _ HG). reflexivity.
  - destruct (ensureConnection_passes w Hd Hc)
      as (w1 & -> & S1 & F1 & D1 & C1); [rewrite Hf; reflexivity|].
    rewrite Hf in F1. simpl in F1.
    destruct (bulkWrite_passes g (gamesBatch b) w1)
      as (w2 & -> & S2 & F2 & D2 & _); [rewrite F1; reflexivity|].
    rewrite F1 in F2. simpl in F2.
    destruct (bulkWrite_fails s (searchBatch b) w2 f)
      as (w3 & -> & S3 & F3 & D3); [rewrite F2; reflexivity|].
    rewrite F2 in F3. simpl in F3. cbv beta iota zeta.
    destruct (writeBatches_quiet g s b
                (add_event (EvConsoleError
                   ("Batch write failed, retrying... "
                    +:+ message_of (Error (fault_message f)))) w3))
      as (w4 & -> & S4);
      [rewrite <- D1, <- D2, <- D3; reflexivity|exact F3|].
    eexists. split; [reflexivity|]. rewrite S4.
    change (store_of (add_event _ w3)) with (store_of w3).
    rewrite S3, S2, S1, (written_again g s _ _ _ Hgs HG),
      (written_after_prefix s _ _ _ HS). reflexivity.
  - destruct (ensureConnection_passes w Hd Hc)
      as (w1 & -> & S1 & F1 & D1 & C1); [rewrite Hf; reflexivity|].
    rewrite Hf in F1. simpl in F1.
    destruct (bulkWrite_passes g (gamesBatch b) w1)
      as (w2 & -> & S2 & F2 & D2 & _); [rewrite F1; reflexivity|].
    rewrite F1 in F2. simpl in F2.
    destruct (bulkWrite_passes s (searchBatch b) w2)
      as (w3 & -> & S3 & F3 & D3 & _); [rewrite F2; reflexivity|].
    eexists. split; [reflexivity|]. rewrite S3, S2, S1. reflexivity.
Qed.

End RetryFacts.

(* ===================================================================== *)
(** ** A re-sort that goes through                                         *)
(* ===================================================================== *)

Module ResortFacts.
Import Database RunFacts SortFacts HealthFacts.

Lemma reinserted_app (oid : nat) (a b : list Doc) :
  reinserted oid (a ++ b)
  = reinserted oid a ++ reinserted (oid + length a) b.
Proof.
  unfold reinserted. rewrite imap_app. f_equal.
  apply imap_ext. intros i d _. simpl.
  replace (oid + (length a + i))%nat with (oid + length a + i)%nat by lia.
  reflexivity.
Qed.

Lemma reinserted_length (oid : nat) (docs : list Doc) :
  length (reinserted oid docs) = length docs.
Proof. apply length_imap. Qed.

Lemma imap_absorb {A : Type} (f g : nat -> A -> A) (l : list A) :
  (forall i x, g i (f i x) = g i x) -> imap g (imap f l) = imap g l.
Proof.
  revert f g. induction l as [|x l IH]; intros f g H; [reflexivity|].
  simpl. f_equal; [apply H|]. apply IH. intros i y. simpl. apply H.
Qed.

Lemma strip_id_reinserted (oid oid' : nat) (docs : list Doc) :
  reinserted oid' (reinserted oid docs) = reinserted oid' docs.
Proof.
  unfold reinserted. apply imap_absorb. intros i d.
  unfold strip_id. rewrite delete_insert_eq, delete_delete_eq. reflexivity.
Qed.

Lemma fold_apply_insert (batch l : list Doc) (oid : nat) :
  fold_left apply_insert (strip_id <$> batch) (l, oid)
  = (l ++ reinserted oid batch, (oid + length batch)%nat).
Proof.
  revert l oid. induction batch as [|d batch IH]; intros l oid.
  - simpl. rewrite app_nil_r, Nat.add_0_r. reflexivity.
  - cbn [fmap list_fmap fold_left]. unfold apply_insert at 2.
    unfold strip_id at 2. rewrite lookup_delete_eq.
    change (list_fmap Doc Doc strip_id batch) with (strip_id <$> batch).
    rewrite IH, <- app_assoc. simpl. f_equal.
    + f_equal. unfold reinserted. simpl. rewrite Nat.add_0_r. f_equal.
      apply imap_ext. intros i x _. simpl. do 2 f_equal. lia.
    + lia.
Qed.

Lemma healthy_simple_call (e : Event) (w : World) :
  healthy w -> simple_call e w = (Ok tt, add_event e w).
Proof.
  intros Hw. unfold simple_call. unfold_monad.
  rewrite (healthy_call e w Hw). reflexivity.
Qed.

Lemma healthy_find (c : string) (w : World) :
  healthy w -> find c w = (Ok (docs_of w c), add_event (EvFind c) w).
Proof.
  intros Hw. unfold find. unfold_monad.
  rewrite (healthy_simple_call _ w Hw). reflexivity.
Qed.

Lemma healthy_getDb (w : World) : healthy w -> getDb w = (Ok tt, w).
Proof. intros [Hd _]. unfold getDb. unfold_monad. rewrite Hd. reflexivity. Qed.

Lemma healthy_insertMany (c : string) (batch : list Doc) (w : World) :
  healthy w ->
  exists w',
    insertMany c (strip_id <$> batch) w = (Ok tt, w')
    /\ healthy w' /\ files w' = files w
    /\ collections w'
       = <[c := docs_of w c ++ reinserted (next_oid w) batch]> (collections w)
    /\ next_oid w' = (next_oid w + length batch)%nat.
Proof.
  intros Hw. unfold insertMany, run_batch. unfold_monad.
  rewrite (healthy_call _ w Hw). cbv beta iota zeta.
  change (docs_of (add_event _ w) c) with (docs_of w c).
  change (next_oid (add_event _ w)) with (next_oid w).
  rewrite fold_apply_insert.
  eexists. split; [reflexivity|]. destruct Hw as [Hd Hf].
  repeat split; try assumption; reflexivity.
Qed.

Lemma healthy_insertSlices (c : string) (batches : list (list Doc))
    (w : World) :
  healthy w ->
  exists w',
    insertSlices c batches w = (Ok tt, w')
    /\ healthy w' /\ files w' = files w
    /\ (batches = [] -> collections w' = collections w)
    /\ (batches <> [] ->
        collections w'
        = <[c := docs_of w c ++ reinserted (next_oid w) (concat batches)]>
            (collections w))
    /\ next_oid w' = (next_oid w + length (concat batches))%nat.
Proof.
  revert w. induction batches as [|batch rest IH]; intros w Hw.
  - exists w. simpl. rewrite Nat.add_0_r. split; [reflexivity|].
    split; [exact Hw|]. split; [reflexivity|]. split; [reflexivity|].
    split; [congruence|reflexivity].
  - cbn [insertSlices]. unfold mbind, M_bind.
    destruct (healthy_insertMany c batch w Hw)
      as (w1 & -> & H1 & F1 & C1 & O1).
    destruct (IH w1 H1) as (w2 & -> & H2 & F2 & Cnil & Ccons & O2).
    exists w2. split; [reflexivity|]. split; [exact H2|].
    split; [congruence|]. split; [discriminate|]. simpl concat. rewrite length_app. split; [|lia].
    intros _. rewrite reinserted_app, app_assoc.
    destruct rest as [|b rest].
    + rewrite (Cnil eq_refl), C1. simpl. rewrite app_nil_r. reflexivity.
    + rewrite (Ccons ltac:(discriminate)). unfold docs_of at 1.
      rewrite C1, lookup_insert_eq, insert_insert_eq, O1. reflexivity.
Qed.

Lemma healthy_insertInBatches (c : string) (docs : list Doc) (w : World) :
  healthy w -> docs <> [] ->
  exists w',
    insertInBatches c docs w = (Ok tt, w')
    /\ healthy w' /\ files w' = files w
    /\ collections w'
       = <[c := docs_of w c ++ reinserted (next_oid w) docs]> (collections w)
    /\ next_oid w' = (next_oid w + length docs)%nat.
Proof.
  intros Hw Hne. unfold insertInBatches.
  destruct (healthy_insertSlices c (slices (length docs) 1000 docs) w Hw)
    as (w' & E & H' & F' & _ & C & O).
  rewrite (slices_concat (length docs) 999 docs (le_n _)) in C, O.
  exists w'. split; [exact E|]. split; [exact H'|]. split; [exact F'|].
  split; [|exact O].
  apply C. destruct docs as [|d docs]; [congruence|]. discriminate.
Qed.

Lemma sortByName_named (env : Env) (docs : list Doc) (w : World) :
  Forall (fun d => is_Some (name_or_empty d)) docs ->
  sortByName env name_or_empty docs w
  = (Ok (stable_sort (byNameOrEmpty env) docs), w).
Proof.
  intros Hall. unfold sortByName.
  replace (existsb _ docs) with false; [rewrite andb_false_r; reflexivity|].
  symmetry. apply not_true_is_false. intros Hex.
  apply existsb_exists in Hex as (d & Hin & Hd).
  rewrite Forall_forall in Hall. apply list_elem_of_In in Hin.
  specialize (Hall d Hin).
  apply negb_true_iff in Hd. apply bool_decide_eq_false in Hd. contradiction.
Qed.

(** What a re-sort does on a store that does not fail. *)
Lemma resortCollection_healthy
    (env : Env) (collection collectionName : string) (w : World)
    (docs : list Doc) :
  healthy w ->
  docs_of w collection = docs -> docs <> [] ->
  Forall (fun d => is_Some (name_or_empty d)) docs ->
  collection <> tempName collectionName w ->
  docs_of w (tempName collectionName w) = [] ->
  exists w',
    resortCollection env collection collectionName w = (Ok tt, w')
    /\ collections w'
       = <[collection :=
             reinserted (next_oid w + length docs)
               (stable_sort (byNameOrEmpty env) docs)]>
           (delete (tempName collectionName w) (collections w))
    /\ next_oid w' = (next_oid w + 2 * length docs)%nat
    /\ healthy w' /\ files w' = files w.
Proof.
  intros Hw Hdocs Hne Hnames Htmp Hempty.
  set (tmp := tempName collectionName w) in *.
  set (sorted := stable_sort (byNameOrEmpty env) docs).
  assert (Hlen : length sorted = length docs).
  { apply Permutation_length, stable_sort_perm. }
  assert (Hsne : sorted <> []).
  { intros E. rewrite E in Hlen. destruct docs; [congruence|discriminate]. }
  unfold resortCollection, resortSteps. unfold try_catch, mbind, M_bind.
  rewrite (healthy_find collection w Hw), Hdocs. cbv beta iota zeta.
  replace (length docs =? 0)%nat with false
    by (destruct docs; [congruence|reflexivity]).
  rewrite (sortByName_named env docs _ Hnames). cbv beta iota zeta.
  unfold now at 1. cbv beta iota zeta.
  change (clock (add_event (EvFind collection) w)
            (clock_reads (add_event (EvFind collection) w)))
    with (clock w (clock_reads w)).
  fold (tempName collectionName w). fold tmp. fold sorted.
  set (w1 := set_clock_reads _ _).
  assert (H1 : healthy w1) by (destruct Hw; split; assumption).
  unfold getCollection at 1. unfold mbind, M_bind, mret, M_ret.
  rewrite (healthy_getDb w1 H1). cbv beta iota zeta.
  destruct (healthy_insertInBatches tmp sorted w1 H1 Hsne)
    as (w2 & -> & H2 & F2 & C2 & O2).
  cbv beta iota zeta.
  change (docs_of w1 tmp) with (docs_of w tmp) in C2. rewrite Hempty in C2.
  change (collections w1) with (collections w) in C2.
  change (next_oid w1) with (next_oid w) in C2, O2. simpl in C2.
  unfold deleteMany at 1. unfold mbind, M_bind, modify.
  rewrite (healthy_simple_call _ w2 H2). cbv beta iota zeta.
  set (w3 := set_collections _ _).
  assert (H3 : healthy w3) by (destruct H2; split; assumption).
  rewrite (healthy_find tmp w3 H3). cbv beta iota zeta.
  assert (E3 : docs_of w3 tmp = reinserted (next_oid w) sorted).
  { unfold docs_of, w3. simpl. rewrite lookup_insert_ne by exact Htmp.
    rewrite C2, lookup_insert_eq. reflexivity. }
  rewrite E3.
  set (w4 := add_event (EvFind tmp) w3).
  assert (H4 : healthy w4) by (apply healthy_add_event, H3).
  destruct (healthy_insertInBatches collection
              (reinserted (next_oid w) sorted) w4 H4)
    as (w5 & -> & H5 & F5 & C5 & O5).
  { intros E. apply (f_equal length) in E.
    rewrite reinserted_length in E. destruct sorted; [congruence|].
    discriminate. }
  cbv beta iota zeta.
  rewrite (healthy_getDb w5 H5). cbv beta iota zeta.
  unfold drop. unfold mbind, M_bind, modify.
  rewrite (healthy_simple_call _ w5 H5). cbv beta iota zeta.
  eexists. split; [reflexivity|].
  rewrite reinserted_length in O5.
  change (next_oid w4) with (next_oid w2) in C5, O5.
  change (collections w4) with (<[collection := []]> (collections w2)) in C5.
  assert (E4 : docs_of w4 collection = []).
  { unfold docs_of, w4, w3. simpl. rewrite lookup_insert_eq. reflexivity. }
  rewrite E4 in C5. simpl in C5.
  rewrite strip_id_reinserted, O2, Hlen in C5.
  split; [|split; [|split]].
  - simpl. rewrite C5, insert_insert_eq, C2.
    rewrite delete_insert_ne by (intros E; apply Htmp; symmetry; exact E).
    rewrite delete_insert_eq. reflexivity.
  - simpl. rewrite O5, O2, Hlen. lia.
  - destruct H5. split; assumption.
  - simpl. rewrite F5. simpl. exact F2.
Qed.


(** X11.  A re-sort on a store that does not fail.  When every stored name
    is a string or is missing, and the staging collection is not the
    collection itself and holds nothing, the collection ends with the
    same documents in the order of the stable sort by name, each under a
    new [_id] (the old ones are not kept); the staging collection is
    gone and no other collection is touched. *)
Theorem resort_rewrites_in_order
    (env : Env) (collection collectionName : string) (w : World)
    (docs : list Doc) :
  healthy w ->
  docs_of w collection = docs -> docs <> [] ->
  Forall (fun d => is_Some (name_or_empty d)) docs ->
  collection <> tempName collectionName w ->
  docs_of w (tempName collectionName w) = [] ->
  exists w',
    resortCollection env collection collectionName w = (Ok tt, w')
    /\ collections w'
       = <[collection :=
             reinserted (next_oid w + length docs)
               (stable_sort (byNameOrEmpty env) docs)]>
           (delete (tempName collectionName w) (collections w))
    /\ next_oid w' = (next_oid w + 2 * length docs)%nat
    /\ healthy w'.
Proof.
  intros Hw Hdocs Hne Hnames Htmp Hempty.
  destruct (resortCollection_healthy env collection collectionName w docs
              Hw Hdocs Hne Hnames Htmp Hempty)
    as (w' & E & C & O & H & _).
  exists w'. auto.
Qed.

Lemma resort_rewrites_in_order_witness :
  let docs := [Sample.stored 1 2 "Zed" 4; Sample.stored 2 1 "ant" 3] in
  let w := Sample.world [] docs [] [] in
  healthy w
  /\ docs_of w "board_games" = docs /\ docs <> []
  /\ Forall (fun d => is_Some (name_or_empty d)) docs
  /\ "board_games" <> tempName "board_games" w
  /\ docs_of w (tempName "board_games" w) = []
  /\ exists w',
       resortCollection Sample.env "board_games" "board_games" w = (Ok tt, w')
       /\ collections w'
          = <["board_games" :=
                reinserted (next_oid w + length docs)
                  (stable_sort (byNameOrEmpty Sample.env) docs)]>
              (delete (tempName "board_games" w) (collections w))
       /\ next_oid w' = (next_oid w + 2 * length docs)%nat
       /\ healthy w'.
Proof.
  intros docs w.
  assert (Hw : healthy w) by (split; reflexivity).
  assert (Hnames : Forall (fun d => is_Some (name_or_empty d)) docs).
  { repeat constructor; eexists; reflexivity. }
  assert (Htmp : "board_games" <> tempName "board_games" w).
  { vm_compute. discriminate. }
  assert (Hempty : docs_of w (tempName "board_games" w) = []).
  { vm_compute. reflexivity. }
  split; [exact Hw|]. split; [reflexivity|]. split; [discriminate|].
  split; [exact Hnames|]. split; [exact Htmp|]. split; [exact Hempty|].
  exact (resort_rewrites_in_order Sample.env "board_games" "board_games" w
           docs Hw eq_refl ltac:(discriminate) Hnames Htmp Hempty).
Defined.

End ResortFacts.

(* ===================================================================== *)
(** ** The first import converges                                          *)
(* ===================================================================== *)

Module ConvergeFacts.
Import Database FloatFacts DifferFacts DecoderFacts RunFacts SortFacts.
Import UpsertFacts DifferMore UpsertMore HealthFacts RetryFacts ResortFacts.

(** *** What an upsert keeps *)

Lemma Forall_update_only (Q : Doc -> Prop) (l : list Doc) (x : UpdateOne) :
  Forall Q l ->
  (forall e, Q e -> matches_id (filter_id x) e = true -> Q (op_set x ∪ e)) ->
  Forall Q (update_only l x).
Proof.
  intros Hl Hx. induction Hl as [|e l He Hl IH]; [constructor|].
  rewrite update_only_cons.
  destruct (matches_id (filter_id x) e) eqn:E; constructor; auto.
Qed.

Lemma Forall_apply_updateOne (Q : Doc -> Prop) (l : list Doc) (o : nat)
    (x : UpdateOne) :
  Forall Q l ->
  (forall e, Q e -> matches_id (filter_id x) e = true -> Q (op_set x ∪ e)) ->
  Q (upserted o x) ->
  Forall Q (apply_updateOne (l, o) x).1.
Proof.
  intros Hl Hx Hu. rewrite apply_updateOne_cases.
  destruct (has_match (filter_id x) l); simpl.
  - apply Forall_update_only; assumption.
  - apply Forall_app. split; [exact Hl|]. constructor; [exact Hu|constructor].
Qed.

Lemma Forall_fold_apply (Q : Doc -> Prop) (ops : list UpdateOne)
    (st : list Doc * nat) :
  Forall Q st.1 ->
  Forall (fun x =>
            (forall e, Q e -> matches_id (filter_id x) e = true ->
                       Q (op_set x ∪ e))
            /\ forall o, Q (upserted o x)) ops ->
  Forall Q (fold_left apply_updateOne ops st).1.
Proof.
  intros Hst Hops. revert st Hst.
  induction Hops as [|x ops [Hx Hu] _ IH]; intros [l o] Hst;
    cbn [fold_left]; [exact Hst|].
  apply IH. apply Forall_apply_updateOne; auto.
Qed.

Lemma existsb_find {A} (f : A -> bool) (l : list A) :
  existsb f l = true -> exists x, List.find f l = Some x.
Proof.
  induction l as [|a l IH]; simpl; [discriminate|].
  destruct (f a); [eauto|exact IH].
Qed.

Lemma filter_none {A} (f : A -> bool) (l : list A) :
  (forall x, In x l -> f x = false) -> List.filter f l = [].
Proof.
  induction l as [|x l IH]; intros H; [reflexivity|]. simpl.
  rewrite (H x) by (left; reflexivity). apply IH. intros y Hy. apply H.
  right. exact Hy.
Qed.

Lemma existsb_Permutation {A} (f : A -> bool) (l l' : list A) :
  Permutation l l' -> existsb f l = existsb f l'.
Proof.
  induction 1 as [|x l l' _ IH|x y l|l l' l'' _ IH1 _ IH2]; simpl.
  - reflexivity.
  - rewrite IH. reflexivity.
  - destruct (f x), (f y); reflexivity.
  - congruence.
Qed.

Lemma existsb_imap {A} (f : A -> bool) (g : nat -> A -> A) (l : list A) :
  (forall i x, f (g i x) = f x) -> existsb f (imap g l) = existsb f l.
Proof.
  revert g. induction l as [|x l IH]; intros g H; [reflexivity|].
  simpl. rewrite H, IH; [reflexivity|]. intros i y. apply H.
Qed.

Lemma Forall_imap {A} (Q : A -> Prop) (g : nat -> A -> A) (l : list A) :
  (forall i x, Q x -> Q (g i x)) -> Forall Q l -> Forall Q (imap g l).
Proof.
  revert g. induction l as [|x l IH]; intros g H Hl; [constructor|].
  inversion Hl; subst. simpl. constructor; [auto|].
  apply IH; [|assumption]. intros i y. apply H.
Qed.

Lemma filter_length_Permutation {A} (f : A -> bool) (l l' : list A) :
  Permutation l l' ->
  length (List.filter f l) = length (List.filter f l').
Proof.
  induction 1 as [|x l l' _ IH|x y l|l l' l'' _ IH1 _ IH2]; simpl.
  - reflexivity.
  - destruct (f x); simpl; congruence.
  - destruct (f x), (f y); reflexivity.
  - congruence.
Qed.

Lemma filter_length_imap {A} (f : A -> bool) (g : nat -> A -> A)
    (l : list A) :
  (forall i x, f (g i x) = f x) ->
  length (List.filter f (imap g l)) = length (List.filter f l).
Proof.
  revert g. induction l as [|x l IH]; intros g H; [reflexivity|].
  simpl. rewrite H.
  destruct (f x); simpl; rewrite IH by (intros i y; apply H); reflexivity.
Qed.

(** *** Counting the documents of an [id] *)

Lemma same_value_zero_congr_r (a b c : JsVal) :
  same_value_zero b c = true -> same_value_zero a b = same_value_zero a c.
Proof.
  intros H. rewrite (same_value_zero_sym a b), (same_value_zero_sym a c).
  apply same_value_zero_congr. exact H.
Qed.

Lemma has_match_congr (v v' : JsVal) (l : list Doc) :
  same_value_zero v v' = true -> has_match v l = has_match v' l.
Proof.
  intros H. unfold has_match. induction l as [|e l IH]; [reflexivity|].
  simpl. rewrite IH. unfold matches_id.
  rewrite (same_value_zero_congr_r (prop e "id") v v' H). reflexivity.
Qed.

Lemma count_id_app (v : JsVal) (l l' : list Doc) :
  count_id v (l ++ l') = (count_id v l + count_id v l')%nat.
Proof. unfold count_id. rewrite List.filter_app, length_app. reflexivity. Qed.

Lemma count_id_none (v : JsVal) (l : list Doc) :
  has_match v l = false -> count_id v l = 0%nat.
Proof.
  unfold has_match, count_id. induction l as [|e l IH]; [reflexivity|].
  simpl. destruct (matches_id v e); [discriminate|]. exact IH.
Qed.

Lemma count_id_some (v : JsVal) (l : list Doc) :
  has_match v l = true -> (1 <= count_id v l)%nat.
Proof.
  unfold has_match, count_id. induction l as [|e l IH]; [discriminate|].
  simpl. destruct (matches_id v e); simpl; [lia|]. exact IH.
Qed.

Lemma count_id_update_only (x : UpdateOne) (v : JsVal) (l : list Doc) :
  settles x -> count_id v (update_only l x) = count_id v l.
Proof.
  intros Hx. unfold count_id. induction l as [|e l IH]; [reflexivity|].
  rewrite update_only_cons.
  destruct (matches_id (filter_id x) e) eqn:He; simpl.
  - rewrite (matches_after_set x v e Hx He).
    destruct (matches_id v e); reflexivity.
  - destruct (matches_id v e); simpl; rewrite IH; reflexivity.
Qed.

Lemma one_per_id_apply (l : list Doc) (o : nat) (x : UpdateOne) :
  settles x -> one_per_id l -> one_per_id (apply_updateOne (l, o) x).1.
Proof.
  intros Hx Hl v. rewrite apply_updateOne_cases.
  destruct (has_match (filter_id x) l) eqn:Hm; simpl.
  - rewrite count_id_update_only by exact Hx. apply Hl.
  - rewrite count_id_app. unfold count_id at 2. simpl.
    unfold matches_id at 1. rewrite (upserted_id o x Hx).
    destruct (same_value_zero (filter_id x) v) eqn:Hv; simpl.
    + rewrite (count_id_none v l); [lia|].
      rewrite <- (has_match_congr _ _ l Hv). exact Hm.
    + specialize (Hl v). lia.
Qed.

Lemma one_per_id_fold (ops : list UpdateOne) (st : list Doc * nat) :
  Forall settles ops -> one_per_id st.1 ->
  one_per_id (fold_left apply_updateOne ops st).1.
Proof.
  intros Hops. revert st.
  induction Hops as [|x ops Hx _ IH]; intros [l o] Hst; cbn [fold_left];
    [exact Hst|].
  apply IH. apply one_per_id_apply; assumption.
Qed.

(** A document put back by [resortCollection] reads as before on every
    property but [_id]. *)
Lemma prop_reinserted (v : JsVal) (d : Doc) (k : string) :
  k <> "_id" -> prop (<["_id" := v]> (strip_id d)) k = prop d k.
Proof.
  intros Hk. unfold prop, strip_id.
  rewrite lookup_insert_ne by congruence.
  rewrite lookup_delete_ne by congruence. reflexivity.
Qed.

Lemma has_match_resorted (cmp : Doc -> Doc -> Z) (v : JsVal) (o : nat)
    (l : list Doc) :
  has_match v (reinserted o (stable_sort cmp l)) = has_match v l.
Proof.
  unfold has_match, reinserted. rewrite existsb_imap.
  - apply existsb_Permutation, stable_sort_perm.
  - intros i d. unfold matches_id. rewrite prop_reinserted by discriminate.
    reflexivity.
Qed.

Lemma count_id_resorted (cmp : Doc -> Doc -> Z) (v : JsVal) (o : nat)
    (l : list Doc) :
  count_id v (reinserted o (stable_sort cmp l)) = count_id v l.
Proof.
  unfold count_id, reinserted. rewrite filter_length_imap.
  - apply filter_length_Permutation, stable_sort_perm.
  - intros i d. unfold matches_id. rewrite prop_reinserted by discriminate.
    reflexivity.
Qed.

Lemma one_per_id_resorted (cmp : Doc -> Doc -> Z) (o : nat) (l : list Doc) :
  one_per_id l -> one_per_id (reinserted o (stable_sort cmp l)).
Proof. intros Hl v. rewrite count_id_resorted. apply Hl. Qed.

Lemma one_per_id_nil : one_per_id [].
Proof. intros v. unfold count_id. simpl. lia. Qed.

Lemma Forall_resorted (Q : Doc -> Prop) (cmp : Doc -> Doc -> Z) (o : nat)
    (l : list Doc) :
  (forall v d, Q d -> Q (<["_id" := v]> (strip_id d))) ->
  Forall Q l -> Forall Q (reinserted o (stable_sort cmp l)).
Proof.
  intros HQ Hl. unfold reinserted. apply Forall_imap; [auto|].
  rewrite Forall_forall in *. intros d Hd. apply Hl.
  apply list_elem_of_In. apply list_elem_of_In in Hd.
  eapply Permutation_in; [apply stable_sort_perm|exact Hd].
Qed.

Lemma byNameOrEmpty_consistent (env : Env) :
  Consistent (localeCompare env) -> Consistent (byNameOrEmpty env).
Proof.
  intros [Ha Ht]. unfold byNameOrEmpty. split.
  - intros a b. apply Ha.
  - intros a b c. apply Ht.
Qed.

Lemma Forall_imap_to {A} (P Q : A -> Prop) (g : nat -> A -> A)
    (l : list A) :
  (forall i x, P x -> Q (g i x)) -> Forall P l -> Forall Q (imap g l).
Proof.
  revert g. induction l as [|x l IH]; intros g H Hl; [constructor|].
  inversion Hl; subst. simpl. constructor; [auto|].
  apply IH; [|assumption]. intros i y. apply H.
Qed.

Lemma StronglySorted_imap {A} (R : A -> A -> Prop) (g : nat -> A -> A)
    (l : list A) :
  (forall i j a b, R a b -> R (g i a) (g j b)) ->
  StronglySorted R l -> StronglySorted R (imap g l).
Proof.
  revert g. induction l as [|x l IH]; intros g H Hl; [constructor|].
  apply StronglySorted_inv in Hl as [Hl Hx]. simpl. constructor.
  - apply IH; [|exact Hl]. intros i j a b. apply H.
  - apply (Forall_imap_to (R x)); [|exact Hx]. intros i y. apply H.
Qed.

Lemma resorted_in_name_order (env : Env) (o : nat) (l : list Doc) :
  Consistent (localeCompare env) ->
  in_name_order env (reinserted o (stable_sort (byNameOrEmpty env) l)).
Proof.
  intros Hc. unfold in_name_order, reinserted.
  apply StronglySorted_imap.
  - intros i j a b. unfold byNameOrEmpty, name_or_empty.
    rewrite !prop_reinserted by discriminate. auto.
  - apply stable_sort_sorted, byNameOrEmpty_consistent, Hc.
Qed.

Lemma from_records_reinserted (recs : list Doc) (v : JsVal) (d : Doc) :
  from_records recs d -> from_records recs (<["_id" := v]> (strip_id d)).
Proof.
  intros (r & Hr & Hid & Hf). exists r. split; [exact Hr|]. split.
  - rewrite prop_reinserted by discriminate. exact Hid.
  - intros f Hin. destruct (compared_field_is_data f Hin) as (H1 & _).
    rewrite prop_reinserted by exact H1. apply Hf, Hin.
Qed.

Lemma indexes_reinserted (recs : list Doc) (v : JsVal) (d : Doc) :
  indexes recs d -> indexes recs (<["_id" := v]> (strip_id d)).
Proof.
  intros (r & Hr & Hid & Hn). exists r. split; [exact Hr|].
  rewrite !prop_reinserted by discriminate. auto.
Qed.

Lemma indexes_sortable (recs : list Doc) (e : Doc) :
  Forall (fun d => exists row, decodeRow row = Some d) recs ->
  indexes recs e -> sortable e.
Proof.
  intros Hdec (r & Hr & _ & Hn). rewrite Forall_forall in Hdec.
  destruct (Hdec r (proj2 (list_elem_of_In _ _) Hr)) as (row & Hrow).
  destruct (decoded_name_string row r Hrow) as (s & Hs & _).
  unfold sortable, name_or_empty. rewrite Hn.
  unfold prop. rewrite Hs. simpl. eauto.
Qed.

Lemma from_records_sortable (recs : list Doc) (e : Doc) :
  Forall (fun d => exists row, decodeRow row = Some d) recs ->
  from_records recs e -> sortable e.
Proof.
  intros Hdec (r & Hr & _ & Hf). rewrite Forall_forall in Hdec.
  destruct (Hdec r (proj2 (list_elem_of_In _ _) Hr)) as (row & Hrow).
  destruct (decoded_name_string row r Hrow) as (s & Hs & _).
  unfold sortable, name_or_empty. rewrite (Hf "name") by (simpl; auto).
  unfold prop. rewrite Hs. simpl. eauto.
Qed.

(** *** The operations of a file whose records have distinct ids *)

Section Records.
Variable recs : list Doc.
Hypothesis Hdecoded :
  Forall (fun d => exists row, decodeRow row = Some d) recs.
Hypothesis Hdistinct : distinct_ids recs.

Lemma record_row (d : Doc) :
  In d recs -> exists row, decodeRow row = Some d.
Proof.
  intros Hd. rewrite Forall_forall in Hdecoded.
  apply Hdecoded, list_elem_of_In, Hd.
Qed.

Lemma gameOp_from_records (ts : JsVal) (d : Doc) :
  In d recs ->
  (forall e, from_records recs e ->
     matches_id (filter_id (gameOp ts d)) e = true ->
     from_records recs (op_set (gameOp ts d) ∪ e))
  /\ forall o, from_records recs (upserted o (gameOp ts d)).
Proof.
  intros Hd. destruct (record_row d Hd) as (row & Hrow).
  destruct (decoded_id_number row d Hrow) as (x & Hx).
  split.
  - intros e (r & Hr & Hid & Hf) Hm. exists d. split; [exact Hd|].
    assert (r = d) as ->.
    { apply Hdistinct; [exact Hr|exact Hd|]. rewrite <- Hid. exact Hm. }
    split.
    + unfold prop at 1. simpl op_set.
      erewrite lookup_union_Some_l;
        [|rewrite lookup_insert_ne by discriminate; exact Hx].
      unfold prop. rewrite Hx. reflexivity.
    + intros f Hin. rewrite (updated_game_field ts d e f Hin).
      destruct (d !! f) as [v|] eqn:E.
      * unfold prop. rewrite E. reflexivity.
      * rewrite (Hf f Hin). unfold prop. rewrite E. reflexivity.
  - intros o. exists d. split; [exact Hd|]. split.
    + apply (upserted_id o (gameOp ts d)). exact (gameOp_settles ts row d Hrow).
    + intros f Hin. unfold prop.
      rewrite (upserted_game_field o ts d f Hin). reflexivity.
Qed.

Lemma searchOp_indexes (ts : JsVal) (d : Doc) :
  In d recs ->
  (forall e, indexes recs e ->
     matches_id (filter_id (searchOp ts d)) e = true ->
     indexes recs (op_set (searchOp ts d) ∪ e))
  /\ forall o, indexes recs (upserted o (searchOp ts d)).
Proof.
  intros Hd. destruct (record_row d Hd) as (row & Hrow).
  assert (Hid : op_set (searchOp ts d) !! "id" = Some (prop d "id"))
    by reflexivity.
  assert (Hname : op_set (searchOp ts d) !! "name" = Some (prop d "name"))
    by reflexivity.
  split.
  - intros e _ _. exists d. split; [exact Hd|]. unfold prop at 1 3.
    rewrite (lookup_union_Some_l _ e _ _ Hid),
      (lookup_union_Some_l _ e _ _ Hname). auto.
  - intros o. exists d. split; [exact Hd|]. split.
    + apply (upserted_id o (searchOp ts d)).
      exact (searchOp_settles ts row d Hrow).
    + unfold prop at 1, upserted.
      rewrite lookup_insert_ne by discriminate.
      rewrite lookup_union_r by reflexivity.
      rewrite (lookup_union_Some_l _ _ _ _ Hname). reflexivity.
Qed.

(** A record that has a match in documents that mirror the records is
    Unchanged against its entry in the snapshot. *)
Lemma matched_is_unchanged (docs : list Doc) (d : Doc) :
  Forall (from_records recs) docs -> In d recs ->
  has_match (prop d "id") docs = true ->
  exists e, map_get (snapshot docs) (prop d "id") = Some e
            /\ hasGameDataChanged d e = false.
Proof.
  intros Hdocs Hd Hm. destruct (record_row d Hd) as (row & Hrow).
  unfold snapshot. rewrite snapshot_fold_get.
  assert (Hrev : existsb (matches_id (prop d "id")) (rev docs) = true).
  { etransitivity; [|exact Hm]. apply existsb_Permutation. symmetry.
    apply Permutation_rev. }
  destruct (existsb_find _ _ Hrev) as (e & He). rewrite He.
  exists e. split; [reflexivity|].
  apply find_some in He as [Hin Hme]. apply in_rev in Hin.
  rewrite Forall_forall in Hdocs.
  destruct (Hdocs e (proj2 (list_elem_of_In _ _) Hin)) as (r & Hr & Hid & Hf).
  assert (r = d) as ->.
  { apply Hdistinct; [exact Hr|exact Hd|]. rewrite <- Hid. exact Hme. }
  exact (unchanged_when_fields_agree row d e Hrow Hf).
Qed.

(** When every record is Unchanged the analysis finds nothing to write. *)
Lemma nothing_to_write (m : GamesMap) :
  (forall d, In d recs ->
     exists e, map_get m (prop d "id") = Some e
               /\ hasGameDataChanged d e = false) ->
  newGames (analyzeChanges recs m) = []
  /\ updatedGames (analyzeChanges recs m) = [].
Proof.
  intros H. unfold analyzeChanges. rewrite analyze_fold. simpl.
  assert (Hc : forall d, In d recs -> classify m d = Unchanged).
  { intros d Hd. destruct (H d Hd) as (e & He & Hch).
    unfold classify. rewrite He, Hch. reflexivity. }
  split; apply filter_none; intros d Hd; unfold in_class;
    rewrite (Hc d Hd); reflexivity.
Qed.

(** A record the analysis leaves out of the write has a match. *)
Lemma left_out_is_matched (docs : list Doc) (d : Doc) :
  In d recs ->
  In d (gamesToProcess (analyzeChanges recs (snapshot docs)))
  \/ has_match (prop d "id") docs = true.
Proof.
  intros Hd. unfold gamesToProcess, analyzeChanges.
  rewrite analyze_fold. simpl. rewrite in_app_iff, !filter_In.
  unfold in_class, classify.
  destruct (map_get (snapshot docs) (prop d "id")) as [e|] eqn:E.
  - destruct (hasGameDataChanged d e); [left; right; auto|].
    right. destruct (has_match (prop d "id") docs) eqn:Hm; [reflexivity|].
    assert (Hno : no_match (prop d "id") docs).
    { unfold no_match, has_match in *. apply Forall_forall. intros x Hx.
      apply list_elem_of_In in Hx.
      destruct (matches_id (prop d "id") x) eqn:Hxm; [|reflexivity].
      assert (existsb (matches_id (prop d "id")) docs = true)
        by (apply existsb_exists; eauto).
      congruence. }
    apply snapshot_None in Hno. congruence.
  - left. left. auto.
Qed.

End Records.

(** *** The steps of a run on a store that does not fail *)

Lemma docs_in_written (c : string) (ops : list UpdateOne)
    (st : gmap string (list Doc) * nat) :
  docs_in (written c ops st) c
  = (fold_left apply_updateOne ops (docs_in st c, st.2)).1.
Proof.
  unfold docs_in, written.
  destruct (fold_left apply_updateOne ops _) as [l o]. simpl.
  rewrite lookup_insert_eq. reflexivity.
Qed.

Lemma docs_in_written_ne (c c' : string) (ops : list UpdateOne)
    (st : gmap string (list Doc) * nat) :
  c' <> c -> docs_in (written c ops st) c' = docs_in st c'.
Proof.
  intros Hc. unfold docs_in, written.
  destruct (fold_left apply_updateOne ops _) as [l o]. simpl.
  rewrite lookup_insert_ne by congruence. reflexivity.
Qed.

Lemma ensureConnection_healthy (w : World) :
  healthy w ->
  exists w',
    ensureConnection w = (Ok tt, w')
    /\ healthy w' /\ files w' = files w /\ store_of w' = store_of w.
Proof.
  intros [Hd Hf].
  destruct w as [cols oid dbo conn fs clk reads fls tr]. simpl in *.
  subst dbo fs.
  unfold ensureConnection, connect, ping, isConnected, simple_call, call.
  unfold_monad.
  destruct conn; simpl; eexists; (split; [reflexivity|]);
    repeat split; reflexivity.
Qed.

Lemma bulkWrite_healthy (c : string) (ops : list UpdateOne) (w : World) :
  healthy w ->
  exists w',
    bulkWrite c ops w = (Ok tt, w')
    /\ healthy w' /\ files w' = files w
    /\ store_of w' = written c ops (store_of w).
Proof.
  intros Hw. unfold bulkWrite, run_batch. unfold_monad.
  rewrite (healthy_call _ w Hw). cbv beta iota zeta.
  unfold written, store_of, docs_of. simpl.
  destruct (fold_left apply_updateOne ops _) as [docs oid].
  eexists. split; [reflexivity|]. destruct Hw as [Hd Hf].
  repeat split; assumption.
Qed.

Lemma writeBatches_healthy (g s : string) (b : Batches) (w : World) :
  healthy w ->
  exists w',
    writeBatches g s b w
    = (Ok (mkBatches [] [] (totalProcessed b + length (gamesBatch b))), w')
    /\ healthy w' /\ files w' = files w
    /\ store_of w'
       = written s (searchBatch b) (written g (gamesBatch b) (store_of w)).
Proof.
  intros Hw. rewrite writeBatches_steps.
  destruct (ensureConnection_healthy w Hw) as (w1 & -> & H1 & F1 & S1).
  destruct (bulkWrite_healthy g (gamesBatch b) w1 H1)
    as (w2 & -> & H2 & F2 & S2).
  destruct (bulkWrite_healthy s (searchBatch b) w2 H2)
    as (w3 & -> & H3 & F3 & S3).
  exists w3. split; [reflexivity|]. split; [exact H3|].
  split; [congruence|]. rewrite S3, S2, S1. reflexivity.
Qed.

(** A re-sort on a store that does not fail, whatever the collection
    holds: the other collections are as before and the collection is
    empty as before, or holds its documents again in sorted order. *)
Lemma resortCollection_settles (env : Env) (c label : string) (w : World) :
  healthy w ->
  c <> tempName label w ->
  docs_of w (tempName label w) = [] ->
  Forall sortable (docs_of w c) ->
  exists w',
    resortCollection env c label w = (Ok tt, w')
    /\ healthy w' /\ files w' = files w
    /\ (forall c', c' <> c -> docs_of w' c' = docs_of w c')
    /\ ((docs_of w c = [] /\ docs_of w' c = [])
        \/ exists o,
             docs_of w' c
             = reinserted o (stable_sort (byNameOrEmpty env) (docs_of w c))).
Proof.
  intros Hw Htmp Hempty Hnames.
  destruct (docs_of w c) as [|d0 docs0] eqn:Hdocs.
  - exists (add_event (EvFind c) w).
    unfold resortCollection, resortSteps. unfold try_catch, mbind, M_bind.
    rewrite (healthy_find c w Hw), Hdocs. simpl.
    split; [reflexivity|]. split; [apply healthy_add_event, Hw|].
    split; [reflexivity|]. split; [reflexivity|]. left. auto.
  - destruct (resortCollection_healthy env c label w (d0 :: docs0)
                Hw Hdocs ltac:(discriminate) Hnames Htmp Hempty)
      as (w' & E & C & _ & H' & F').
    exists w'. split; [exact E|]. split; [exact H'|]. split; [exact F'|].
    split.
    + intros c' Hc'. unfold docs_of. rewrite C.
      rewrite lookup_insert_ne by congruence.
      destruct (decide (c' = tempName label w)) as [->|Hne].
      * rewrite lookup_delete_eq. symmetry. exact Hempty.
      * rewrite lookup_delete_ne by congruence. reflexivity.
    + right. eexists. unfold docs_of at 1. rewrite C, lookup_insert_eq.
      reflexivity.
Qed.

Lemma settled_same_store (g s : string) (recs : list Doc)
    (fs : gmap string (list Row)) (w w' : World) :
  settled g s recs fs w ->
  healthy w' -> files w' = files w -> collections w' = collections w ->
  settled g s recs fs w' /\ forall c, keeps_matches c w w'.
Proof.
  intros (Hw & Hfs & Hother & Hg & Hs & Ug & Us) H' F' C'.
  assert (D : forall c, docs_of w' c = docs_of w c).
  { intros c. unfold docs_of. rewrite C'. reflexivity. }
  split.
  - split; [exact H'|]. split; [congruence|].
    rewrite !D. split; [|repeat split; assumption].
    intros c Hcg Hcs. rewrite D. apply Hother; assumption.
  - intros c v. rewrite D. auto.
Qed.

Lemma keeps_matches_trans (c : string) (w1 w2 w3 : World) :
  keeps_matches c w1 w2 -> keeps_matches c w2 w3 -> keeps_matches c w1 w3.
Proof. intros H1 H2 v Hv. apply H2, H1, Hv. Qed.

Lemma written_in_kept (g s : string) (w w' : World) (d : Doc) :
  keeps_matches g w w' -> keeps_matches s w w' ->
  written_in g s w d -> written_in g s w' d.
Proof. intros Kg Ks [Hg Hs]. split; [apply Kg, Hg|apply Ks, Hs]. Qed.

Section Run.
Variables (env : Env) (g s : string) (recs : list Doc).
Variable fs : gmap string (list Row).
Hypothesis Hgs : g <> s.
Hypothesis Hdecoded :
  Forall (fun d => exists row, decodeRow row = Some d) recs.
Hypothesis Hdistinct : distinct_ids recs.

Lemma writeBatches_settled (ts : JsVal) (pending : list Doc) (b : Batches)
    (w : World) :
  settled g s recs fs w ->
  batches_of ts pending b ->
  Forall (fun d => In d recs) pending ->
  exists w',
    writeBatches g s b w
    = (Ok (mkBatches [] [] (totalProcessed b + length (gamesBatch b))), w')
    /\ settled g s recs fs w'
    /\ keeps_matches g w w' /\ keeps_matches s w w'
    /\ forall d, In d pending -> written_in g s w' d.
Proof.
  intros (Hw & Hfs & Hother & Hg & Hs & Ug & Us) [Bg Bs] Hpend.
  destruct (writeBatches_healthy g s b w Hw) as (w' & E & H' & F' & S').
  exists w'. split; [exact E|].
  assert (Dg : docs_of w' g
               = (fold_left apply_updateOne (gamesBatch b)
                    (docs_of w g, next_oid w)).1).
  { change (docs_of w' g) with (docs_in (store_of w') g). rewrite S'.
    rewrite docs_in_written_ne by exact Hgs. apply docs_in_written. }
  assert (Ds : exists o,
             docs_of w' s
             = (fold_left apply_updateOne (searchBatch b)
                  (docs_of w s, o)).1).
  { eexists. change (docs_of w' s) with (docs_in (store_of w') s).
    rewrite S', docs_in_written. simpl.
    rewrite docs_in_written_ne by congruence. reflexivity. }
  destruct Ds as (o & Ds).
  assert (HG : Forall settles (gamesBatch b)).
  { rewrite Bg. apply Forall_fmap. eapply Forall_impl; [exact Hpend|].
    intros d Hd. simpl. destruct (record_row recs Hdecoded d Hd) as (row & Hrow).
    exact (gameOp_settles ts row d Hrow). }
  assert (HS : Forall settles (searchBatch b)).
  { rewrite Bs. apply Forall_fmap. eapply Forall_impl; [exact Hpend|].
    intros d Hd. simpl. destruct (record_row recs Hdecoded d Hd) as (row & Hrow).
    exact (searchOp_settles ts row d Hrow). }
  split; [|split; [|split]].
  - split; [exact H'|]. split; [congruence|]. split; [|split; [|split; [|split]]].
    + intros c Hcg Hcs.
      change (docs_of w' c) with (docs_in (store_of w') c). rewrite S'.
      rewrite !docs_in_written_ne by assumption. apply Hother; assumption.
    + rewrite Dg. apply Forall_fold_apply; [exact Hg|].
      rewrite Bg. apply Forall_fmap. eapply Forall_impl; [exact Hpend|].
      intros d Hd. simpl.
      exact (gameOp_from_records recs Hdecoded Hdistinct ts d Hd).
    + rewrite Ds. apply Forall_fold_apply; [exact Hs|].
      rewrite Bs. apply Forall_fmap. eapply Forall_impl; [exact Hpend|].
      intros d Hd. simpl. exact (searchOp_indexes recs Hdecoded ts d Hd).
    + rewrite Dg. apply one_per_id_fold; [exact HG|exact Ug].
    + rewrite Ds. apply one_per_id_fold; [exact HS|exact Us].
  - intros v Hv. rewrite Dg.
    apply (has_match_fold_mono v _ (docs_of w g, next_oid w) HG Hv).
  - intros v Hv. rewrite Ds.
    apply (has_match_fold_mono v _ (docs_of w s, o) HS Hv).
  - intros d Hd. split.
    + rewrite Dg.
      pose proof (matches_after_batch (gamesBatch b)
                    (docs_of w g, next_oid w) HG) as Hall.
      rewrite Forall_forall in Hall.
      apply (Hall (gameOp ts d)). rewrite Bg.
      apply list_elem_of_fmap. exists d. split; [reflexivity|].
      apply list_elem_of_In, Hd.
    + rewrite Ds.
      pose proof (matches_after_batch (searchBatch b)
                    (docs_of w s, o) HS) as Hall.
      rewrite Forall_forall in Hall.
      apply (Hall (searchOp ts d)). rewrite Bs.
      apply list_elem_of_fmap. exists d. split; [reflexivity|].
      apply list_elem_of_In, Hd.
Qed.

Lemma flushFull_settled (ts : JsVal) (pending : list Doc) (b : Batches)
    (w : World) :
  settled g s recs fs w ->
  batches_of ts pending b ->
  Forall (fun d => In d recs) pending ->
  exists w',
    flushFull g s b w
    = (Ok (mkBatches [] [] (totalProcessed b + length (gamesBatch b))), w')
    /\ settled g s recs fs w'
    /\ keeps_matches g w w' /\ keeps_matches s w w'
    /\ forall d, In d pending -> written_in g s w' d.
Proof.
  intros Hw Hb Hp.
  destruct (writeBatches_settled ts pending b w Hw Hb Hp)
    as (w' & E & H').
  exists w'. rewrite flushFull_retries_once, E. auto.
Qed.

Lemma writeLoop_settled (n : nat) (m : GamesMap) (ts : JsVal)
    (todo : list Doc) :
  Forall (fun d => In d recs) todo ->
  forall (pending : list Doc) (b : Batches) (w : World),
    settled g s recs fs w ->
    batches_of ts pending b ->
    Forall (fun d => In d recs) pending ->
    exists b' w' pending',
      writeLoop g s n m ts todo b w = (Ok b', w')
      /\ settled g s recs fs w'
      /\ batches_of ts pending' b'
      /\ Forall (fun d => In d recs) pending'
      /\ keeps_matches g w w' /\ keeps_matches s w w'
      /\ forall d, In d (pending ++ todo) ->
           In d pending' \/ written_in g s w' d.
Proof.
  induction 1 as [|d todo Hd Htodo IH]; intros pending b w Hw Hb Hp.
  - exists b, w, pending. split; [reflexivity|]. rewrite app_nil_r.
    split; [exact Hw|]. split; [exact Hb|]. split; [exact Hp|].
    split; [intros v Hv; exact Hv|]. split; [intros v Hv; exact Hv|]. auto.
  - cbn [writeLoop]. cbv zeta. unfold mbind, M_bind.
    set (b1 := mkBatches (gamesBatch b ++ [gameOp ts d])
                         (searchBatch b ++ [searchOp ts d])
                         (totalProcessed b)).
    assert (Hb1 : batches_of ts (pending ++ [d]) b1).
    { destruct Hb as [Bg Bs]. split; simpl; rewrite fmap_app;
        [rewrite Bg|rewrite Bs]; reflexivity. }
    assert (Hp1 : Forall (fun d => In d recs) (pending ++ [d])).
    { apply Forall_app. split; [exact Hp|]. constructor; [exact Hd|constructor]. }
    destruct (n <=? length (gamesBatch b1))%nat.
    + destruct (flushFull_settled ts (pending ++ [d]) b1 w Hw Hb1 Hp1)
        as (w1 & -> & H1 & K1 & L1 & M1).
      destruct (IH [] (mkBatches [] []
                         (totalProcessed b1 + length (gamesBatch b1))) w1 H1)
        as (b' & w' & p' & -> & H' & B' & P' & K' & L' & M').
      { split; reflexivity. }
      { constructor. }
      exists b', w', p'. split; [reflexivity|]. split; [exact H'|].
      split; [exact B'|]. split; [exact P'|].
      split; [exact (keeps_matches_trans g w w1 w' K1 K')|].
      split; [exact (keeps_matches_trans s w w1 w' L1 L')|].
      intros x Hx. apply in_app_iff in Hx as [Hx|[<-|Hx]].
      * right. apply (written_in_kept g s w1 w' x K' L'), M1, in_app_iff.
        left. exact Hx.
      * right. apply (written_in_kept g s w1 w' d K' L'), M1, in_app_iff.
        right. left. reflexivity.
      * apply M'. exact Hx.
    + destruct (IH (pending ++ [d]) b1 w Hw Hb1 Hp1)
        as (b' & w' & p' & E & H' & B' & P' & K' & L' & M').
      exists b', w', p'. split; [exact E|]. split; [exact H'|].
      split; [exact B'|]. split; [exact P'|]. split; [exact K'|].
      split; [exact L'|].
      intros x Hx. apply M'. rewrite <- app_assoc. exact Hx.
Qed.

Lemma flushRest_writes (b : Batches) (w : World) :
  flushRest g s b w
  = if (0 <? length (gamesBatch b))%nat then
      match writeBatches g s b w with
      | (Ok b', w') => (Ok (totalProcessed b'), w')
      | (Throw e, w') => (Throw e, w')
      end
    else (Ok (totalProcessed b), w).
Proof.
  unfold flushRest. destruct (0 <? length (gamesBatch b))%nat; [|reflexivity].
  rewrite writeBatches_steps. unfold mbind, M_bind, mret, M_ret.
  destruct (ensureConnection w) as [[[]|e] w1]; [|reflexivity].
  destruct (bulkWrite g (gamesBatch b) w1) as [[[]|e] w2]; [|reflexivity].
  destruct (bulkWrite s (searchBatch b) w2) as [[[]|e] w3]; reflexivity.
Qed.

Lemma flushRest_settled (ts : JsVal) (pending : list Doc) (b : Batches)
    (w : World) :
  settled g s recs fs w ->
  batches_of ts pending b ->
  Forall (fun d => In d recs) pending ->
  exists total w',
    flushRest g s b w = (Ok total, w')
    /\ settled g s recs fs w'
    /\ keeps_matches g w w' /\ keeps_matches s w w'
    /\ forall d, In d pending -> written_in g s w' d.
Proof.
  intros Hw Hb Hp. rewrite flushRest_writes.
  destruct (0 <? length (gamesBatch b))%nat eqn:E.
  - destruct (writeBatches_settled ts pending b w Hw Hb Hp)
      as (w' & -> & H').
    eexists _, w'. split; [reflexivity|exact H'].
  - exists (totalProcessed b), w. split; [reflexivity|].
    split; [exact Hw|]. split; [intros v Hv; exact Hv|].
    split; [intros v Hv; exact Hv|].
    destruct Hb as [Bg _]. rewrite Bg in E. rewrite length_fmap in E.
    destruct pending; [intros d []|discriminate].
Qed.

Hypothesis Hstaging :
  forall label w, In label ["board_games"; "games_search"] ->
    g <> tempName label w /\ s <> tempName label w.

Lemma resort_games_settled (label : string) (w : World) :
  In label ["board_games"; "games_search"] ->
  settled g s recs fs w ->
  exists w',
    resortCollection env g label w = (Ok tt, w')
    /\ settled g s recs fs w'
    /\ keeps_matches g w w' /\ keeps_matches s w w'
    /\ (Consistent (localeCompare env) -> in_name_order env (docs_of w' g)).
Proof.
  intros Hl (Hw & Hfs & Hother & Hg & Hs & Ug & Us).
  destruct (Hstaging label w Hl) as [Tg Ts].
  destruct (resortCollection_settles env g label w Hw Tg)
    as (w' & E & H' & F' & Dother & Dg).
  { apply Hother; congruence. }
  { eapply Forall_impl; [exact Hg|]. intros e He.
    exact (from_records_sortable recs e Hdecoded He). }
  exists w'. split; [exact E|].
  assert (Ks : keeps_matches s w w').
  { intros v. rewrite Dother by congruence. auto. }
  destruct Dg as [[D0 D1]|[o D]].
  - split; [|split; [|split; [exact Ks|]]];
      [| |intros _; rewrite D1; constructor].
    + split; [exact H'|]. split; [congruence|].
      split; [|split; [|split; [|split]]].
      * intros c Hcg Hcs. rewrite Dother by exact Hcg. apply Hother; auto.
      * rewrite D1. constructor.
      * rewrite Dother by congruence. exact Hs.
      * rewrite D1. apply one_per_id_nil.
      * rewrite Dother by congruence. exact Us.
    + intros v. rewrite D0. discriminate.
  - split; [|split; [|split; [exact Ks|]]];
      [| |intros Hc; rewrite D; apply resorted_in_name_order, Hc].
    + split; [exact H'|]. split; [congruence|].
      split; [|split; [|split; [|split]]].
      * intros c Hcg Hcs. rewrite Dother by exact Hcg. apply Hother; auto.
      * rewrite D. apply Forall_resorted; [|exact Hg].
        intros v d. apply from_records_reinserted.
      * rewrite Dother by congruence. exact Hs.
      * rewrite D. apply one_per_id_resorted, Ug.
      * rewrite Dother by congruence. exact Us.
    + intros v. rewrite D, has_match_resorted. auto.
Qed.

Lemma resort_search_settled (label : string) (w : World) :
  In label ["board_games"; "games_search"] ->
  settled g s recs fs w ->
  exists w',
    resortCollection env s label w = (Ok tt, w')
    /\ settled g s recs fs w'
    /\ keeps_matches g w w' /\ keeps_matches s w w'
    /\ docs_of w' g = docs_of w g
    /\ (Consistent (localeCompare env) -> in_name_order env (docs_of w' s)).
Proof.
  intros Hl (Hw & Hfs & Hother & Hg & Hs & Ug & Us).
  destruct (Hstaging label w Hl) as [Tg Ts].
  destruct (resortCollection_settles env s label w Hw Ts)
    as (w' & E & H' & F' & Dother & Ds).
  { apply Hother; congruence. }
  { eapply Forall_impl; [exact Hs|]. intros e He.
    exact (indexes_sortable recs e Hdecoded He). }
  exists w'. split; [exact E|].
  assert (Kg : keeps_matches g w w').
  { intros v. rewrite Dother by exact Hgs. auto. }
  destruct Ds as [[D0 D1]|[o D]].
  - split; [|split; [exact Kg|split; [|split; [exact (Dother g Hgs)|]]]];
      [| |intros _; rewrite D1; constructor].
    + split; [exact H'|]. split; [congruence|].
      split; [|split; [|split; [|split]]].
      * intros c Hcg Hcs. rewrite Dother by exact Hcs. apply Hother; auto.
      * rewrite Dother by exact Hgs. exact Hg.
      * rewrite D1. constructor.
      * rewrite Dother by exact Hgs. exact Ug.
      * rewrite D1. apply one_per_id_nil.
    + intros v. rewrite D0. discriminate.
  - split; [|split; [exact Kg|split; [|split; [exact (Dother g Hgs)|]]]];
      [| |intros Hc; rewrite D; apply resorted_in_name_order, Hc].
    + split; [exact H'|]. split; [congruence|].
      split; [|split; [|split; [|split]]].
      * intros c Hcg Hcs. rewrite Dother by exact Hcs. apply Hother; auto.
      * rewrite Dother by exact Hgs. exact Hg.
      * rewrite D. apply Forall_resorted; [|exact Hs].
        intros v d. apply indexes_reinserted.
      * rewrite Dother by exact Hgs. exact Ug.
      * rewrite D. apply one_per_id_resorted, Us.
    + intros v. rewrite D, has_match_resorted. auto.
Qed.

Lemma record_has_name (d : Doc) : In d recs -> is_Some (name_strict d).
Proof.
  intros Hd. destruct (record_row recs Hdecoded d Hd) as (row & Hrow).
  destruct (decoded_name_string row d Hrow) as (n & Hn & _).
  unfold name_strict, prop. rewrite Hn. simpl. eauto.
Qed.

(** The ['end'] handler on a settled store: it returns, the store is
    settled again, and every record of the file has a match in the record
    collection; a record that had none before has one in the search
    collection too. *)
Lemma onEnd_settled (n : nat) (w : World) :
  settled g s recs fs w ->
  exists r w',
    onEnd env g s n recs w = (Ok r, w')
    /\ settled g s recs fs w'
    /\ (forall d, In d recs ->
          written_in g s w' d
          \/ (has_match (prop d "id") (docs_of w g) = true
              /\ has_match (prop d "id") (docs_of w' g) = true))
    /\ (collections w' = collections w
        \/ (Consistent (localeCompare env) ->
            in_name_order env (docs_of w' g)
            /\ in_name_order env (docs_of w' s))).
Proof.
  intros Hw. pose proof Hw as (Hh & _).
  unfold onEnd. unfold mbind, M_bind.
  rewrite (healthy_find g w Hh). cbv beta iota zeta.
  set (w1 := add_event (EvFind g) w).
  destruct (settled_same_store g s recs fs w w1 Hw
              (healthy_add_event _ _ Hh) eq_refl eq_refl) as [H1 K1].
  set (m := snapshot (docs_of w g)).
  set (a := analyzeChanges recs m).
  destruct (negb _) eqn:Hch.
  - exists noChangesResult, w1. split; [reflexivity|]. split; [exact H1|].
    split; [|left; reflexivity].
    intros d Hd. right.
    destruct (left_out_is_matched recs (docs_of w g) d Hd) as [Hin|Hm];
      [|split; [exact Hm|exact (K1 g _ Hm)]].
    exfalso. fold m in Hin. fold a in Hin. unfold gamesToProcess in Hin.
    apply negb_true_iff, orb_false_iff in Hch as [Hn Hu].
    destruct (newGames a); [|discriminate].
    destruct (updatedGames a); [|discriminate]. destruct Hin.
  - assert (Htodo : Forall (fun d => In d recs) (gamesToProcess a)).
    { apply Forall_forall. intros d Hd. apply list_elem_of_In in Hd.
      exact (gamesToProcess_In recs m d Hd). }
    rewrite sortByName_decoded.
    2:{ eapply Forall_impl; [exact Htodo|]. intros d. apply record_has_name. }
    cbv beta iota zeta. unfold now at 1. cbv beta iota zeta.
    set (ts := VDate _).
    set (w2 := set_clock_reads _ w1).
    assert (Hh2 : healthy w2).
    { destruct H1 as ([Hd1 Hf1] & _). split; assumption. }
    destruct (settled_same_store g s recs fs w1 w2 H1 Hh2 eq_refl eq_refl)
      as [H2 K2].
    set (sorted := stable_sort (byName env) (gamesToProcess a)).
    assert (Hsorted : Forall (fun d => In d recs) sorted).
    { rewrite Forall_forall in *. intros d Hd. apply Htodo.
      apply list_elem_of_In. apply list_elem_of_In in Hd.
      eapply Permutation_in; [apply stable_sort_perm|exact Hd]. }
    destruct (writeLoop_settled n m ts sorted Hsorted [] (mkBatches [] [] 0)
                w2 H2)
      as (b & w3 & p & -> & H3 & B3 & P3 & K3 & L3 & M3).
    { split; reflexivity. }
    { constructor. }
    cbv beta iota zeta.
    destruct (flushRest_settled ts p b w3 H3 B3 P3)
      as (total & w4 & -> & H4 & K4 & L4 & M4).
    cbv beta iota zeta.
    destruct (resort_games_settled "board_games" w4)
      as (w5 & -> & H5 & K5 & L5 & O5); [simpl; auto|exact H4|].
    cbv beta iota zeta.
    destruct (resort_search_settled "games_search" w5)
      as (w6 & -> & H6 & K6 & L6 & D6 & O6); [simpl; auto|exact H5|].
    cbv beta iota zeta.
    eexists _, w6. split; [reflexivity|]. split; [exact H6|].
    split; [|right; intros Hc; rewrite D6; auto].
    intros d Hd.
    destruct (left_out_is_matched recs (docs_of w g) d Hd) as [Hin|Hm].
    + left. fold m in Hin. fold a in Hin.
      apply (written_in_kept g s w5 w6 d K6 L6).
      apply (written_in_kept g s w4 w5 d K5 L5).
      assert (Hs : In d ([] ++ sorted)).
      { simpl. eapply Permutation_in; [|exact Hin].
        symmetry. apply stable_sort_perm. }
      destruct (M3 d Hs) as [Hp|Hm3]; [exact (M4 d Hp)|].
      exact (written_in_kept g s w3 w4 d K4 L4 Hm3).
    + right. split; [exact Hm|].
      apply K6, K5, K4, K3, (K2 g), (K1 g), Hm.
Qed.

End Run.

Lemma decoded_are_decoded (rows : list Row) :
  Forall (fun d => exists row, decodeRow row = Some d) (decoded rows).
Proof.
  apply Forall_forall. intros d Hd. rewrite decoded_rows in Hd.
  apply list_elem_of_omap in Hd as (row & _ & Hrow). eauto.
Qed.

Lemma staging_names (label : string) (w : World) :
  In label ["board_games"; "games_search"] ->
  "board_games" <> tempName label w /\ "games_search" <> tempName label w.
Proof.
  unfold tempName. intros [<-|[<-|[]]]; split; intros E; simpl in E;
    discriminate E.
Qed.

(** A run of the handler on a store where every record has a match that
    mirrors it finds nothing to write. *)
Lemma handler_finds_nothing (env : Env) (g s : string) (n : nat)
    (rows : list Row) (w : World) :
  healthy w ->
  distinct_ids (decoded rows) ->
  Forall (from_records (decoded rows)) (docs_of w g) ->
  (forall d, In d (decoded rows) ->
     has_match (prop d "id") (docs_of w g) = true) ->
  exists w',
    onEnd env g s n (decoded rows) w = (Ok noChangesResult, w')
    /\ collections w' = collections w.
Proof.
  intros Hh Hdist Hg Hm.
  pose proof (decoded_are_decoded rows) as Hdec.
  destruct (nothing_to_write (decoded rows) (snapshot (docs_of w g)))
    as [Hn Hu].
  { intros d Hd.
    exact (matched_is_unchanged (decoded rows) Hdec Hdist _ d Hg Hd (Hm d Hd)). }
  unfold onEnd. unfold mbind, M_bind.
  rewrite (healthy_find g w Hh). cbv beta iota zeta.
  rewrite Hn, Hu. simpl. eexists. split; reflexivity.
Qed.

Lemma empty_store_settled (rows : list Row) (w : World) :
  healthy w -> empty_store w ->
  settled "board_games" "games_search" (decoded rows) (files w) w.
Proof.
  intros Hh Hempty. split; [exact Hh|]. split; [reflexivity|].
  split; [intros c _ _; apply Hempty|].
  rewrite !Hempty.
  split; [constructor|]. split; [constructor|].
  split; apply one_per_id_nil.
Qed.

(** The handler on an empty store: it resolves and every record is
    written to both collections. *)
Lemma first_import_writes_all (env : Env) (n : nat) (rows : list Row)
    (w : World) :
  healthy w -> empty_store w ->
  distinct_ids (decoded rows) ->
  exists r w1,
    onEnd env "board_games" "games_search" n (decoded rows) w = (Ok r, w1)
    /\ settled "board_games" "games_search" (decoded rows) (files w) w1
    /\ (forall d, In d (decoded rows) ->
          written_in "board_games" "games_search" w1 d)
    /\ (Consistent (localeCompare env) ->
        in_name_order env (docs_of w1 "board_games")
        /\ in_name_order env (docs_of w1 "games_search")).
Proof.
  intros Hh Hempty Hdist.
  destruct (onEnd_settled env "board_games" "games_search" (decoded rows)
              (files w) ltac:(discriminate) (decoded_are_decoded rows)
              Hdist staging_names n w (empty_store_settled rows w Hh Hempty))
    as (r & w1 & E1 & H1 & M1 & O1).
  exists r, w1. split; [exact E1|]. split; [exact H1|]. split.
  - intros d Hd. destruct (M1 d Hd) as [Hw|[H0 _]]; [exact Hw|].
    rewrite Hempty in H0. discriminate.
  - destruct O1 as [C1|O1]; [|exact O1].
    intros _. unfold docs_of. rewrite C1.
    change (in_name_order env (docs_of w "board_games")
            /\ in_name_order env (docs_of w "games_search")).
    rewrite !Hempty. split; constructor.
Qed.

(** X12.  The first import converges.  This is about the ['end'] handler
    of [processCsvFile] (lines 68 to 239), given the rows of a file; the
    steps of lines 25 to 27 before it are not part of it.  On a store
    that does not fail and holds no document, with the collections named
    [board_games] and [games_search] and rows in which no two different
    records share an [id], the handler resolves and leaves in
    [board_games] only documents that mirror records of the file (same
    [id], same compared fields), one at least for every record.  The
    store still does not fail, and the handler run again on the same
    rows, with any batch size, from any state of a store that does not
    fail and holds what the first run left, finds every record Unchanged:
    it resolves with the no-changes result and leaves the collections as
    they are. *)
Theorem second_run_finds_nothing
    (env : Env) (n : nat) (rows : list Row) (w : World) :
  healthy w -> empty_store w ->
  distinct_ids (decoded rows) ->
  exists r w1,
    onEnd env "board_games" "games_search" n (decoded rows) w = (Ok r, w1)
    /\ Forall (from_records (decoded rows)) (docs_of w1 "board_games")
    /\ (forall d, In d (decoded rows) ->
          has_match (prop d "id") (docs_of w1 "board_games") = true)
    /\ healthy w1
    /\ forall (n' : nat) (w1' : World),
         healthy w1' -> collections w1' = collections w1 ->
         exists w2,
           onEnd env "board_games" "games_search" n' (decoded rows) w1'
           = (Ok noChangesResult, w2)
           /\ collections w2 = collections w1.
Proof.
  intros Hh Hempty Hdist.
  destruct (first_import_writes_all env n rows w Hh Hempty Hdist)
    as (r & w1 & E1 & H1 & M1 & _).
  pose proof H1 as (Hh1 & _ & _ & G1 & _).
  exists r, w1. split; [exact E1|]. split; [exact G1|].
  split; [intros d Hd; apply (M1 d Hd)|]. split; [exact Hh1|].
  intros n' w1' Hh' Hc'.
  assert (D : docs_of w1' "board_games" = docs_of w1 "board_games")
    by (unfold docs_of; rewrite Hc'; reflexivity).
  destruct (handler_finds_nothing env "board_games" "games_search" n' rows
              w1' Hh' Hdist) as (w2 & E2 & C2).
  { rewrite D. exact G1. }
  { intros d Hd. rewrite D. apply (M1 d Hd). }
  exists w2. split; [exact E2|]. congruence.
Qed.

Lemma sample_store_empty (rows : list Row) :
  empty_store (Sample.world rows [] [] []).
Proof.
  intros c. unfold docs_of. simpl.
  destruct (decide (c = "board_games")) as [->|H1]; [reflexivity|].
  rewrite lookup_insert_ne by congruence.
  destruct (decide (c = "games_search")) as [->|H2]; [reflexivity|].
  rewrite lookup_insert_ne by congruence. reflexivity.
Qed.

Lemma sample_rows_distinct :
  distinct_ids (decoded [Sample.row "2" "Zed" "1"; Sample.row "x" "" "";
                         Sample.row "1" "ant" "7"]).
Proof.
  assert (E : decoded [Sample.row "2" "Zed" "1"; Sample.row "x" "" "";
                       Sample.row "1" "ant" "7"]
              = [default ∅ (decodeRow (Sample.row "2" "Zed" "1"));
                 default ∅ (decodeRow (Sample.row "1" "ant" "7"))])
    by reflexivity.
  intros d d'. rewrite E.
  intros [<-|[<-|[]]] [<-|[<-|[]]] Hs; try reflexivity;
    vm_compute in Hs; discriminate Hs.
Qed.

Lemma second_run_finds_nothing_witness :
  let rows := [Sample.row "2" "Zed" "1"; Sample.row "x" "" "";
               Sample.row "1" "ant" "7"] in
  let w := Sample.world rows [] [] [] in
  healthy w /\ empty_store w
  /\ distinct_ids (decoded rows)
  /\ exists r w1,
       onEnd Sample.env "board_games" "games_search" 500 (decoded rows) w
       = (Ok r, w1)
       /\ Forall (from_records (decoded rows)) (docs_of w1 "board_games")
       /\ (forall d, In d (decoded rows) ->
             has_match (prop d "id") (docs_of w1 "board_games") = true)
       /\ healthy w1
       /\ forall (n' : nat) (w1' : World),
            healthy w1' -> collections w1' = collections w1 ->
            exists w2,
              onEnd Sample.env "board_games" "games_search" n'
                (decoded rows) w1'
              = (Ok noChangesResult, w2)
              /\ collections w2 = collections w1.
Proof.
  intros rows w.
  assert (Hh : healthy w) by (split; reflexivity).
  split; [exact Hh|]. split; [exact (sample_store_empty rows)|].
  split; [exact sample_rows_distinct|].
  exact (second_run_finds_nothing Sample.env 500 rows w
           Hh (sample_store_empty rows) sample_rows_distinct).
Defined.

(** Two rows with one [id] and different names: the handler run again
    still finds a record to write. *)
Example duplicate_ids_never_settle :
  let rows := [Sample.row "1" "Ant" "5"; Sample.row "1" "Bee" "5"] in
  let w := Sample.world rows [] [] [] in
  let w1 := (onEnd Sample.env "board_games" "games_search" 500
               (decoded rows) w).2 in
  (onEnd Sample.env "board_games" "games_search" 500 (decoded rows) w1).1
  = Ok (list_to_map [ ("totalProcessed", js_nat 1);
                      ("newGamesCount", js_nat 0);
                      ("updatedGamesCount", js_nat 1) ]).
Proof. vm_compute. reflexivity. Qed.

(** *** One document for each record *)

Lemma the_one_match (v : JsVal) (l : list Doc) :
  one_per_id l -> has_match v l = true ->
  exists e, List.filter (matches_id v) l = [e]
            /\ In e l /\ matches_id v e = true.
Proof.
  intros Hone Hm. pose proof (count_id_some v l Hm) as H1.
  specialize (Hone v). unfold count_id in *.
  destruct (List.filter (matches_id v) l) as [|e [|e' r]] eqn:E;
    simpl in *; try lia.
  exists e. split; [reflexivity|].
  apply filter_In. rewrite E. left. reflexivity.
Qed.

(** X13.  After the first import each record has one document in each
    collection.  Under the conditions of X12 the ['end'] handler leaves
    for every record of the file exactly one document of [board_games]
    with its [id], which mirrors the record (same [id], same compared
    fields), and exactly one entry of [games_search] with its [id], which
    has the name of the record; and neither collection holds a document
    that belongs to no record. *)
Theorem first_import_one_document_per_record
    (env : Env) (n : nat) (rows : list Row) (w : World) :
  healthy w -> empty_store w ->
  distinct_ids (decoded rows) ->
  exists r w1,
    onEnd env "board_games" "games_search" n (decoded rows) w = (Ok r, w1)
    /\ (forall d, In d (decoded rows) ->
          (exists e,
             List.filter (matches_id (prop d "id")) (docs_of w1 "board_games")
             = [e] /\ mirrors e d)
          /\ (exists e,
                List.filter (matches_id (prop d "id"))
                  (docs_of w1 "games_search") = [e]
                /\ prop e "name" = prop d "name"))
    /\ Forall (from_records (decoded rows)) (docs_of w1 "board_games")
    /\ Forall (indexes (decoded rows)) (docs_of w1 "games_search").
Proof.
  intros Hh Hempty Hdist.
  destruct (first_import_writes_all env n rows w Hh Hempty Hdist)
    as (r & w1 & E1 & H1 & M1 & _).
  destruct H1 as (_ & _ & _ & G1 & S1 & Ug & Us).
  exists r, w1. split; [exact E1|]. split; [|split; assumption].
  intros d Hd. destruct (M1 d Hd) as [Mg Ms]. split.
  - destruct (the_one_match _ _ Ug Mg) as (e & Ef & Hin & Hm).
    exists e. split; [exact Ef|].
    rewrite Forall_forall in G1.
    destruct (G1 e (proj2 (list_elem_of_In _ _) Hin)) as (d' & Hd' & Hid & Hf).
    assert (d' = d) as ->.
    { apply Hdist; [exact Hd'|exact Hd|]. rewrite <- Hid. exact Hm. }
    split; assumption.
  - destruct (the_one_match _ _ Us Ms) as (e & Ef & Hin & Hm).
    exists e. split; [exact Ef|].
    rewrite Forall_forall in S1.
    destruct (S1 e (proj2 (list_elem_of_In _ _) Hin)) as (d' & Hd' & Hid & Hn).
    assert (d' = d) as ->.
    { apply Hdist; [exact Hd'|exact Hd|]. rewrite <- Hid. exact Hm. }
    exact Hn.
Qed.

Lemma first_import_one_document_per_record_witness :
  let rows := [Sample.row "2" "Zed" "1"; Sample.row "x" "" "";
               Sample.row "1" "ant" "7"] in
  let w := Sample.world rows [] [] [] in
  healthy w /\ empty_store w
  /\ distinct_ids (decoded rows)
  /\ exists r w1,
       onEnd Sample.env "board_games" "games_search" 500 (decoded rows) w
       = (Ok r, w1)
       /\ (forall d, In d (decoded rows) ->
             (exists e,
                List.filter (matches_id (prop d "id"))
                  (docs_of w1 "board_games") = [e] /\ mirrors e d)
             /\ (exists e,
                   List.filter (matches_id (prop d "id"))
                     (docs_of w1 "games_search") = [e]
                   /\ prop e "name" = prop d "name"))
       /\ Forall (from_records (decoded rows)) (docs_of w1 "board_games")
       /\ Forall (indexes (decoded rows)) (docs_of w1 "games_search").
Proof.
  intros rows w.
  assert (Hh : healthy w) by (split; reflexivity).
  split; [exact Hh|]. split; [exact (sample_store_empty rows)|].
  split; [exact sample_rows_distinct|].
  exact (first_import_one_document_per_record Sample.env 500 rows w
           Hh (sample_store_empty rows) sample_rows_distinct).
Defined.

(** X14.  After the first import both collections are in name order.
    Under the conditions of X12, and when the collation is a consistent
    comparator, the ['end'] handler leaves [board_games] and
    [games_search] sorted by name: no document comes after a later
    one. *)
Theorem first_import_in_name_order
    (env : Env) (n : nat) (rows : list Row) (w : World) :
  Consistent (localeCompare env) ->
  healthy w -> empty_store w ->
  distinct_ids (decoded rows) ->
  exists r w1,
    onEnd env "board_games" "games_search" n (decoded rows) w = (Ok r, w1)
    /\ StronglySorted (fun a b => byNameOrEmpty env a b <= 0)
         (docs_of w1 "board_games")
    /\ StronglySorted (fun a b => byNameOrEmpty env a b <= 0)
         (docs_of w1 "games_search").
Proof.
  intros Hc Hh Hempty Hdist.
  destruct (first_import_writes_all env n rows w Hh Hempty Hdist)
    as (r & w1 & E1 & _ & _ & O1).
  exists r, w1. split; [exact E1|]. exact (O1 Hc).
Qed.

Lemma first_import_in_name_order_witness :
  let rows := [Sample.row "2" "Zed" "1"; Sample.row "x" "" "";
               Sample.row "1" "ant" "7"] in
  let w := Sample.world rows [] [] [] in
  Consistent (localeCompare Sample.env)
  /\ healthy w /\ empty_store w
  /\ distinct_ids (decoded rows)
  /\ exists r w1,
       onEnd Sample.env "board_games" "games_search" 500 (decoded rows) w
       = (Ok r, w1)
       /\ StronglySorted (fun a b => byNameOrEmpty Sample.env a b <= 0)
            (docs_of w1 "board_games")
       /\ StronglySorted (fun a b => byNameOrEmpty Sample.env a b <= 0)
            (docs_of w1 "games_search").
Proof.
  intros rows w.
  assert (Hh : healthy w) by (split; reflexivity).
  split; [exact compare_caseless_consistent|].
  split; [exact Hh|]. split; [exact (sample_store_empty rows)|].
  split; [exact sample_rows_distinct|].
  exact (first_import_in_name_order Sample.env 500 rows w
           compare_caseless_consistent Hh
           (sample_store_empty rows) sample_rows_distinct).
Defined.

End ConvergeFacts.


(* ===================================================================== *)
(** ** A re-sort that is interrupted                                       *)
(* ===================================================================== *)

Module PutBackFacts.
Import Database RunFacts SortFacts HealthFacts RetryFacts ResortFacts.

Lemma call_next (e : Event) (w : World) (rest : list (option Fault)) :
  faults w = None :: rest ->
  call e w = (Ok None, set_faults rest (add_event e w)).
Proof. intros Hf. unfold call. rewrite Hf. reflexivity. Qed.

Lemma find_next (c : string) (w : World) (rest : list (option Fault)) :
  faults w = None :: rest ->
  find c w = (Ok (docs_of w c), set_faults rest (add_event (EvFind c) w)).
Proof.
  intros Hf. unfold find, simple_call. unfold_monad.
  rewrite (call_next _ w rest Hf). reflexivity.
Qed.

Lemma deleteMany_next (c : string) (w : World) (rest : list (option Fault)) :
  faults w = None :: rest ->
  deleteMany c w
  = (Ok tt, set_collections (insert c [])
              (set_faults rest (add_event (EvDeleteMany c) w))).
Proof.
  intros Hf. unfold deleteMany, simple_call. unfold_monad.
  rewrite (call_next _ w rest Hf). reflexivity.
Qed.

Lemma slices_single (docs : list Doc) :
  docs <> [] -> (length docs <= 1000)%nat ->
  slices (length docs) 1000 docs = [docs].
Proof.
  intros Hne Hlen. destruct docs as [|d docs]; [congruence|].
  cbn [length slices].
  rewrite firstn_all2 by exact Hlen.
  rewrite skipn_all2 by exact Hlen.
  destruct (length docs); reflexivity.
Qed.

Lemma insertInBatches_next (c : string) (docs : list Doc) (w : World)
    (rest : list (option Fault)) :
  docs <> [] -> (length docs <= 1000)%nat ->
  faults w = None :: rest ->
  exists w',
    insertInBatches c docs w = (Ok tt, w')
    /\ collections w'
       = <[c := docs_of w c ++ reinserted (next_oid w) docs]> (collections w)
    /\ next_oid w' = (next_oid w + length docs)%nat
    /\ faults w' = rest /\ db_open w' = db_open w
    /\ clock w' = clock w /\ clock_reads w' = clock_reads w.
Proof.
  intros Hne Hlen Hf. unfold insertInBatches.
  rewrite (slices_single docs Hne Hlen). cbn [insertSlices].
  unfold insertMany, run_batch. unfold_monad.
  rewrite (call_next _ w rest Hf). cbv beta iota zeta.
  change (docs_of (set_faults rest (add_event _ w)) c) with (docs_of w c).
  change (next_oid (set_faults rest (add_event _ w))) with (next_oid w).
  rewrite fold_apply_insert.
  eexists. split; [reflexivity|]. repeat split.
Qed.

Lemma firstn_imap {A B} (g : nat -> A -> B) (k : nat) (l : list A) :
  firstn k (imap g l) = imap g (firstn k l).
Proof.
  revert g k. induction l as [|x l IH]; intros g [|k]; try reflexivity.
  simpl. f_equal. apply IH.
Qed.

(** The first [insertMany] of a put-back fails after [fault_applied]
    documents. *)
Lemma insertInBatches_fails (c : string) (docs : list Doc) (w : World)
    (f : Fault) (rest : list (option Fault)) :
  docs <> [] -> (length docs <= 1000)%nat ->
  faults w = Some f :: rest ->
  exists w',
    insertInBatches c docs w = (Throw (Error (fault_message f)), w')
    /\ collections w'
       = <[c := docs_of w c
                ++ reinserted (next_oid w) (firstn (fault_applied f) docs)]>
           (collections w)
    /\ trace w' = trace w ++ [EvInsertMany c (length docs)].
Proof.
  intros Hne Hlen Hf. unfold insertInBatches.
  rewrite (slices_single docs Hne Hlen). cbn [insertSlices].
  unfold insertMany, run_batch, call. unfold_monad.
  rewrite Hf. cbv beta iota zeta. cbn [head].
  assert (E : firstn (fault_applied f) (strip_id <$> docs)
              = strip_id <$> firstn (fault_applied f) docs).
  { symmetry. apply fmap_take. }
  rewrite length_fmap.
  destruct (fault_disconnects f); cbv beta iota zeta;
    unfold docs_of; simpl; unfold docs_of in E; rewrite E, fold_apply_insert;
    eexists; (split; [reflexivity|]); split; reflexivity.
Qed.

(** X15.  A re-sort is not atomic.  When the collection holds at most
    1000 documents and the [insertMany] that puts them back fails after
    [k] documents (every call before it having succeeded), the call still
    returns normally: the collection is left with only the first [k]
    documents of the sorted order, the staging collection is not dropped
    and holds the full sorted copy, and the only report is the message on
    the console. *)
Theorem interrupted_put_back
    (env : Env) (collection collectionName : string) (w : World)
    (docs : list Doc) (f : Fault) (rest : list (option Fault)) :
  db_open w = true ->
  faults w = [None; None; None; None; Some f] ++ rest ->
  docs_of w collection = docs ->
  docs <> [] -> (length docs <= 1000)%nat ->
  Forall (fun d => is_Some (name_or_empty d)) docs ->
  collection <> tempName collectionName w ->
  docs_of w (tempName collectionName w) = [] ->
  let sorted := stable_sort (byNameOrEmpty env) docs in
  exists w',
    resortCollection env collection collectionName w = (Ok tt, w')
    /\ docs_of w' collection
       = reinserted (next_oid w + length docs)
           (firstn (fault_applied f) sorted)
    /\ docs_of w' (tempName collectionName w) = reinserted (next_oid w) sorted
    /\ last (trace w')
       = Some (EvConsoleError
                 ("Failed to sort " +:+ collectionName +:+ ": "
                  +:+ fault_message f)).
Proof.
  intros Hd Hf Hdocs Hne Hlen Hnames Htmp Hempty sorted.
  set (tmp := tempName collectionName w) in *.
  assert (Hslen : length sorted = length docs).
  { apply Permutation_length, stable_sort_perm. }
  assert (Hsne : sorted <> []).
  { intros E. rewrite E in Hslen. destruct docs; [congruence|discriminate]. }
  unfold resortCollection, resortSteps. unfold try_catch, mbind, M_bind.
  simpl in Hf.
  rewrite (find_next collection w _ Hf), Hdocs. cbv beta iota zeta.
  replace (length docs =? 0)%nat with false
    by (destruct docs; [congruence|reflexivity]).
  rewrite (sortByName_named env docs _ Hnames). cbv beta iota zeta.
  unfold now at 1. cbv beta iota zeta.
  match goal with
  | |- context [pretty (clock ?a (clock_reads ?b))] =>
      change (clock a (clock_reads b)) with (clock w (clock_reads w))
  end.
  fold (tempName collectionName w). fold tmp. fold sorted.
  set (w1 := set_clock_reads _ _).
  unfold getCollection at 1, getDb at 1.
  unfold mbind, M_bind, mret, M_ret, get_world.
  change (db_open w1) with (db_open w). rewrite Hd. cbv beta iota zeta.
  destruct (insertInBatches_next tmp sorted w1 (None :: None :: Some f :: rest))
    as (w2 & -> & C2 & O2 & F2 & D2 & _); [exact Hsne|lia|reflexivity|].
  cbv beta iota zeta.
  change (docs_of w1 tmp) with (docs_of w tmp) in C2. rewrite Hempty in C2.
  change (collections w1) with (collections w) in C2.
  change (next_oid w1) with (next_oid w) in C2, O2. simpl in C2.
  rewrite (deleteMany_next collection w2 _ F2). cbv beta iota zeta.
  set (w3 := set_collections _ _).
  rewrite (find_next tmp w3 (Some f :: rest) eq_refl). cbv beta iota zeta.
  assert (E3 : docs_of w3 tmp = reinserted (next_oid w) sorted).
  { unfold docs_of, w3. simpl. rewrite lookup_insert_ne by exact Htmp.
    rewrite C2, lookup_insert_eq. reflexivity. }
  rewrite E3.
  set (w4 := set_faults _ (add_event (EvFind tmp) w3)).
  destruct (insertInBatches_fails collection
              (reinserted (next_oid w) sorted) w4 f rest)
    as (w5 & -> & C5 & T5).
  { intros E. apply (f_equal length) in E.
    rewrite reinserted_length in E. destruct sorted; [congruence|].
    discriminate. }
  { rewrite reinserted_length. lia. }
  { reflexivity. }
  cbv beta iota zeta. unfold console_error, emit, modify.
  eexists. split; [reflexivity|].
  assert (E4 : docs_of w4 collection = []).
  { unfold docs_of, w4, w3. simpl. rewrite lookup_insert_eq. reflexivity. }
  rewrite E4 in C5. simpl in C5.
  change (next_oid w4) with (next_oid w2) in C5. rewrite O2, Hslen in C5.
  change (collections w4) with (<[collection := []]> (collections w2)) in C5.
  split; [|split].
  - unfold docs_of. simpl. rewrite C5, lookup_insert_eq. simpl.
    unfold reinserted at 2. rewrite firstn_imap.
    apply (strip_id_reinserted (next_oid w)).
  - unfold docs_of. simpl. rewrite C5.
    rewrite !lookup_insert_ne by exact Htmp.
    rewrite C2, lookup_insert_eq. reflexivity.
  - simpl. rewrite last_snoc. unfold sortFailure. reflexivity.
Qed.

Lemma interrupted_put_back_witness :
  let docs := [Sample.stored 1 2 "Zed" 4; Sample.stored 2 1 "ant" 3] in
  let f := mkFault 1 "connection reset" false in
  let w := Sample.world [] docs [] [None; None; None; None; Some f] in
  let sorted := stable_sort (byNameOrEmpty Sample.env) docs in
  db_open w = true
  /\ faults w = [None; None; None; None; Some f] ++ []
  /\ docs_of w "board_games" = docs
  /\ docs <> [] /\ (length docs <= 1000)%nat
  /\ Forall (fun d => is_Some (name_or_empty d)) docs
  /\ "board_games" <> tempName "board_games" w
  /\ docs_of w (tempName "board_games" w) = []
  /\ exists w',
       resortCollection Sample.env "board_games" "board_games" w = (Ok tt, w')
       /\ docs_of w' "board_games"
          = reinserted (next_oid w + length docs)
              (firstn (fault_applied f) sorted)
       /\ docs_of w' (tempName "board_games" w)
          = reinserted (next_oid w) sorted
       /\ last (trace w')
          = Some (EvConsoleError
                    ("Failed to sort " +:+ "board_games" +:+ ": "
                     +:+ fault_message f)).
Proof.
  intros docs f w sorted.
  assert (Hnames : Forall (fun d => is_Some (name_or_empty d)) docs).
  { repeat constructor; eexists; reflexivity. }
  assert (Htmp : "board_games" <> tempName "board_games" w).
  { vm_compute. discriminate. }
  assert (Hempty : docs_of w (tempName "board_games" w) = []).
  { vm_compute. reflexivity. }
  split; [reflexivity|]. split; [reflexivity|]. split; [reflexivity|].
  split; [discriminate|]. split; [simpl; lia|].
  split; [exact Hnames|]. split; [exact Htmp|]. split; [exact Hempty|].
  exact (interrupted_put_back Sample.env "board_games" "board_games" w docs
           f [] eq_refl eq_refl eq_refl ltac:(discriminate)
           ltac:(simpl; lia) Hnames Htmp Hempty).
Defined.

End PutBackFacts.

(* ===================================================================== *)
(** ** What the batch writer stores: the timestamps                        *)
(* ===================================================================== *)

Module StampFacts.
Import Database FloatFacts DifferFacts DecoderFacts RunFacts SortFacts.
Import UpsertFacts DifferMore UpsertMore HealthFacts RetryFacts ResortFacts.
Import ConvergeFacts.

(** *** The document of an [id] under one operation *)

Lemma stamped_moved (ts : JsVal) (a b c : option Doc) :
  stamped ts a b -> moved ts b c -> stamped ts a c.
Proof.
  intros (eb & -> & Hu & Hc) [<-|(ec & -> & Hu' & Hc')].
  - exists eb. auto.
  - exists ec. split; [reflexivity|]. split; [exact Hu'|]. congruence.
Qed.

Lemma moved_stamped (ts : JsVal) (a b c : option Doc) :
  moved ts a b -> stamped ts b c -> stamped ts a c.
Proof.
  intros [<-|(eb & -> & Hu & Hc)] H; [exact H|].
  destruct H as (ec & -> & Hu' & Hc').
  exists ec. split; [reflexivity|]. split; [exact Hu'|]. congruence.
Qed.

Lemma moved_trans (ts : JsVal) (a b c : option Doc) :
  moved ts a b -> moved ts b c -> moved ts a c.
Proof.
  intros Hab [<-|Hbc]; [exact Hab|]. right.
  exact (moved_stamped ts a b c Hab Hbc).
Qed.

Lemma matches_id_congr (v v' : JsVal) (e : Doc) :
  same_value_zero v v' = true -> matches_id v e = matches_id v' e.
Proof. intros H. unfold matches_id. apply same_value_zero_congr_r, H. Qed.

Lemma first_of_none (v : JsVal) (l : list Doc) :
  has_match v l = false -> first_of v l = None.
Proof.
  unfold has_match, first_of. induction l as [|e l IH]; [reflexivity|].
  simpl. destruct (matches_id v e); [discriminate|exact IH].
Qed.

Lemma first_of_update_same (x : UpdateOne) (v : JsVal) (l : list Doc) :
  settles x -> same_value_zero (filter_id x) v = true ->
  first_of v (update_only l x) = (fun e => op_set x ∪ e) <$> first_of v l.
Proof.
  intros Hx Hv. unfold first_of. induction l as [|e l IH]; [reflexivity|].
  rewrite update_only_cons.
  pose proof (matches_id_congr _ _ e Hv) as Hve.
  destruct (matches_id (filter_id x) e) eqn:He; simpl.
  - rewrite (matches_after_set x v e Hx He), <- Hve. reflexivity.
  - rewrite <- Hve. exact IH.
Qed.

Lemma first_of_update_other (x : UpdateOne) (v : JsVal) (l : list Doc) :
  settles x -> same_value_zero (filter_id x) v = false ->
  first_of v (update_only l x) = first_of v l.
Proof.
  intros Hx Hv. unfold first_of. induction l as [|e l IH]; [reflexivity|].
  rewrite update_only_cons.
  destruct (matches_id (filter_id x) e) eqn:He; simpl.
  - rewrite (matches_after_set x v e Hx He).
    destruct (matches_id v e) eqn:Hve; [|reflexivity].
    exfalso. unfold matches_id in He, Hve.
    rewrite same_value_zero_sym in He.
    rewrite (same_value_zero_trans _ _ _ He Hve) in Hv. discriminate.
  - destruct (matches_id v e); [reflexivity|exact IH].
Qed.

(** An operation on the [id] writes the time. *)
Lemma first_of_apply_same (ts : JsVal) (x : UpdateOne) (v : JsVal)
    (l : list Doc) (o : nat) :
  stamps ts x -> same_value_zero (filter_id x) v = true ->
  stamped ts (first_of v l) (first_of v (apply_updateOne (l, o) x).1).
Proof.
  intros [Hx Hu Hc Hi] Hv. rewrite apply_updateOne_cases.
  destruct (has_match (filter_id x) l) eqn:Hm; simpl.
  - rewrite (first_of_update_same x v l Hx Hv).
    rewrite (has_match_congr _ _ l Hv) in Hm.
    destruct (existsb_find _ _ Hm) as (e0 & He0).
    unfold first_of at 1 2. rewrite He0. simpl.
    exists (op_set x ∪ e0). split; [reflexivity|]. unfold prop. split.
    + rewrite (lookup_union_Some_l _ e0 _ _ Hu). reflexivity.
    + rewrite (lookup_union_r _ e0 _ Hc). reflexivity.
  - rewrite (has_match_congr _ _ l Hv) in Hm.
    rewrite (first_of_none v l Hm).
    unfold first_of. rewrite find_app_first.
    fold (first_of v l). rewrite (first_of_none v l Hm). simpl.
    unfold matches_id at 1. rewrite (upserted_id o x Hx), Hv.
    exists (upserted o x). split; [reflexivity|]. unfold prop, upserted.
    rewrite !lookup_insert_ne by discriminate. split.
    + assert (Hn : op_setOnInsert x !! "date_updated" = None).
      { destruct (op_setOnInsert x !! "date_updated") as [u|] eqn:E;
          [|reflexivity].
        rewrite (settles_disjoint x Hx _ (ex_intro _ u E)) in Hu.
        discriminate. }
      rewrite (lookup_union_r _ _ _ Hn).
      rewrite (lookup_union_Some_l _ _ _ _ Hu). reflexivity.
    + rewrite (lookup_union_Some_l _ _ _ _ Hi). reflexivity.
Qed.

(** An operation on another [id] leaves the document as it is. *)
Lemma first_of_apply_other (x : UpdateOne) (v : JsVal) (l : list Doc)
    (o : nat) :
  settles x -> same_value_zero (filter_id x) v = false ->
  first_of v (apply_updateOne (l, o) x).1 = first_of v l.
Proof.
  intros Hx Hv. rewrite apply_updateOne_cases.
  destruct (has_match (filter_id x) l); simpl.
  - exact (first_of_update_other x v l Hx Hv).
  - unfold first_of. rewrite find_app_first.
    destruct (List.find (matches_id v) l); [reflexivity|]. simpl.
    unfold matches_id. rewrite (upserted_id o x Hx), Hv. reflexivity.
Qed.

Lemma first_of_apply (ts : JsVal) (x : UpdateOne) (v : JsVal)
    (l : list Doc) (o : nat) :
  stamps ts x ->
  moved ts (first_of v l) (first_of v (apply_updateOne (l, o) x).1).
Proof.
  intros Hx. destruct (same_value_zero (filter_id x) v) eqn:Hv.
  - right. exact (first_of_apply_same ts x v l o Hx Hv).
  - left. symmetry.
    exact (first_of_apply_other x v l o (stamps_settles ts x Hx) Hv).
Qed.

(** *** The document of an [id] under a batch *)

Lemma first_of_fold (ts : JsVal) (P : list UpdateOne) (v : JsVal)
    (st : list Doc * nat) :
  Forall (stamps ts) P ->
  moved ts (first_of v st.1) (first_of v (fold_left apply_updateOne P st).1).
Proof.
  intros HP. revert st.
  induction HP as [|x P Hx _ IH]; intros [l o]; cbn [fold_left].
  - left. reflexivity.
  - eapply moved_trans; [exact (first_of_apply ts x v l o Hx)|].
    destruct (apply_updateOne (l, o) x) as [l1 o1] eqn:E.
    exact (IH (l1, o1)).
Qed.

Lemma first_of_fold_touched (ts : JsVal) (P : list UpdateOne) (v : JsVal)
    (st : list Doc * nat) (x : UpdateOne) :
  Forall (stamps ts) P ->
  In x P -> same_value_zero (filter_id x) v = true ->
  stamped ts (first_of v st.1)
    (first_of v (fold_left apply_updateOne P st).1).
Proof.
  intros HP. revert st.
  induction HP as [|y P Hy HP IH]; intros [l o] Hin Hv; [destruct Hin|].
  cbn [fold_left].
  pose proof (first_of_fold ts P v (apply_updateOne (l, o) y) HP) as Hrest.
  destruct (same_value_zero (filter_id y) v) eqn:Hyv.
  - eapply stamped_moved; [|exact Hrest].
    exact (first_of_apply_same ts y v l o Hy Hyv).
  - destruct Hin as [->|Hin]; [congruence|].
    specialize (IH (apply_updateOne (l, o) y) Hin Hv).
    rewrite (first_of_apply_other y v l o (stamps_settles ts y Hy) Hyv) in IH.
    exact IH.
Qed.

(** The operations of the batch writer write the time of the run. *)
Lemma gameOp_stamps (ts : JsVal) (row : Row) (gameDoc : Doc) :
  decodeRow row = Some gameDoc -> stamps ts (gameOp ts gameDoc).
Proof.
  intros Hrow.
  destruct (issued_shape ts row gameDoc (gameOp ts gameDoc) Hrow
              (or_introl eq_refl)) as (_ & Hu & Hc & Hi).
  split; [exact (gameOp_settles ts row gameDoc Hrow)|exact Hu|exact Hc|].
  rewrite Hi. reflexivity.
Qed.

Lemma searchOp_stamps (ts : JsVal) (row : Row) (gameDoc : Doc) :
  decodeRow row = Some gameDoc -> stamps ts (searchOp ts gameDoc).
Proof.
  intros Hrow.
  split; [exact (searchOp_settles ts row gameDoc Hrow)| | |]; reflexivity.
Qed.

(** *** The connection layer changes no document *)

Lemma keeps_store_ret {A} (a : A) : keeps_store (mret a).
Proof. intros w r w' [= <- <-]. reflexivity. Qed.

Lemma keeps_store_throw {A} (e : Exn) : keeps_store (@throw A e).
Proof. intros w r w' [= <- <-]. reflexivity. Qed.

Lemma keeps_store_bind {A B} (m : M A) (k : A -> M B) :
  keeps_store m -> (forall a, keeps_store (k a)) -> keeps_store (m ≫= k).
Proof.
  intros Hm Hk w r w'. unfold mbind, M_bind.
  destruct (m w) as [[a|e] w1] eqn:E.
  - intros H. rewrite (Hk a _ _ _ H). exact (Hm _ _ _ E).
  - intros [= <- <-]. exact (Hm _ _ _ E).
Qed.

Lemma keeps_store_try_catch {A} (m : M A) (h : Exn -> M A) :
  keeps_store m -> (forall e, keeps_store (h e)) ->
  keeps_store (try_catch m h).
Proof.
  intros Hm Hh w r w'. unfold try_catch.
  destruct (m w) as [[a|e] w1] eqn:E.
  - intros [= <- <-]. exact (Hm _ _ _ E).
  - intros H. rewrite (Hh e _ _ _ H). exact (Hm _ _ _ E).
Qed.

Lemma keeps_store_get_world {B} (k : World -> M B) :
  (forall w0, keeps_store (k w0)) -> keeps_store (get_world ≫= k).
Proof. intros Hk w r w'. unfold mbind, M_bind, get_world. apply Hk. Qed.

Lemma keeps_store_modify (f : World -> World) :
  (forall w, store_of (f w) = store_of w) -> keeps_store (modify f).
Proof. intros Hf w r w' [= <- <-]. apply Hf. Qed.

Lemma keeps_store_call (e : Event) : keeps_store (call e).
Proof.
  intros w r w'. unfold call.
  destruct (head (faults w)) as [[f|]|]; intros [= <- <-]; try reflexivity.
  destruct (fault_disconnects f); reflexivity.
Qed.

Lemma keeps_store_simple_call (e : Event) : keeps_store (simple_call e).
Proof.
  unfold simple_call. apply keeps_store_bind; [apply keeps_store_call|].
  intros [f|]; [apply keeps_store_throw|apply keeps_store_ret].
Qed.

Lemma keeps_store_console_error (text : string) :
  keeps_store (console_error text).
Proof. apply keeps_store_modify. reflexivity. Qed.

Lemma keeps_store_isConnected : keeps_store isConnected.
Proof.
  unfold isConnected. apply keeps_store_get_world. intros w0.
  apply keeps_store_ret.
Qed.

Lemma keeps_store_connect : keeps_store connect.
Proof.
  unfold connect. apply keeps_store_try_catch.
  - apply keeps_store_bind; [apply keeps_store_isConnected|].
    intros [|]; [apply keeps_store_ret|].
    apply keeps_store_bind; [apply keeps_store_simple_call|]. intros _.
    apply keeps_store_modify. reflexivity.
  - intros e. apply keeps_store_bind; [apply keeps_store_console_error|].
    intros _. apply keeps_store_throw.
Qed.

Lemma keeps_store_ping : keeps_store ping.
Proof.
  unfold ping. apply keeps_store_get_world. intros w0.
  destruct (db_open w0); [apply keeps_store_simple_call|].
  apply keeps_store_throw.
Qed.

Lemma keeps_store_ensureConnection : keeps_store ensureConnection.
Proof.
  unfold ensureConnection. apply keeps_store_try_catch.
  - apply keeps_store_bind; [apply keeps_store_isConnected|]. intros c.
    apply keeps_store_bind; [|intros _; apply keeps_store_ping].
    destruct (negb c); [apply keeps_store_connect|apply keeps_store_ret].
  - intros _. apply keeps_store_connect.
Qed.


(** *** A [bulkWrite], however it ends *)

Lemma moved_in_refl (ts : JsVal) (c : string) (w w' : World) :
  docs_of w' c = docs_of w c -> moved_in ts c w w'.
Proof. intros H v. rewrite H. left. reflexivity. Qed.

Lemma moved_in_trans (ts : JsVal) (c : string) (w1 w2 w3 : World) :
  moved_in ts c w1 w2 -> moved_in ts c w2 w3 -> moved_in ts c w1 w3.
Proof. intros H1 H2 v. exact (moved_trans ts _ _ _ (H1 v) (H2 v)). Qed.


Lemma moved_stamped_in (ts : JsVal) (c : string) (w1 w2 w3 : World)
    (d : Doc) :
  moved_in ts c w1 w2 -> stamped_in ts c w2 w3 d -> stamped_in ts c w1 w3 d.
Proof. intros H1 H2. exact (moved_stamped ts _ _ _ (H1 _) H2). Qed.

Lemma same_store_docs (w w' : World) (c : string) :
  store_of w' = store_of w -> docs_of w' c = docs_of w c.
Proof. intros [= H _]. unfold docs_of. rewrite H. reflexivity. Qed.

Lemma bulkWrite_moves (ts : JsVal) (c : string) (ops : list UpdateOne)
    (w w' : World) (r : Res unit) :
  Forall (stamps ts) ops ->
  bulkWrite c ops w = (r, w') ->
  moved_in ts c w w'
  /\ (forall c', c' <> c -> docs_of w' c' = docs_of w c')
  /\ (r = Ok tt ->
      forall x v, In x ops -> same_value_zero (filter_id x) v = true ->
        stamped ts (first_of v (docs_of w c)) (first_of v (docs_of w' c))).
Proof.
  intros Hops E.
  destruct (head (faults w)) as [[f|]|] eqn:Hf.
  - destruct (bulkWrite_fails c ops w f Hf) as (w1 & E1 & S1 & _).
    rewrite E in E1. injection E1 as -> <-.
    assert (Hpre : Forall (stamps ts) (firstn (fault_applied f) ops)).
    { rewrite <- (firstn_skipn (fault_applied f) ops) in Hops.
      apply Forall_app in Hops. tauto. }
    split; [|split; [|discriminate]].
    + intros v. change (docs_of w' c) with (docs_in (store_of w') c).
      rewrite S1, docs_in_written.
      exact (first_of_fold ts _ v (docs_of w c, next_oid w) Hpre).
    + intros c' Hc'. change (docs_of w' c') with (docs_in (store_of w') c').
      rewrite S1, docs_in_written_ne by exact Hc'. reflexivity.
  - destruct (bulkWrite_passes c ops w) as (w1 & E1 & S1 & _);
      [rewrite Hf; reflexivity|].
    rewrite E in E1. injection E1 as -> <-.
    split; [|split].
    + intros v. change (docs_of w' c) with (docs_in (store_of w') c).
      rewrite S1, docs_in_written.
      exact (first_of_fold ts _ v (docs_of w c, next_oid w) Hops).
    + intros c' Hc'. change (docs_of w' c') with (docs_in (store_of w') c').
      rewrite S1, docs_in_written_ne by exact Hc'. reflexivity.
    + intros _ x v Hx Hv.
      change (docs_of w' c) with (docs_in (store_of w') c).
      rewrite S1, docs_in_written.
      exact (first_of_fold_touched ts _ v (docs_of w c, next_oid w) x
               Hops Hx Hv).
  - destruct (bulkWrite_passes c ops w) as (w1 & E1 & S1 & _);
      [rewrite Hf; reflexivity|].
    rewrite E in E1. injection E1 as -> <-.
    split; [|split].
    + intros v. change (docs_of w' c) with (docs_in (store_of w') c).
      rewrite S1, docs_in_written.
      exact (first_of_fold ts _ v (docs_of w c, next_oid w) Hops).
    + intros c' Hc'. change (docs_of w' c') with (docs_in (store_of w') c').
      rewrite S1, docs_in_written_ne by exact Hc'. reflexivity.
    + intros _ x v Hx Hv.
      change (docs_of w' c) with (docs_in (store_of w') c).
      rewrite S1, docs_in_written.
      exact (first_of_fold_touched ts _ v (docs_of w c, next_oid w) x
               Hops Hx Hv).
Qed.

(** *** The batch writer, whatever the store does *)

Section Writer.
Variables (g s : string) (ts : JsVal).
Hypothesis Hgs : g <> s.

Let decoded_all (l : list Doc) : Prop :=
  Forall (fun d => exists row, decodeRow row = Some d) l.

Lemma batch_stamps (pending : list Doc) (b : Batches) :
  batches_of ts pending b -> decoded_all pending ->
  Forall (stamps ts) (gamesBatch b) /\ Forall (stamps ts) (searchBatch b).
Proof.
  intros [Bg Bs] Hp. rewrite Bg, Bs.
  split; apply Forall_fmap; eapply Forall_impl; try exact Hp;
    intros d [row Hrow]; simpl.
  - exact (gameOp_stamps ts row d Hrow).
  - exact (searchOp_stamps ts row d Hrow).
Qed.

Lemma writeBatches_moves (pending : list Doc) (b : Batches) (w w' : World)
    (r : Res Batches) :
  batches_of ts pending b -> decoded_all pending ->
  writeBatches g s b w = (r, w') ->
  moved_in ts g w w' /\ moved_in ts s w w'
  /\ forall b', r = Ok b' ->
       b' = mkBatches [] [] (totalProcessed b + length (gamesBatch b))
       /\ forall d, In d pending ->
            stamped_in ts g w w' d /\ stamped_in ts s w w' d.
Proof.
  intros Hb Hp. destruct (batch_stamps pending b Hb Hp) as [HG HS].
  destruct Hb as [Bg Bs].
  rewrite writeBatches_steps.
  destruct (ensureConnection w) as [[[]|e] w1] eqn:E1.
  2:{ intros [= <- <-].
      pose proof (keeps_store_ensureConnection _ _ _ E1) as S1.
      split; [apply moved_in_refl, same_store_docs, S1|].
      split; [apply moved_in_refl, same_store_docs, S1|]. discriminate. }
  pose proof (keeps_store_ensureConnection _ _ _ E1) as S1.
  assert (D1 : forall c, docs_of w1 c = docs_of w c)
    by (intros c; apply same_store_docs, S1).
  destruct (bulkWrite g (gamesBatch b) w1) as [[[]|e] w2] eqn:E2.
  2:{ intros [= <- <-].
      destruct (bulkWrite_moves ts g _ _ _ _ HG E2) as (Mg & Og & _).
      split; [intros v; rewrite <- D1; apply Mg|].
      split; [|discriminate].
      apply moved_in_refl. rewrite Og by congruence. apply D1. }
  destruct (bulkWrite_moves ts g _ _ _ _ HG E2) as (Mg & Og & Tg).
  destruct (bulkWrite s (searchBatch b) w2) as [[[]|e] w3] eqn:E3.
  2:{ intros [= <- <-].
      destruct (bulkWrite_moves ts s _ _ _ _ HS E3) as (Ms & Os & _).
      split; [|split; [|discriminate]].
      - intros v. rewrite Os by exact Hgs. rewrite <- D1. apply Mg.
      - intros v. rewrite <- D1, <- (Og s) by congruence. apply Ms. }
  destruct (bulkWrite_moves ts s _ _ _ _ HS E3) as (Ms & Os & Ts).
  intros [= <- <-].
  split; [|split].
  - intros v. rewrite Os by exact Hgs. rewrite <- D1. apply Mg.
  - intros v. rewrite <- D1, <- (Og s) by congruence. apply Ms.
  - intros b' [= <-]. split; [reflexivity|]. intros d Hd.
    unfold decoded_all in Hp. rewrite Forall_forall in Hp.
    destruct (Hp d (proj2 (list_elem_of_In _ _) Hd)) as (row & Hrow).
    split.
    + unfold stamped_in. rewrite Os by exact Hgs. rewrite <- D1.
      apply (Tg eq_refl (gameOp ts d)).
      * rewrite Bg. apply in_map, Hd.
      * exact (settles_self _ (gameOp_settles ts row d Hrow)).
    + unfold stamped_in. rewrite <- D1, <- (Og s) by congruence.
      apply (Ts eq_refl (searchOp ts d)).
      * rewrite Bs. apply in_map, Hd.
      * exact (settles_self _ (searchOp_settles ts row d Hrow)).
Qed.

Lemma flushFull_moves (pending : list Doc) (b : Batches) (w w' : World)
    (b' : Batches) :
  batches_of ts pending b -> decoded_all pending ->
  flushFull g s b w = (Ok b', w') ->
  moved_in ts g w w' /\ moved_in ts s w w'
  /\ b' = mkBatches [] [] (totalProcessed b + length (gamesBatch b))
  /\ forall d, In d pending ->
       stamped_in ts g w w' d /\ stamped_in ts s w w' d.
Proof.
  intros Hb Hp. rewrite flushFull_retries_once.
  destruct (writeBatches g s b w) as [[b1|e] w1] eqn:E1.
  - intros [= <- <-].
    destruct (writeBatches_moves pending b w w1 _ Hb Hp E1) as (Mg & Ms & T).
    destruct (T b1 eq_refl) as [Eb Hd]. auto.
  - cbv zeta.
    destruct (writeBatches_moves pending b w w1 _ Hb Hp E1) as (Mg & Ms & _).
    match goal with
    | |- context [writeBatches g s b ?w2] =>
        destruct (writeBatches g s b w2) as [[b2|e2] w3] eqn:E2;
        [|discriminate];
        destruct (writeBatches_moves pending b w2 w3 _ Hb Hp E2)
          as (Mg2 & Ms2 & T2)
    end.
    intros [= <- <-]. destruct (T2 b2 eq_refl) as [Eb Hd].
    split; [|split; [|split; [exact Eb|]]].
    + exact (moved_in_trans ts g w w1 w3 Mg Mg2).
    + exact (moved_in_trans ts s w w1 w3 Ms Ms2).
    + intros d Hin. destruct (Hd d Hin) as [Sg Ss]. split.
      * exact (moved_stamped_in ts g w w1 w3 d Mg Sg).
      * exact (moved_stamped_in ts s w w1 w3 d Ms Ss).
Qed.




End Writer.

(** *** The ['end'] handler *)










(** The run of the example above, with batches of two.  The first
    [bulkWrite] of the full batch fails after one operation took effect
    and the batch is written again; the third record goes with the
    remaining batch.  The record that was stored keeps its
    [date_created], in both collections, and the new ones have both dates
    equal, also after the re-sort. *)
Example retried_run_timestamps :
  let rows := [Sample.row "1" "Ant" "3"; Sample.row "2" "Bee" "6";
               Sample.row "3" "Cat" "9"] in
  let w := Sample.world rows [Sample.stored 1 1 "Ant" 5]
             [Sample.stored 2 1 "Ant" 5]
             [None; None; Some (mkFault 1 "write failed" false)] in
  let w' := (onEnd Sample.env "board_games" "games_search" 2
               (decoded rows) w).2 in
  let dates := [ (Some (VNum 1%float), Some (VDate 1600000000000),
                  Some (VDate 1700000000000));
                 (Some (VNum 2%float), Some (VDate 1700000000000),
                  Some (VDate 1700000000000));
                 (Some (VNum 3%float), Some (VDate 1700000000000),
                  Some (VDate 1700000000000)) ] in
  (fun d : Doc => (d !! "id", d !! "date_created", d !! "date_updated"))
    <$> docs_of w' "board_games" = dates
  /\ (fun d : Doc => (d !! "id", d !! "date_created", d !! "date_updated"))
       <$> docs_of w' "games_search" = dates
  /\ List.filter (fun e => match e with EvFind _ => false | _ => true end)
       (firstn 10 (trace w'))
     = [ EvPing; EvBulkWrite "board_games" 2;
         EvConsoleError "Batch write failed, retrying... write failed";
         EvPing; EvBulkWrite "board_games" 2; EvBulkWrite "games_search" 2;
         EvPing; EvBulkWrite "board_games" 1; EvBulkWrite "games_search" 1 ].
Proof. vm_compute. auto. Qed.

(** *** The retry of a full batch *)

(** X10.  The retry of a full batch is safe.  When one call among those
    of a full batch fails (the ping, or either [bulkWrite] after any
    number of its operations took effect, with or without the loss of the
    connection) the batch of records decoded from a file is written all
    the same: [flushFull] returns with empty batches and the count
    advanced by the size of the batch, the store holds what the two
    batches of operations leave when each is applied once, every record
    of the batch has a document in each collection with [date_updated]
    at the timestamp and with the [date_created] its document had before
    the batch (the timestamp, when it had none), and the two collections
    and the next [_id] are those of the run where no call fails. *)
Theorem retried_batch_as_written_once
    (g s : string) (ts : JsVal) (ds : list Doc) (n j : nat) (f : Fault)
    (w : World) :
  Forall (fun d => exists row, decodeRow row = Some d) ds ->
  g <> s -> db_open w = true -> connected w = true ->
  faults w = replicate j None ++ [Some f] ->
  let b := mkBatches (gameOp ts <$> ds) (searchOp ts <$> ds) n in
  exists w' w0,
    flushFull g s b w = (Ok (mkBatches [] [] (n + length ds)), w')
    /\ store_of w'
       = written s (searchOp ts <$> ds)
           (written g (gameOp ts <$> ds) (store_of w))
    /\ (forall d, In d ds ->
          stamped_in ts g w w' d /\ stamped_in ts s w w' d)
    /\ flushFull g s b (set_faults [] w)
       = (Ok (mkBatches [] [] (n + length ds)), w0)
    /\ store_of w' = store_of w0.
Proof.
  intros Hds Hgs Hd Hc Hf b.
  destruct (issued_settle ts ds Hds) as [HG HS].
  destruct (flushFull_one_failure g s b j f w HG HS Hgs Hd Hc Hf)
    as (w' & E & S).
  destruct (writeBatches_quiet g s b (set_faults [] w) Hd eq_refl)
    as (w0 & E0 & S0).
  assert (Hlen : (totalProcessed b + length (gamesBatch b) = n + length ds)%nat).
  { unfold b. simpl. rewrite length_fmap. reflexivity. }
  rewrite Hlen in E, E0.
  exists w', w0.
  split; [exact E|]. split; [exact S|]. split.
  - destruct (flushFull_moves g s ts Hgs ds b w w' _
                ltac:(split; reflexivity) Hds E) as (_ & _ & _ & T).
    exact T.
  - split; [rewrite flushFull_retries_once, E0; reflexivity|].
    change (store_of (set_faults [] w)) with (store_of w) in S0.
    rewrite S, S0. reflexivity.
Qed.

Lemma retried_batch_as_written_once_witness :
  let rows := [Sample.row "1" "Ant" "5"; Sample.row "2" "Bee" "6"] in
  let ds := omap decodeRow rows in
  let f := mkFault 1 "socket closed" true in
  let w := Sample.world rows [Sample.stored 1 2 "Bee" 4] [] [None; Some f] in
  let g := "board_games" in
  let s := "games_search" in
  let ts := VDate 5 in
  let b := mkBatches (gameOp ts <$> ds) (searchOp ts <$> ds) 0 in
  Forall (fun d => exists row, decodeRow row = Some d) ds
  /\ g <> s
  /\ db_open w = true /\ connected w = true
  /\ faults w = replicate 1 None ++ [Some f]
  /\ exists w' w0,
       flushFull g s b w = (Ok (mkBatches [] [] (0 + length ds)), w')
       /\ store_of w'
          = written s (searchOp ts <$> ds)
              (written g (gameOp ts <$> ds) (store_of w))
       /\ (forall d, In d ds ->
             stamped_in ts g w w' d /\ stamped_in ts s w w' d)
       /\ flushFull g s b (set_faults [] w)
          = (Ok (mkBatches [] [] (0 + length ds)), w0)
       /\ store_of w' = store_of w0.
Proof.
  intros rows ds f w g s ts b.
  assert (Hds : Forall (fun d => exists row, decodeRow row = Some d) ds).
  { repeat constructor.
    - exists (Sample.row "1" "Ant" "5"). reflexivity.
    - exists (Sample.row "2" "Bee" "6"). reflexivity. }
  split; [exact Hds|]. split; [discriminate|].
  split; [reflexivity|]. split; [reflexivity|]. split; [reflexivity|].
  exact (retried_batch_as_written_once g s ts ds 0 1 f w Hds
           ltac:(discriminate) eq_refl eq_refl eq_refl).
Defined.

End StampFacts.
